(** * Relay server of the LAN video-conferencing application

    A shallow embedding of [server.py] (and of the sender loop of
    [client.py]) together with the properties of the relay engine:
    fragment reassembly, the session registry, the control channel and the
    audio relay.

    Conventions of the embedding:
    - Python integers are [Z]; byte strings are [list byte];
    - [time.time()] readings are rationals ([Q]);
    - the dictionaries whose iteration order the code relies on
      ([meet_general_clients], [meet_video_addrs], [meet_audio_addrs]) are
      insertion-ordered association lists; the others are [gmap]s;
    - Python sets of addresses are [gset]s, iterated through [elements];
    - an exception is an explicit outcome of the function that raises it. *)

From Stdlib Require Import ZArith QArith Qround Lia List Permutation.
From Stdlib Require Import Init.Byte Strings.Byte.
From stdpp Require Import base decidable countable gmap strings list fin_maps.

Local Open Scope Z_scope.

(* ===================================================================== *)
(** ** Bytes and [struct] *)
(* ===================================================================== *)

Module Struct.

Definition byte_of_Z (z : Z) : byte :=
  match Byte.of_N (Z.to_N (z mod 256)) with
  | Some b => b
  | None => x00
  end.

Definition Z_of_byte (b : byte) : Z := Z.of_N (Byte.to_N b).

(** Big-endian value of a byte string. *)
Definition be_value (bs : list byte) : Z :=
  foldl (λ acc b, acc * 256 + Z_of_byte b) 0 bs.

(** [struct.pack(">L", x)] and the ["I"] field of [">IHH"]: four bytes,
    most significant first; [None] stands for [struct.error]. *)
Definition pack_u32 (x : Z) : option (list byte) :=
  if decide (0 ≤ x < 2 ^ 32)
  then Some [byte_of_Z (x / 2 ^ 24); byte_of_Z (x / 2 ^ 16);
             byte_of_Z (x / 2 ^ 8); byte_of_Z x]
  else None.

(** The ["H"] field: two bytes. *)
Definition pack_u16 (x : Z) : option (list byte) :=
  if decide (0 ≤ x < 2 ^ 16)
  then Some [byte_of_Z (x / 2 ^ 8); byte_of_Z x]
  else None.

(** [struct.unpack(">L", hdr)[0]]; the argument must hold 4 bytes. *)
Definition unpack_u32 (bs : list byte) : option Z :=
  if decide (length bs = 4%nat) then Some (be_value bs) else None.

Definition VIDEO_HDR_SIZE : Z := 8.

(** [struct.pack(VIDEO_HDR_FMT, frame_id, total, idx)], [VIDEO_HDR_FMT = ">IHH"]. *)
Definition pack_video_hdr (frame_id total idx : Z) : option (list byte) :=
  match pack_u32 frame_id, pack_u16 total, pack_u16 idx with
  | Some a, Some b, Some c => Some (a ++ b ++ c)
  | _, _, _ => None
  end.

(** [struct.unpack(VIDEO_HDR_FMT, hdr)]. *)
Definition unpack_video_hdr (hdr : list byte) : option (Z * Z * Z) :=
  if decide (length hdr = 8%nat)
  then Some (be_value (take 4 hdr),
             be_value (take 2 (drop 4 hdr)),
             be_value (drop 6 hdr))
  else None.

Lemma Z_of_byte_range b : 0 ≤ Z_of_byte b < 256.
Proof.
  unfold Z_of_byte. pose proof (Byte.to_N_bounded b) as H.
  lia.
Qed.

Lemma Z_of_byte_of_Z z : Z_of_byte (byte_of_Z z) = z mod 256.
Proof.
  unfold Z_of_byte, byte_of_Z.
  pose proof (Z.mod_pos_bound z 256 eq_refl) as Hb.
  destruct (Byte.of_N (Z.to_N (z mod 256))) as [b|] eqn:E.
  - apply Byte.to_of_N in E. rewrite E. lia.
  - apply Byte.of_N_None_iff in E. lia.
Qed.

Lemma be_value_2 a b : be_value [a; b] = Z_of_byte a * 256 + Z_of_byte b.
Proof. unfold be_value; simpl. lia. Qed.

Lemma be_value_4 a b c d :
  be_value [a; b; c; d]
  = ((Z_of_byte a * 256 + Z_of_byte b) * 256 + Z_of_byte c) * 256 + Z_of_byte d.
Proof. unfold be_value; simpl. lia. Qed.

Lemma unpack_pack_u16 x bs : pack_u16 x = Some bs → length bs = 2%nat ∧ be_value bs = x.
Proof.
  unfold pack_u16. case_decide as Hx; [|done]. intros [= <-].
  split; [done|]. rewrite be_value_2, !Z_of_byte_of_Z.
  change (2 ^ 8) with 256. change (2 ^ 16) with 65536 in Hx.
  rewrite (Z.mod_small (x / 256)) by (split; [apply Z.div_pos; lia | apply Z.div_lt_upper_bound; lia]).
  pose proof (Z.div_mod x 256). lia.
Qed.

Lemma unpack_pack_u32 x bs : pack_u32 x = Some bs → length bs = 4%nat ∧ be_value bs = x.
Proof.
  unfold pack_u32. case_decide as Hx; [|done]. intros [= <-].
  split; [done|]. rewrite be_value_4, !Z_of_byte_of_Z.
  change (2 ^ 8) with 256. change (2 ^ 16) with 65536.
  change (2 ^ 24) with 16777216. change (2 ^ 32) with 4294967296 in Hx.
  rewrite (Z.mod_small (x / 16777216))
    by (split; [apply Z.div_pos; lia | apply Z.div_lt_upper_bound; lia]).
  pose proof (Z.div_mod x 256 ltac:(lia)).
  pose proof (Z.div_mod (x / 256) 256 ltac:(lia)).
  pose proof (Z.div_mod (x / 256 / 256) 256 ltac:(lia)).
  rewrite !Z.div_div in * by lia.
  change (256 * 256) with 65536 in *. change (65536 * 256) with 16777216 in *.
  lia.
Qed.

Lemma pack_u32_Some x : 0 ≤ x < 2 ^ 32 → is_Some (pack_u32 x).
Proof. intros H. unfold pack_u32. rewrite decide_True by done. eauto. Qed.

Lemma pack_u16_Some x : 0 ≤ x < 2 ^ 16 → is_Some (pack_u16 x).
Proof. intros H. unfold pack_u16. rewrite decide_True by done. eauto. Qed.

Lemma pack_video_hdr_Some f t i :
  0 ≤ f < 2 ^ 32 → 0 ≤ t < 2 ^ 16 → 0 ≤ i < 2 ^ 16 →
  is_Some (pack_video_hdr f t i).
Proof.
  intros Hf Ht Hi. unfold pack_video_hdr.
  destruct (pack_u32_Some f Hf) as [a ->].
  destruct (pack_u16_Some t Ht) as [b ->].
  destruct (pack_u16_Some i Hi) as [c ->]. eauto.
Qed.

Lemma pack_video_hdr_None_total f t i :
  ¬ (0 ≤ t < 2 ^ 16) → pack_video_hdr f t i = None.
Proof.
  intros Ht. unfold pack_video_hdr, pack_u16 at 1.
  rewrite decide_False by done. by destruct (pack_u32 f).
Qed.

(** A packed header has 8 bytes and unpacks to the three fields. *)
Lemma unpack_pack_video_hdr f t i hdr :
  pack_video_hdr f t i = Some hdr →
  length hdr = 8%nat ∧ unpack_video_hdr hdr = Some (f, t, i).
Proof.
  unfold pack_video_hdr.
  destruct (pack_u32 f) as [a|] eqn:Ea; [|done].
  destruct (pack_u16 t) as [b|] eqn:Eb; [|done].
  destruct (pack_u16 i) as [c|] eqn:Ec; [|done].
  intros [= <-].
  apply unpack_pack_u32 in Ea as [La Va].
  apply unpack_pack_u16 in Eb as [Lb Vb].
  apply unpack_pack_u16 in Ec as [Lc Vc].
  assert (Hlen : length (a ++ b ++ c) = 8%nat) by (rewrite !length_app; lia).
  split; [done|]. unfold unpack_video_hdr. rewrite decide_True by done.
  rewrite take_app_length' by done.
  replace (drop 4 (a ++ b ++ c)) with (b ++ c)
    by (symmetry; apply drop_app_length'; done).
  rewrite take_app_length' by done.
  replace (drop 6 (a ++ b ++ c)) with c.
  - by rewrite Va, Vb, Vc.
  - rewrite app_assoc. symmetry. apply drop_app_length'. rewrite length_app. lia.
Qed.

End Struct.

(* ===================================================================== *)
(** ** Python values and insertion-ordered dictionaries *)
(* ===================================================================== *)

Module Py.

(** The values that travel in a handshake or a control message. *)
Inductive value :=
| VNone
| VInt (z : Z)
| VStr (s : string).

#[global] Instance value_eq_dec : EqDecision value.
Proof. solve_decision. Defined.

#[global] Instance value_countable : Countable value.
Proof.
  refine (inj_countable'
    (λ v, match v with
          | VNone => inl ()
          | VInt z => inr (inl z)
          | VStr s => inr (inr s)
          end)
    (λ x, match x with
          | inl _ => VNone
          | inr (inl z) => VInt z
          | inr (inr s) => VStr s
          end) _).
  by intros [].
Defined.

(** Truth value of [if v:] / [if not v:]. *)
Definition truthy (v : value) : bool :=
  match v with
  | VNone => false
  | VInt z => negb (z =? 0)
  | VStr s => match s with EmptyString => false | _ => true end
  end.

(** What [pickle.loads] yields on the control channel: a dictionary with
    string keys, or some other value. *)
Inductive pyobj :=
| PyVal (v : value)
| PyDict (d : gmap string value).

#[global] Instance pyobj_eq_dec : EqDecision pyobj.
Proof. solve_decision. Defined.

Definition obj_truthy (o : pyobj) : bool :=
  match o with
  | PyVal v => truthy v
  | PyDict d => negb (bool_decide (d = ∅))
  end.

(** [o.get(k, dflt)]; [None] stands for the [AttributeError] raised when
    [o] is not a dictionary. *)
Definition obj_get (o : pyobj) (k : string) (dflt : value) : option value :=
  match o with
  | PyVal _ => None
  | PyDict d => Some (default dflt (d !! k))
  end.

(** A [dict] as the list of its items in insertion order. *)
Section odict.
Context {K V : Type} `{EqDecision K}.

Fixpoint dict_get (k : K) (d : list (K * V)) : option V :=
  match d with
  | [] => None
  | (k', v) :: d' => if decide (k' = k) then Some v else dict_get k d'
  end.

(** [k in d] *)
Definition dict_mem (k : K) (d : list (K * V)) : bool :=
  bool_decide (is_Some (dict_get k d)).

(** [d[k] = v]: an existing key keeps its place, a new key goes last. *)
Definition dict_set (k : K) (v : V) (d : list (K * V)) : list (K * V) :=
  if dict_mem k d
  then (λ kv, if decide (kv.1 = k) then (k, v) else kv) <$> d
  else d ++ [(k, v)].

(** [del d[k]] *)
Definition dict_del (k : K) (d : list (K * V)) : list (K * V) :=
  filter (λ kv, kv.1 ≠ k) d.

Lemma dict_get_Some_elem_of k v d : dict_get k d = Some v → (k, v) ∈ d.
Proof.
  induction d as [|[k' v'] d IH]; simpl; [done|].
  case_decide as E; [intros [= ->]; subst; left | intros; right; auto].
Qed.

Lemma dict_get_None k d : dict_get k d = None ↔ ∀ v, (k, v) ∉ d.
Proof.
  induction d as [|[k' v'] d IH]; simpl.
  - split; [intros _ v Hin; inversion Hin | done].
  - case_decide as E.
    + split; [done|]. intros H. exfalso. apply (H v'). subst. left.
    + rewrite IH. split.
      * intros H v [[= -> ->]|Hin]%elem_of_cons; [done | by eapply H].
      * intros H v Hin. eapply H. right. done.
Qed.

Lemma elem_of_dict_get k v d : (k, v) ∈ d → is_Some (dict_get k d).
Proof.
  intros Hin. destruct (dict_get k d) eqn:E; [eauto|].
  exfalso. eapply dict_get_None in E. done.
Qed.

Lemma dict_get_set_eq k v d : dict_get k (dict_set k v d) = Some v.
Proof.
  unfold dict_set, dict_mem. case_bool_decide as Hm.
  - induction d as [|[k' v'] d IH]; simpl in *; [by destruct Hm|].
    case_decide as E; simpl; [by rewrite decide_True|].
    rewrite decide_False by done. auto.
  - assert (Hn : dict_get k d = None)
      by (destruct (dict_get k d); [exfalso; eauto | done]).
    clear Hm. induction d as [|[k' v'] d IH]; simpl in *.
    + by rewrite decide_True.
    + case_decide; [done | auto].
Qed.

Lemma dict_get_set_ne k k' v d : k ≠ k' → dict_get k' (dict_set k v d) = dict_get k' d.
Proof.
  intros Hne. unfold dict_set. destruct (dict_mem k d).
  - induction d as [|[k1 v1] d IH]; simpl; [done|].
    case_decide as E; simpl in *.
    + subst. rewrite !decide_False by done. done.
    + case_decide; [done | auto].
  - induction d as [|[k1 v1] d IH]; simpl.
    + by rewrite decide_False.
    + case_decide; [done | auto].
Qed.

Lemma dict_get_del_eq k d : dict_get k (dict_del k d) = None.
Proof.
  apply dict_get_None. intros v [Hk _]%list_elem_of_filter. done.
Qed.

Lemma dict_get_del_ne k k' d : k ≠ k' → dict_get k' (dict_del k d) = dict_get k' d.
Proof.
  intros Hne. unfold dict_del. induction d as [|[k1 v1] d IH]; [done|].
  rewrite filter_cons. simpl. case_decide as E1; simpl.
  - case_decide; [done | auto].
  - subst. rewrite decide_False by done. auto.
Qed.

Lemma elem_of_dict_set k v k' v' d :
  (k', v') ∈ dict_set k v d ↔
  (k' = k ∧ v' = v ∧ (dict_mem k d = false ∨ ∃ w, (k, w) ∈ d)) ∨ (k' ≠ k ∧ (k', v') ∈ d).
Proof.
  unfold dict_set. destruct (dict_mem k d) eqn:Hm.
  - rewrite list_elem_of_fmap. split.
    + intros [[k1 v1] [Heq Hin]]. simpl in Heq. case_decide as E.
      * injection Heq as -> ->. subst. left. eauto 6.
      * injection Heq as -> ->. right. done.
    + intros [(-> & -> & [?|[w Hw]])|[Hne Hin]]; [done| |].
      * exists (k, w). simpl. by rewrite decide_True.
      * exists (k', v'). simpl. by rewrite decide_False.
  - rewrite elem_of_app, list_elem_of_singleton. split.
    + intros [Hin|[= -> ->]]; [|left; eauto].
      right. split; [|done]. intros ->.
      apply elem_of_dict_get in Hin. unfold dict_mem in Hm.
      by apply bool_decide_eq_false in Hm.
    + intros [(-> & -> & _)|[_ Hin]]; [by right | by left].
Qed.

Lemma elem_of_dict_del k k' v' d :
  (k', v') ∈ dict_del k d ↔ k' ≠ k ∧ (k', v') ∈ d.
Proof. unfold dict_del. by rewrite list_elem_of_filter. Qed.

Lemma dict_set_elem_of_eq k v d : (k, v) ∈ dict_set k v d.
Proof. apply dict_get_Some_elem_of, dict_get_set_eq. Qed.

Lemma dict_set_elem_of_ne k v k' v' d :
  k' ≠ k → (k', v') ∈ dict_set k v d ↔ (k', v') ∈ d.
Proof.
  intros Hne. rewrite elem_of_dict_set. split; [|by right].
  by intros [(-> & _)|[_ ?]].
Qed.

Lemma dict_set_elem_of_inv k v v' d : (k, v') ∈ dict_set k v d → v' = v.
Proof. rewrite elem_of_dict_set. by intros [(_ & -> & _)|[? _]]. Qed.

(** With distinct keys, every item is what a lookup of its key gives. *)
Lemma dict_get_elem_of k v d : NoDup d.*1 → (k, v) ∈ d → dict_get k d = Some v.
Proof.
  induction d as [|[k' v'] d IH]; simpl; [by intros _ ?%elem_of_nil|].
  intros [Hk Hnd]%NoDup_cons [[= <- <-]|Hin]%elem_of_cons.
  - by rewrite decide_True.
  - rewrite decide_False; [by apply IH|].
    intros ->. apply Hk. by apply (list_elem_of_fmap_2 fst _ (k, v)).
Qed.

Lemma dict_set_NoDup k v d : NoDup d.*1 → NoDup (dict_set k v d).*1.
Proof.
  intros Hnd. unfold dict_set. destruct (dict_mem k d) eqn:Hm.
  - rewrite <- list_fmap_compose.
    rewrite (list_fmap_ext _ fst d); [done|].
    intros _ [k' v'] _. simpl. by case_decide.
  - rewrite fmap_app. apply NoDup_app. split_and!; [done| |apply NoDup_singleton].
    intros k' Hin ->%list_elem_of_singleton. simpl in Hin.
    apply list_elem_of_fmap in Hin as ([k2 v2] & Heq & Hin). simpl in Heq. subst k2.
    apply elem_of_dict_get in Hin. unfold dict_mem in Hm.
    by apply bool_decide_eq_false in Hm.
Qed.

Lemma dict_del_NoDup k d : NoDup d.*1 → NoDup (dict_del k d).*1.
Proof.
  unfold dict_del. induction d as [|[k' v'] d IH]; [done|].
  intros [Hk Hnd]%NoDup_cons. rewrite filter_cons. case_decide; simpl; [|auto].
  apply NoDup_cons. split; [|auto].
  intros (kv & Heq & [_ Hin]%list_elem_of_filter)%list_elem_of_fmap.
  apply Hk. apply list_elem_of_fmap. eauto.
Qed.

(** Storing what is already stored changes nothing. *)
Lemma dict_set_id k v d : NoDup d.*1 → dict_get k d = Some v → dict_set k v d = d.
Proof.
  intros Hnd Hg. unfold dict_set, dict_mem.
  rewrite bool_decide_eq_true_2 by (rewrite Hg; eauto).
  rewrite (list_fmap_ext _ id d); [apply list_fmap_id|].
  intros i [k' v'] Hl. simpl. case_decide as E; [|done]. subst k'.
  apply list_elem_of_lookup_2 in Hl.
  rewrite (dict_get_elem_of _ _ _ Hnd Hl) in Hg. by injection Hg as ->.
Qed.

End odict.

End Py.

(* ===================================================================== *)
(** ** Shared state of the server *)
(* ===================================================================== *)

Module Server.
Import Struct Py.

Definition MAX_UDP_PAYLOAD : Z := 60000.
Definition AUDIO_UDP_MAX : Z := 4096.
Definition FRAME_TTL : Q := 2.

(** A socket address [(ip, port)].  The port is a [value]: a registered
    address is built from whatever the handshake carried, while the
    addresses returned by [recvfrom] and [accept] hold a [VInt]. *)
Definition addr : Type := string * value.

(** A control connection (the socket object [conn]). *)
Definition conn : Type := nat.

(** An item [(conn, addr, username)] of a meeting's client list. *)
Record participant := Participant {
  p_conn : conn;
  p_addr : addr;
  p_user : value
}.

#[global] Instance participant_eq_dec : EqDecision participant.
Proof. solve_decision. Defined.

(** A reassembly buffer [{'parts': {idx: bytes}, 'total': int, 'ts': float}]. *)
Record entry := Entry {
  parts : gmap Z (list byte);
  total : Z;
  ts : Q
}.

Record state := State {
  meet_general_clients : list (value * list participant);
  meet_video_addrs : list (value * gset addr);
  meet_audio_addrs : list (value * gset addr);
  udp_to_meet : gmap addr value;
  udp_to_user : gmap addr value;
  video_reassembly : gmap (addr * Z) entry
}.

Definition initial_state : state :=
  {| meet_general_clients := []; meet_video_addrs := []; meet_audio_addrs := [];
     udp_to_meet := ∅; udp_to_user := ∅; video_reassembly := ∅ |}.

Definition with_reassembly (st : state) (m : gmap (addr * Z) entry) : state :=
  {| meet_general_clients := meet_general_clients st;
     meet_video_addrs := meet_video_addrs st;
     meet_audio_addrs := meet_audio_addrs st;
     udp_to_meet := udp_to_meet st;
     udp_to_user := udp_to_user st;
     video_reassembly := m |}.

(** The time source: [readings n] is what the [n]-th call of [time.time()]
    returns, [reads] counts the calls made so far. *)
Record clock := Clock {
  readings : nat → Q;
  reads : nat
}.

Definition time_time (clk : clock) : Q * clock :=
  (readings clk (reads clk),
   {| readings := readings clk; reads := S (reads clk) |}).

(** [int(x)] on a float: truncation towards zero. *)
Definition py_int (x : Q) : Z :=
  if Qle_bool 0 x then Qfloor x else Qceiling x.

(** [len(b)] *)
Definition len {A} (l : list A) : Z := Z.of_nat (length l).

(** [data[start:stop]] for [0 <= start <= stop]. *)
Definition py_slice (data : list byte) (start stop : Z) : list byte :=
  take (Z.to_nat (stop - start)) (drop (Z.to_nat start) data).

(** [range(n)] *)
Definition range (n : Z) : list Z := seqZ 0 n.

(** ** Fragmentation

    The loop [for idx in range(total)] that the sender ([client.py],
    [send_camera_loop] and [send_screen_loop]) and the relay
    ([video_udp_listener]) both run over a byte buffer: slice, pack the
    header, send [hdr + part].  [struct.pack] is outside the [try] around
    [sendto], so a [struct.error] leaves the loop; the boolean tells
    whether that happened. *)
Fixpoint fragment_loop (data : list byte) (frame_id total : Z) (idxs : list Z)
  : list (list byte) * bool :=
  match idxs with
  | [] => ([], false)
  | idx :: rest =>
      let start := idx * MAX_UDP_PAYLOAD in
      let part := py_slice data start (start + MAX_UDP_PAYLOAD) in
      match pack_video_hdr frame_id total idx with
      | None => ([], true)
      | Some hdr =>
          let '(pkts, raised) := fragment_loop data frame_id total rest in
          ((hdr ++ part) :: pkts, raised)
      end
  end.

(** [total = (len(data) + max_payload - 1) // max_payload] *)
Definition fragment_count (data : list byte) : Z :=
  (len data + MAX_UDP_PAYLOAD - 1) / MAX_UDP_PAYLOAD.

Definition fragment (frame_id : Z) (data : list byte) : list (list byte) * bool :=
  let total := fragment_count data in
  fragment_loop data frame_id total (range total).

(** The sender's frame counter: [fid = (fid + 1) & 0xFFFFFFFF]. *)
Definition next_fid (fid : Z) : Z := Z.land (fid + 1) 0xFFFFFFFF.

(** One pass of the sender loop over the pickled frame [data]: the new
    counter and the datagrams handed to [sendto]. *)
Definition client_send_frame (fid : Z) (data : list byte) : Z * (list (list byte) * bool) :=
  let fid' := next_fid fid in (fid', fragment fid' data).

(** ** Session lookup used by the video relay *)

(** [any(a[0] == ip for a in addrs)] *)
Definition has_ip (ip : string) (addrs : gset addr) : bool :=
  bool_decide (Exists (λ a : addr, a.1 = ip) (elements addrs)).

(** The [for mid, addrs in meet_video_addrs.items()] loop with its
    [break]: the first meeting, in insertion order, that holds an address
    with the sender's IP. *)
Fixpoint first_meeting_with_ip (ip : string) (items : list (value * gset addr))
  : option value :=
  match items with
  | [] => None
  | (mid, addrs) :: rest =>
      if has_ip ip addrs then Some mid else first_meeting_with_ip ip rest
  end.

(** Lines 183-191 of [video_udp_listener]: exact lookup in [udp_to_meet],
    then the IP-only scan when that gave nothing truthy.  The result is the
    final value of [meet] ([VNone] when [udp_to_meet.get] found nothing and
    no meeting matched). *)
Definition lookup_meeting (st : state) (sender : addr) : value :=
  let meet := default VNone (udp_to_meet st !! sender) in
  if truthy meet then meet
  else default meet (first_meeting_with_ip sender.1 (meet_video_addrs st)).

(** ** Video relay *)

(** A call [udp_sock.sendto(data, peer)]. *)
Definition datagram : Type := list byte * addr.

(** [frame_id_out = int(time.time() * 1000) & 0xFFFFFFFF] *)
Definition frame_id_out (t : Q) : Z := Z.land (py_int (t * 1000)%Q) 0xFFFFFFFF.

(** The [for peer in peers] loop (lines 197-211).  Returns the [sendto]
    calls made, the clock, and whether a [struct.error] ended the loop. *)
Fixpoint forward_video (payload_bytes : list byte) (sender : addr)
    (peers : list addr) (clk : clock) : list datagram * clock * bool :=
  match peers with
  | [] => ([], clk, false)
  | peer :: rest =>
      if decide (peer = sender) then forward_video payload_bytes sender rest clk
      else
        let total := fragment_count payload_bytes in
        let '(t, clk1) := time_time clk in
        let '(pkts, raised) :=
          fragment_loop payload_bytes (frame_id_out t) total (range total) in
        let sent := (λ p, (p, peer)) <$> pkts in
        if raised then (sent, clk1, true)
        else
          let '(more, clk2, r) := forward_video payload_bytes sender rest clk1 in
          (sent ++ more, clk2, r)
  end.

(** What one iteration of the [while running] loop of
    [video_udp_listener] did. *)
Record video_result := VideoResult {
  vr_state : state;
  vr_clock : clock;
  (** [(key, payload_bytes)] when the buffer of [key] completed *)
  vr_emitted : option (addr * Z * list byte);
  (** the [sendto] calls, in order *)
  vr_sent : list datagram;
  (** an exception reached the outer [except] *)
  vr_raised : bool
}.

(** Lines 182-211, after [payload_bytes] has been rebuilt and the buffer
    deleted. *)
Definition relay_video (key : addr * Z) (payload_bytes : list byte)
    (sender : addr) (clk : clock) (st : state) : video_result :=
  let meet := lookup_meeting st sender in
  if negb (truthy meet)
  then VideoResult st clk (Some (key, payload_bytes)) [] false
  else
    let peers := default ∅ (dict_get meet (meet_video_addrs st)) in
    let '(sent, clk', raised) :=
      forward_video payload_bytes sender (elements peers) clk in
    VideoResult st clk' (Some (key, payload_bytes)) sent raised.

(** Lines 172-177: fetch or create the buffer of [key], store the
    fragment, refresh the timestamp.  The buffer is a mutable object held
    by [video_reassembly]; the caller writes the result back. *)
Definition buffer_fragment (key : addr * Z) (total_parts part_idx : Z)
    (payload : list byte) (clk : clock) (st : state) : entry * clock :=
  let '(entry0, clk0) :=
    match video_reassembly st !! key with
    | Some e => (e, clk)
    | None =>
        let '(t, clk') := time_time clk in
        ({| parts := ∅; total := total_parts; ts := t |}, clk')
    end in
  let '(t, clk1) := time_time clk0 in
  ({| parts := <[part_idx := payload]> (parts entry0);
      total := total entry0; ts := t |}, clk1).

(** [len(entry['parts']) == entry['total']] *)
Definition complete (e : entry) : bool :=
  bool_decide (Z.of_nat (size (parts e)) = total e).

(** Lines 170-211: what the listener does with a datagram whose header
    unpacked to [(frame_id, total_parts, part_idx)]. *)
Definition process_fragment (frame_id total_parts part_idx : Z)
    (payload : list byte) (sender : addr) (clk : clock) (st : state)
  : video_result :=
  let key := (sender, frame_id) in
  let '(entry1, clk1) := buffer_fragment key total_parts part_idx payload clk st in
  let st1 := with_reassembly st (<[key := entry1]> (video_reassembly st)) in
  if complete entry1
  then
    match mapM (λ i, parts entry1 !! i) (range (total entry1)) with
    | None => VideoResult st1 clk1 None [] true
    | Some ps =>
        let payload_bytes := concat ps in
        let st2 := with_reassembly st1 (delete key (video_reassembly st1)) in
        relay_video key payload_bytes sender clk1 st2
    end
  else VideoResult st1 clk1 None [] false.

(** One iteration of [video_udp_listener] on the datagram [(pkt, sender)]
    returned by [recvfrom]. *)
Definition video_udp_listener (pkt : list byte) (sender : addr)
    (clk : clock) (st : state) : video_result :=
  if bool_decide (pkt = []) || (len pkt <? VIDEO_HDR_SIZE)
  then VideoResult st clk None [] false
  else
    let hdr := take (Z.to_nat VIDEO_HDR_SIZE) pkt in
    let payload := drop (Z.to_nat VIDEO_HDR_SIZE) pkt in
    match unpack_video_hdr hdr with
    | None => VideoResult st clk None [] true
    | Some (frame_id, total_parts, part_idx) =>
        process_fragment frame_id total_parts part_idx payload sender clk st
    end.

(** ** Reassembly sweeper *)

(** [now - v['ts'] > FRAME_TTL] *)
Definition expired (now : Q) (e : entry) : bool :=
  negb (Qle_bool (now - ts e)%Q FRAME_TTL).

(** One pass of the [while running] loop of [cleanup_old_reassembly], at
    the reading [now] of the clock. *)
Definition cleanup_old_reassembly (now : Q) (st : state) : state :=
  let to_del :=
    (filter (λ kv, expired now kv.2 = true) (map_to_list (video_reassembly st))).*1 in
  with_reassembly st (foldr delete (video_reassembly st) to_del).

(** ** Audio relay *)

(** One iteration of [audio_udp_listener] on the datagram [(pkt, sender)]
    returned by [recvfrom]: the [sendto] calls made.  The scan over
    [meet_audio_addrs.items()] has no [break]. *)
Definition audio_udp_listener (pkt : list byte) (sender : addr) (st : state)
  : list datagram :=
  if bool_decide (pkt = []) then []
  else
    '(mid, addrs) ← meet_audio_addrs st;
    if has_ip sender.1 addrs
    then (λ peer, (pkt, peer)) <$> filter (λ peer, peer ≠ sender) (elements addrs)
    else [].

(** ** Session registry *)

(** The registration block of [handle_general] (lines 87-94), under
    [dict_lock]. *)
Definition register (c : conn) (a : addr)
    (username meet_id vid_port aud_port : value) (st : state) : state :=
  let client_ip := a.1 in
  let clients :=
    dict_set meet_id
      (default [] (dict_get meet_id (meet_general_clients st))
         ++ [Participant c a username])
      (meet_general_clients st) in
  let video :=
    if truthy vid_port
    then dict_set meet_id
           (default ∅ (dict_get meet_id (meet_video_addrs st)) ∪ {[ (client_ip, vid_port) ]})
           (meet_video_addrs st)
    else meet_video_addrs st in
  let to_meet :=
    if truthy vid_port
    then <[(client_ip, vid_port) := meet_id]> (udp_to_meet st)
    else udp_to_meet st in
  let to_user :=
    if truthy vid_port
    then <[(client_ip, vid_port) := username]> (udp_to_user st)
    else udp_to_user st in
  let audio :=
    if truthy aud_port
    then dict_set meet_id
           (default ∅ (dict_get meet_id (meet_audio_addrs st)) ∪ {[ (client_ip, aud_port) ]})
           (meet_audio_addrs st)
    else meet_audio_addrs st in
  {| meet_general_clients := clients; meet_video_addrs := video;
     meet_audio_addrs := audio; udp_to_meet := to_meet; udp_to_user := to_user;
     video_reassembly := video_reassembly st |}.

(** [to_keep = {a for a in addrs[meet_id] if a[0] != client_ip}] followed
    by the replacement or the deletion of the meeting's set. *)
Definition drop_ip (meet_id : value) (client_ip : string)
    (d : list (value * gset addr)) : list (value * gset addr) :=
  match dict_get meet_id d with
  | None => d
  | Some addrs =>
      let to_keep := filter (λ a : addr, a.1 ≠ client_ip) addrs in
      if bool_decide (to_keep = ∅) then dict_del meet_id d
      else dict_set meet_id to_keep d
  end.

(** The [finally] block of [handle_general] (lines 130-153), under
    [dict_lock], for the handler of the connection from [a] whose
    [meet_id] variable holds [meet_id]; [client_ip] is [a[0]]. *)
Definition deregister (meet_id : value) (a : addr) (st : state) : state :=
  let client_ip := a.1 in
  let clients :=
    match dict_get meet_id (meet_general_clients st) with
    | None => meet_general_clients st
    | Some l =>
        let l' := filter (λ x, p_addr x ≠ a) l in
        let d := dict_set meet_id l' (meet_general_clients st) in
        if bool_decide (l' = []) then dict_del meet_id d else d
    end in
  if truthy meet_id
  then
    {| meet_general_clients := clients;
       meet_video_addrs := drop_ip meet_id client_ip (meet_video_addrs st);
       meet_audio_addrs := drop_ip meet_id client_ip (meet_audio_addrs st);
       udp_to_meet := filter (λ kv, kv.1.1 ≠ client_ip) (udp_to_meet st);
       udp_to_user :=
         filter (λ kv, ¬ (kv.1.1 = client_ip ∧ is_Some (udp_to_meet st !! kv.1)))
                (udp_to_user st);
       video_reassembly := video_reassembly st |}
  else
    {| meet_general_clients := clients;
       meet_video_addrs := meet_video_addrs st;
       meet_audio_addrs := meet_audio_addrs st;
       udp_to_meet := udp_to_meet st;
       udp_to_user := udp_to_user st;
       video_reassembly := video_reassembly st |}.

(** ** Control channel *)

(** The TCP side of the world: what has been written to each connection,
    the connections on which a send raises, and the closed ones. *)
Record net := Net {
  outbox : gmap conn (list byte);
  broken : gset conn;
  closed : gset conn
}.

(** [conn.sendall(data)]; the boolean tells whether it raised. *)
Definition sendall (c : conn) (data : list byte) (nt : net) : net * bool :=
  if bool_decide (c ∈ broken nt) then (nt, true)
  else ({| outbox := <[c := default [] (outbox nt !! c) ++ data]> (outbox nt);
           broken := broken nt; closed := closed nt |}, false).

(** [conn.close()] *)
Definition close (c : conn) (nt : net) : net :=
  {| outbox := outbox nt; broken := broken nt; closed := {[c]} ∪ closed nt |}.

(** [recv_exact(conn, n)] on a connection whose peer will still send
    [input] and then close: the bytes returned ([None] at end of stream)
    and what is left of the stream. *)
Definition recv_exact (input : list byte) (n : Z) : option (list byte) * list byte :=
  if n <=? 0 then (Some [], input)
  else if n <=? len input
       then (Some (take (Z.to_nat n) input), drop (Z.to_nat n) input)
       else (None, []).

(** The result of a call that may raise. *)
Inductive outcome (A : Type) :=
| Raise
| Ret (x : A).
Arguments Raise {A}.
Arguments Ret {A} x.

Section pickle.
(** [pickle.loads] ([None]: it raises) and [pickle.dumps]. *)
Variable pickle_loads : list byte → option pyobj.
Variable pickle_dumps : pyobj → list byte.

(** [recv_pickle_prefixed(conn)]; Python's [None] is [PyVal VNone]. *)
Definition recv_pickle_prefixed (input : list byte) : outcome pyobj * list byte :=
  match recv_exact input 4 with
  | (None, rest) | (Some [], rest) => (Ret (PyVal VNone), rest)
  | (Some hdr, rest) =>
      match unpack_u32 hdr with
      | None => (Raise, rest)
      | Some ln =>
          match recv_exact rest ln with
          | (None, rest') | (Some [], rest') => (Ret (PyVal VNone), rest')
          | (Some payload, rest') =>
              match pickle_loads payload with
              | None => (Raise, rest')
              | Some o => (Ret o, rest')
              end
          end
      end
  end.

(** The bytes [struct.pack(">L", len(data)) + data] of a framed message. *)
Definition framed (obj : pyobj) : option (list byte) :=
  let data := pickle_dumps obj in
  hdr ← pack_u32 (len data); Some (hdr ++ data).

(** [send_pickle_prefixed(conn, obj)] *)
Definition send_pickle_prefixed (c : conn) (obj : pyobj) (nt : net) : net * bool :=
  match framed obj with
  | None => (nt, true)
  | Some bytes => sendall c bytes nt
  end.

(** Lines 105-110: the header broadcast, each failure swallowed. *)
Fixpoint broadcast_msg (a : addr) (msg : pyobj) (peers : list participant)
    (nt : net) : net :=
  match peers with
  | [] => nt
  | p :: rest =>
      let nt' := if decide (p_addr p ≠ a)
                 then (send_pickle_prefixed (p_conn p) msg nt).1 else nt in
      broadcast_msg a msg rest nt'
  end.

(** Lines 121-126: one chunk to every peer, each failure swallowed. *)
Fixpoint broadcast_chunk (a : addr) (chunk : list byte) (peers : list participant)
    (nt : net) : net :=
  match peers with
  | [] => nt
  | p :: rest =>
      let nt' := if decide (p_addr p ≠ a)
                 then (sendall (p_conn p) chunk nt).1 else nt in
      broadcast_chunk a chunk rest nt'
  end.

(** Lines 115-126: the [while remaining > 0] loop.  Every turn lowers
    [remaining] by at least one, so [fuel = remaining] turns are enough;
    [None] is returned when the fuel runs out before the loop ends. *)
Fixpoint relay_file (fuel : nat) (a : addr) (peers : list participant)
    (remaining : Z) (input : list byte) (nt : net) : option (list byte * net) :=
  if remaining <=? 0 then Some (input, nt)
  else
    match fuel with
    | O => None
    | S fuel' =>
        let chunk_size := Z.min 1024 remaining in
        match recv_exact input chunk_size with
        | (None, input') | (Some [], input') => Some (input', nt)
        | (Some chunk, input') =>
            relay_file fuel' a peers (remaining - len chunk) input'
                       (broadcast_chunk a chunk peers nt)
        end
    end.

(** The body of the relay loop (lines 103-126) for a message [msg] that is
    not [None], in the handler of the connection from [a] registered in
    [meet_id].  Returns what is left of the input, the network, and whether
    an exception left the loop. *)
Definition relay_message (meet_id : value) (a : addr) (msg : pyobj)
    (input : list byte) (st : state) (nt : net) : option (list byte * net * bool) :=
  let peers := default [] (dict_get meet_id (meet_general_clients st)) in
  let nt1 := broadcast_msg a msg peers nt in
  match obj_get msg "msg_type" VNone with
  | None => Some (input, nt1, true)
  | Some ty =>
      if bool_decide (ty = VStr "file")
      then
        match obj_get msg "size" (VInt 0) with
        | Some (VInt size) =>
            '(input', nt2) ← relay_file (Z.to_nat size) a peers size input nt1;
            Some (input', nt2, false)
        | _ => Some (input, nt1, true)
        end
      else Some (input, nt1, false)
  end.

(** The [while running] loop of lines 99-126. *)
Fixpoint relay_loop (fuel : nat) (meet_id : value) (a : addr)
    (input : list byte) (st : state) (nt : net) : option (list byte * net) :=
  match fuel with
  | O => None
  | S fuel' =>
      match recv_pickle_prefixed input with
      | (Raise, input') => Some (input', nt)
      | (Ret msg, input') =>
          if bool_decide (msg = PyVal VNone) then Some (input', nt)
          else
            '(input'', nt', raised) ← relay_message meet_id a msg input' st nt;
            if (raised : bool) then Some (input'', nt')
            else relay_loop fuel' meet_id a input'' st nt'
      end
  end.

(** What the handshake part of [handle_general] (lines 76-96) did. *)
Inductive handshake_result :=
| Rejected (nt : net) (rest : list byte)
| Accepted (username meet_id vid_port aud_port : value) (st1 : state)
           (rest : list byte).

(** Lines 76-96: read the first message and register.  [Rejected] covers
    the early [return] (after [conn.close()]) and the exceptions; the
    registry is then as before and [meet_id] is still [None]. *)
Definition handshake (c : conn) (a : addr) (input : list byte)
    (st : state) (nt : net) : handshake_result :=
  match recv_pickle_prefixed input with
  | (Raise, rest) => Rejected nt rest
  | (Ret info, rest) =>
      if negb (obj_truthy info) then Rejected (close c nt) rest
      else
        match obj_get info "username" VNone, obj_get info "meet_id" VNone,
              obj_get info "video_udp_port" VNone, obj_get info "audio_udp_port" VNone with
        | Some username, Some meet_id, Some vid_port, Some aud_port =>
            Accepted username meet_id vid_port aud_port
                     (register c a username meet_id vid_port aud_port st) rest
        | _, _, _, _ => Rejected nt rest
        end
  end.

(** [handle_general(conn, addr)] run to its end on a connection whose peer
    sends [input] and closes, with no other handler running in between:
    handshake, relay loop, and the [finally] block (deregistration with the
    final value of [meet_id], then [conn.close()]).  The result is the
    registry, the network and the unread input. *)
Definition handle_general (fuel : nat) (c : conn) (a : addr) (input : list byte)
    (st : state) (nt : net) : option (state * net * list byte) :=
  match handshake c a input st nt with
  | Rejected nt' rest => Some (deregister VNone a st, close c nt', rest)
  | Accepted username meet_id vid_port aud_port st1 rest =>
      '(rest', nt') ← relay_loop fuel meet_id a rest st1 nt;
      Some (deregister meet_id a st1, close c nt', rest')
  end.

End pickle.

End Server.

(* ===================================================================== *)
(** ** Fragmentation: the datagrams of a buffer and their payloads *)
(* ===================================================================== *)

Module FragmentProps.
Import Struct Py Server.

(** The [idx]-th slice [data[idx*max : idx*max + max]]. *)
Definition part_of (data : list byte) (idx : Z) : list byte :=
  py_slice data (idx * MAX_UDP_PAYLOAD) (idx * MAX_UDP_PAYLOAD + MAX_UDP_PAYLOAD).

(** The payload a receiver cuts out of a datagram: [pkt[VIDEO_HDR_SIZE:]]. *)
Definition payload_of (pkt : list byte) : list byte :=
  drop (Z.to_nat VIDEO_HDR_SIZE) pkt.

Lemma part_of_nat data (i : nat) :
  part_of data (Z.of_nat i)
  = take (Z.to_nat MAX_UDP_PAYLOAD) (drop (i * Z.to_nat MAX_UDP_PAYLOAD) data).
Proof.
  unfold part_of, py_slice, MAX_UDP_PAYLOAD. f_equal; [|f_equal]; lia.
Qed.

Lemma range_nat (n : Z) : range n = Z.of_nat <$> seq 0 (Z.to_nat n).
Proof.
  unfold range, seqZ. apply list_fmap_ext. intros; lia.
Qed.

Lemma concat_slices (m : nat) : ∀ (n : nat) (data : list byte),
  (length data ≤ n * m)%nat →
  concat ((λ i, take m (drop (i * m) data)) <$> seq 0 n) = data.
Proof.
  induction n as [|n IH]; intros data Hlen; simpl.
  - destruct data; [done | simpl in Hlen; lia].
  - rewrite <- seq_shift, <- list_fmap_compose.
    transitivity (take m data ++ drop m data); [|apply take_drop].
    f_equal.
    etransitivity; [|apply (IH (drop m data)); rewrite length_drop; lia].
    f_equal. apply list_fmap_ext. intros _ i _. simpl.
    by rewrite drop_drop.
Qed.

Lemma fragment_count_bounds data :
  0 ≤ fragment_count data ∧
  len data ≤ fragment_count data * MAX_UDP_PAYLOAD ∧
  (fragment_count data - 1) * MAX_UDP_PAYLOAD < len data + (if decide (len data = 0) then 1 else 0).
Proof.
  unfold fragment_count, MAX_UDP_PAYLOAD, len.
  pose proof (Z.div_mod (Z.of_nat (length data) + 60000 - 1) 60000 ltac:(lia)).
  pose proof (Z.mod_pos_bound (Z.of_nat (length data) + 60000 - 1) 60000 ltac:(lia)).
  case_decide; lia.
Qed.

(** The slices of a buffer, in index order, concatenate to the buffer. *)
Lemma concat_parts data :
  concat (part_of data <$> range (fragment_count data)) = data.
Proof.
  rewrite range_nat, <- list_fmap_compose.
  erewrite list_fmap_ext; [apply (concat_slices (Z.to_nat MAX_UDP_PAYLOAD))|].
  - pose proof (fragment_count_bounds data) as (H0 & H1 & _).
    unfold len, MAX_UDP_PAYLOAD in *. lia.
  - intros _ i _. simpl. apply part_of_nat.
Qed.

Lemma payload_of_packed f t i hdr part :
  pack_video_hdr f t i = Some hdr → payload_of (hdr ++ part) = part.
Proof.
  intros [Hl _]%unpack_pack_video_hdr. unfold payload_of, VIDEO_HDR_SIZE.
  by apply drop_app_length'.
Qed.

(** A datagram of the loop: its header packs [(frame_id, total, idx)] and
    its payload is the [idx]-th slice. *)
Definition fragment_of (data : list byte) (frame_id total idx : Z)
    (pkt : list byte) : Prop :=
  ∃ hdr, pack_video_hdr frame_id total idx = Some hdr ∧ pkt = hdr ++ part_of data idx.

Lemma fragment_loop_ok data fid total idxs :
  0 ≤ fid < 2 ^ 32 → 0 ≤ total < 2 ^ 16 → Forall (λ i, 0 ≤ i < 2 ^ 16) idxs →
  ∃ pkts, fragment_loop data fid total idxs = (pkts, false)
          ∧ Forall2 (fragment_of data fid total) idxs pkts.
Proof.
  intros Hf Ht. induction 1 as [|idx idxs Hi _ (pkts & E & IH)]; simpl.
  - eexists; split; [done | constructor].
  - destruct (pack_video_hdr_Some fid total idx Hf Ht Hi) as [hdr Hh].
    rewrite Hh, E. eexists; split; [done|].
    constructor; [|done]. by exists hdr.
Qed.

Lemma range_bounds n i : i ∈ range n → 0 ≤ i < n.
Proof. unfold range. rewrite elem_of_seqZ. lia. Qed.

(** When the fragment count fits the 16-bit header field, the loop raises
    nothing and yields one datagram per index of [range(total)]. *)
Lemma fragment_ok fid data :
  0 ≤ fid < 2 ^ 32 → fragment_count data < 2 ^ 16 →
  ∃ pkts, fragment fid data = (pkts, false)
          ∧ Forall2 (fragment_of data fid (fragment_count data))
                    (range (fragment_count data)) pkts.
Proof.
  intros Hf Ht. unfold fragment. apply fragment_loop_ok; [done| |].
  - pose proof (fragment_count_bounds data). lia.
  - apply Forall_forall. intros i Hi%range_bounds. lia.
Qed.

Lemma fragments_payloads data fid total idxs pkts :
  Forall2 (fragment_of data fid total) idxs pkts →
  payload_of <$> pkts = part_of data <$> idxs.
Proof.
  induction 1 as [|i pkt idxs pkts (hdr & Hh & ->) _ IH]; simpl; [done|].
  f_equal; [|done]. by eapply payload_of_packed.
Qed.

End FragmentProps.

(* ===================================================================== *)
(** ** The listener and the sweeper as a system *)
(* ===================================================================== *)

Module Reassembly.
Import Struct Py Server FragmentProps.

(** What the reassembly side of the server reacts to: a datagram returned
    by [recvfrom] in the video listener, or a pass of the sweeper. *)
Inductive event :=
| Packet (pkt : list byte) (sender : addr)
| Sweep.

(** The reassembly key [(sender, frame_id)] a datagram is filed under;
    [None] for a datagram the listener discards. *)
Definition packet_key (pkt : list byte) (sender : addr) : option (addr * Z) :=
  if bool_decide (pkt = []) || (len pkt <? VIDEO_HDR_SIZE) then None
  else match unpack_video_hdr (take (Z.to_nat VIDEO_HDR_SIZE) pkt) with
       | Some (frame_id, _, _) => Some (sender, frame_id)
       | None => None
       end.

Definition event_key (ev : event) : option (addr * Z) :=
  match ev with
  | Packet pkt sender => packet_key pkt sender
  | Sweep => None
  end.

(** One event; the sweeper reads the same clock as the listener. *)
Definition step (ev : event) (clk : clock) (st : state) : video_result :=
  match ev with
  | Packet pkt sender => video_udp_listener pkt sender clk st
  | Sweep =>
      let '(now, clk') := time_time clk in
      VideoResult (cleanup_old_reassembly now st) clk' None [] false
  end.

(** The results of a sequence of events, one per event. *)
Fixpoint run (trace : list event) (clk : clock) (st : state) : list video_result :=
  match trace with
  | [] => []
  | ev :: rest =>
      let r := step ev clk st in
      r :: run rest (vr_clock r) (vr_state r)
  end.

(** What the events filed under [key] emitted, in arrival order. *)
Fixpoint emitted_at (key : addr * Z) (trace : list event) (rs : list video_result)
  : list (option (addr * Z * list byte)) :=
  match trace, rs with
  | ev :: trace', r :: rs' =>
      (if bool_decide (event_key ev = Some key) then [vr_emitted r] else [])
        ++ emitted_at key trace' rs'
  | _, _ => []
  end.

(** The datagrams of [trace] filed under [key], in arrival order. *)
Definition packets_of (key : addr * Z) (trace : list event) : list (list byte) :=
  omap (λ ev, match ev with
              | Packet pkt sender =>
                  if bool_decide (packet_key pkt sender = Some key) then Some pkt else None
              | Sweep => None
              end) trace.

(** All readings of the clock lie within one TTL window. *)
Definition within_ttl (clk : clock) : Prop :=
  ∀ i j, (readings clk j - readings clk i <= FRAME_TTL)%Q.

(** The buffer of a frame of which the fragments [got] have arrived. *)
Definition parts_of (data : list byte) (got : list Z) : gmap Z (list byte) :=
  list_to_map ((λ i, (i, part_of data i)) <$> got).

Lemma parts_of_lookup data got i :
  parts_of data got !! i = if decide (i ∈ got) then Some (part_of data i) else None.
Proof.
  unfold parts_of. induction got as [|j got IH].
  - rewrite fmap_nil, list_to_map_nil, lookup_empty.
    case_decide as H; [by apply elem_of_nil in H | done].
  - rewrite fmap_cons, list_to_map_cons.
    destruct (decide (j = i)) as [->|Hne].
    + rewrite lookup_insert_eq. destruct (decide (i ∈ i :: got)) as [|H]; [done|].
      exfalso. apply H. left.
    + rewrite lookup_insert_ne, IH by done.
      destruct (decide (i ∈ got)) as [H1|H1].
      * by rewrite decide_True by (by right).
      * rewrite decide_False; [done|]. by intros [->|?]%elem_of_cons.
Qed.

Lemma parts_of_size data got : NoDup got → size (parts_of data got) = length got.
Proof.
  intros Hnd. unfold parts_of. rewrite map_size_list_to_map.
  - by rewrite length_fmap.
  - rewrite <- list_fmap_compose.
    by rewrite (list_fmap_ext _ id got), list_fmap_id.
Qed.

(** A complete buffer joins to the original bytes. *)
Lemma parts_of_join data got :
  got ≡ₚ range (fragment_count data) →
  mapM (λ i, parts_of data got !! i) (range (fragment_count data))
  = Some (part_of data <$> range (fragment_count data)).
Proof.
  intros Hp. apply mapM_Some, Forall2_fmap_r, Forall_Forall2_diag, Forall_forall.
  intros i Hi. rewrite parts_of_lookup, decide_True; [done|]. by rewrite Hp.
Qed.

(** *** The listener on a datagram built by [struct.pack] *)

Lemma packed_not_short f t i hdr payload :
  pack_video_hdr f t i = Some hdr →
  bool_decide (hdr ++ payload = []) || (len (hdr ++ payload) <? VIDEO_HDR_SIZE) = false.
Proof.
  intros [Hl _]%unpack_pack_video_hdr.
  apply orb_false_iff. split.
  - apply bool_decide_eq_false. by destruct hdr.
  - apply Z.ltb_ge. unfold len, VIDEO_HDR_SIZE. rewrite length_app. lia.
Qed.

Lemma packed_take f t i hdr payload :
  pack_video_hdr f t i = Some hdr →
  take (Z.to_nat VIDEO_HDR_SIZE) (hdr ++ payload) = hdr.
Proof.
  intros [Hl _]%unpack_pack_video_hdr. by apply take_app_length'.
Qed.

Lemma listener_packed f t i hdr payload sender clk st :
  pack_video_hdr f t i = Some hdr →
  video_udp_listener (hdr ++ payload) sender clk st
  = process_fragment f t i payload sender clk st.
Proof.
  intros Hp. unfold video_udp_listener.
  rewrite (packed_not_short _ _ _ _ _ Hp), (packed_take _ _ _ _ _ Hp).
  pose proof (unpack_pack_video_hdr _ _ _ _ Hp) as [_ ->].
  by rewrite (payload_of_packed _ _ _ _ _ Hp : drop _ _ = _).
Qed.

Lemma packet_key_packed f t i hdr payload sender :
  pack_video_hdr f t i = Some hdr →
  packet_key (hdr ++ payload) sender = Some (sender, f).
Proof.
  intros Hp. unfold packet_key.
  rewrite (packed_not_short _ _ _ _ _ Hp), (packed_take _ _ _ _ _ Hp).
  by pose proof (unpack_pack_video_hdr _ _ _ _ Hp) as [_ ->].
Qed.

Lemma packet_key_sender pkt sender key :
  packet_key pkt sender = Some key → key.1 = sender.
Proof.
  unfold packet_key. destruct (_ || _); [done|].
  destruct (unpack_video_hdr _) as [[[??]?]|]; [|done]. by intros [= <-].
Qed.

(** *** What an iteration leaves untouched *)

Lemma time_time_readings clk : readings (time_time clk).2 = readings clk.
Proof. done. Qed.

Lemma forward_video_readings payload sender peers clk :
  readings (forward_video payload sender peers clk).1.2 = readings clk.
Proof.
  revert clk. induction peers as [|peer peers IH]; intros clk; simpl; [done|].
  case_decide; [apply IH|].
  destruct (fragment_loop _ _ _ _) as [pkts raised].
  destruct raised; simpl; [done|].
  specialize (IH {| readings := readings clk; reads := S (reads clk) |}).
  destruct (forward_video _ _ _ _) as [[more clk2] r]. simpl in *. done.
Qed.

Lemma relay_video_spec key payload sender clk st :
  let r := relay_video key payload sender clk st in
  vr_state r = st ∧ vr_emitted r = Some (key, payload)
  ∧ readings (vr_clock r) = readings clk.
Proof.
  unfold relay_video. destruct (negb _); simpl; [done|].
  pose proof (forward_video_readings payload sender
    (elements (default ∅ (dict_get (lookup_meeting st sender) (meet_video_addrs st)))) clk) as H.
  destruct (forward_video _ _ _ _) as [[sent clk'] raised]. done.
Qed.

Lemma buffer_fragment_readings key t i payload clk st :
  readings (buffer_fragment key t i payload clk st).2 = readings clk.
Proof. unfold buffer_fragment. by destruct (video_reassembly st !! key). Qed.

Lemma buffer_fragment_ts key t i payload clk st :
  ∃ n, ts (buffer_fragment key t i payload clk st).1 = readings clk n.
Proof. unfold buffer_fragment. destruct (video_reassembly st !! key); simpl; eauto. Qed.

(** The listener only touches the buffer of the datagram's own key, only
    emits under that key, and only reads the clock. *)
Lemma process_fragment_frame f t i payload sender clk st :
  let r := process_fragment f t i payload sender clk st in
  (∀ k, k ≠ (sender, f) →
        video_reassembly (vr_state r) !! k = video_reassembly st !! k)
  ∧ (∀ k p, vr_emitted r = Some (k, p) → k = (sender, f))
  ∧ readings (vr_clock r) = readings clk.
Proof.
  unfold process_fragment.
  pose proof (buffer_fragment_readings (sender, f) t i payload clk st) as Hrd.
  destruct (buffer_fragment _ _ _ _ _ _) as [entry1 clk1]. simpl in Hrd.
  destruct (complete entry1).
  - destruct (mapM _ _) as [ps|]; simpl.
    + match goal with |- context [relay_video ?k ?p ?s ?c ?st'] =>
        pose proof (relay_video_spec k p s c st') as (-> & -> & ->) end.
      simpl. split_and!; [|by intros ? ? [= <- _]|done].
      intros k Hk. by rewrite lookup_delete_ne, lookup_insert_ne.
    + split_and!; [|done|done]. intros k Hk. by rewrite lookup_insert_ne.
  - simpl. split_and!; [|done|done]. intros k Hk. by rewrite lookup_insert_ne.
Qed.

Lemma listener_frame pkt sender clk st :
  let r := video_udp_listener pkt sender clk st in
  (∀ k, packet_key pkt sender ≠ Some k →
        video_reassembly (vr_state r) !! k = video_reassembly st !! k)
  ∧ (∀ k p, vr_emitted r = Some (k, p) → packet_key pkt sender = Some k)
  ∧ readings (vr_clock r) = readings clk.
Proof.
  unfold video_udp_listener, packet_key.
  destruct (_ || _); [done|].
  destruct (unpack_video_hdr _) as [[[f t] i]|]; [|done].
  pose proof (process_fragment_frame f t i
    (drop (Z.to_nat VIDEO_HDR_SIZE) pkt) sender clk st) as (H1 & H2 & H3).
  split_and!; [|intros k p Hk; f_equal; symmetry; eauto|done].
  intros k Hk. apply H1. congruence.
Qed.

(** *** The sweeper *)

(** A pass deletes exactly the buffers whose timestamp is more than
    [FRAME_TTL] old and leaves every other buffer as it was. *)
Lemma cleanup_lookup now st k :
  video_reassembly (cleanup_old_reassembly now st) !! k
  = e ← video_reassembly st !! k; if expired now e then None else Some e.
Proof.
  unfold cleanup_old_reassembly. simpl.
  set (to_del := (filter _ _).*1).
  assert (Hin : ∀ k', k' ∈ to_del ↔
            ∃ e, video_reassembly st !! k' = Some e ∧ expired now e = true).
  { intros k'. unfold to_del. rewrite list_elem_of_fmap. split.
    - intros ([k2 e] & -> & [He Hm]%list_elem_of_filter).
      apply elem_of_map_to_list in Hm. eauto.
    - intros (e & Hm & He). exists (k', e). split; [done|].
      apply list_elem_of_filter. split; [done|]. by apply elem_of_map_to_list. }
  destruct (decide (k ∈ to_del)) as [Hk|Hk].
  - rewrite lookup_foldr_delete by done.
    apply Hin in Hk as (e & -> & He). simpl. by rewrite He.
  - rewrite lookup_foldr_delete_not_elem_of by done.
    destruct (video_reassembly st !! k) as [e|] eqn:E; simpl; [|done].
    destruct (expired now e) eqn:He; [|done].
    exfalso. apply Hk, Hin. eauto.
Qed.

Lemma not_expired_within_ttl clk e n :
  within_ttl clk → (∃ m, ts e = readings clk m) → expired (readings clk n) e = false.
Proof.
  intros Hw [m Hm]. unfold expired. apply negb_false_iff, Qle_bool_iff.
  rewrite Hm. apply Hw.
Qed.

(** *** Reassembly of one frame among other traffic *)

Section one_frame.
Variables (data : list byte) (sender : addr) (fid : Z).
(** The datagram that carries fragment [i]. *)
Variable frag : Z → list byte.

Let N := fragment_count data.
Let key : addr * Z := (sender, fid).

Hypothesis frag_ok : ∀ i, i ∈ range N → fragment_of data fid N i (frag i).

(** The state of the frame's buffer when the fragments [got] are in. *)
Definition buffered (got : list Z) (clk : clock) (st : state) : Prop :=
  match got with
  | [] => video_reassembly st !! key = None
  | _ => ∃ t, video_reassembly st !! key
              = Some {| parts := parts_of data got; total := N; ts := t |}
              ∧ ∃ n, t = readings clk n
  end.

Lemma buffer_fragment_buffered got i clk st :
  buffered got clk st →
  ∃ t clk', buffer_fragment key N i (part_of data i) clk st
            = ({| parts := parts_of data (i :: got); total := N; ts := t |}, clk')
            ∧ readings clk' = readings clk ∧ ∃ n, t = readings clk n.
Proof.
  unfold buffered, buffer_fragment. destruct got as [|j got].
  - intros ->. simpl. eauto 10.
  - intros (t & -> & _). simpl. eauto 10.
Qed.

Lemma range_NoDup n : NoDup (range n).
Proof. apply NoDup_seqZ. Qed.

Lemma range_length n : 0 ≤ n → Z.of_nat (length (range n)) = n.
Proof. intros. unfold range. rewrite length_seqZ. lia. Qed.

(** A fragment that does not complete the frame is stored and nothing
    is emitted. *)
Lemma process_fragment_partial got todo i clk st :
  i :: got ++ todo ≡ₚ range N → todo ≠ [] → buffered got clk st →
  let r := process_fragment fid N i (part_of data i) sender clk st in
  vr_emitted r = None ∧ buffered (i :: got) (vr_clock r) (vr_state r)
  ∧ readings (vr_clock r) = readings clk.
Proof.
  intros Hp Htodo Hb. unfold process_fragment. fold key.
  destruct (buffer_fragment_buffered got i clk st Hb) as (t & clk' & -> & Hrd & n & Hn).
  assert (Hnd : NoDup (i :: got ++ todo)) by (rewrite Hp; apply range_NoDup).
  assert (Hlen : Z.of_nat (length (i :: got ++ todo)) = N).
  { rewrite Hp. apply range_length. apply fragment_count_bounds. }
  assert (Hnd' : NoDup (i :: got)).
  { rewrite app_comm_cons in Hnd. by apply NoDup_app in Hnd as (? & _ & _). }
  unfold complete. simpl parts. simpl total.
  rewrite parts_of_size by done. rewrite bool_decide_eq_false_2.
  - simpl. split_and!; [done| |done].
    rewrite lookup_insert_eq. exists t. split; [done|]. exists n. by rewrite Hrd.
  - simpl in *. rewrite length_app in Hlen. destruct todo; [done|]. simpl in Hlen. lia.
Qed.

(** The fragment that completes the frame: the original bytes are emitted
    and the buffer is gone. *)
Lemma process_fragment_last got i clk st :
  i :: got ≡ₚ range N → buffered got clk st →
  let r := process_fragment fid N i (part_of data i) sender clk st in
  vr_emitted r = Some (key, data) ∧ video_reassembly (vr_state r) !! key = None.
Proof.
  intros Hp Hb. unfold process_fragment. fold key.
  destruct (buffer_fragment_buffered got i clk st Hb) as (t & clk' & -> & Hrd & n & Hn).
  assert (Hnd : NoDup (i :: got)) by (rewrite Hp; apply range_NoDup).
  assert (Hlen : Z.of_nat (length (i :: got)) = N).
  { rewrite Hp. apply range_length. apply fragment_count_bounds. }
  unfold complete. simpl parts. simpl total.
  rewrite parts_of_size by done. rewrite bool_decide_eq_true_2 by done.
  unfold N in *.
  rewrite (parts_of_join data (i :: got) Hp), concat_parts.
  match goal with |- context [relay_video ?k ?p ?s ?c ?st'] =>
    pose proof (relay_video_spec k p s c st') as (-> & -> & _) end.
  split; [done|]. simpl. apply lookup_delete_eq.
Qed.

Lemma buffered_ext got clk st clk' st' :
  video_reassembly st' !! key = video_reassembly st !! key →
  readings clk' = readings clk →
  buffered got clk st → buffered got clk' st'.
Proof. unfold buffered. intros -> ->. done. Qed.

Lemma within_ttl_ext clk clk' :
  readings clk' = readings clk → within_ttl clk → within_ttl clk'.
Proof. unfold within_ttl. by intros ->. Qed.

(** Events filed under other keys, and sweeps inside the TTL window,
    leave the frame's buffer as it is. *)
Lemma step_other got ev clk st :
  event_key ev ≠ Some key → within_ttl clk → buffered got clk st →
  let r := step ev clk st in
  buffered got (vr_clock r) (vr_state r) ∧ readings (vr_clock r) = readings clk.
Proof.
  intros Hk Hw Hb. destruct ev as [pkt s|]; simpl in *.
  - pose proof (listener_frame pkt s clk st) as (H1 & _ & H3).
    split; [|done]. eapply buffered_ext; [by apply H1|done|done].
  - split; [|done]. eapply buffered_ext; [|done|done].
    rewrite cleanup_lookup. destruct got as [|j got]; simpl in Hb.
    + by rewrite Hb.
    + destruct Hb as (t & -> & n & ->). simpl.
      by rewrite not_expired_within_ttl by (simpl; eauto).
Qed.

Lemma emitted_at_quiet trace clk st :
  packets_of key trace = [] → emitted_at key trace (run trace clk st) = [].
Proof.
  revert clk st. induction trace as [|ev trace IH]; intros clk st Hq; [done|].
  simpl. unfold packets_of in Hq. simpl in Hq.
  destruct ev as [pkt s|]; simpl in *.
  - case_bool_decide; [done|]. by apply IH.
  - by apply IH.
Qed.

(** The fragments [todo] still to come arrive in this order, among other
    events: the events of the frame emit nothing until the last one, which
    emits the original bytes. *)
Lemma emitted_at_frame trace : ∀ got todo clk st,
  got ++ todo ≡ₚ range N → todo ≠ [] →
  packets_of key trace = frag <$> todo →
  buffered got clk st → within_ttl clk →
  emitted_at key trace (run trace clk st)
  = replicate (length todo - 1) None ++ [Some (key, data)].
Proof.
  induction trace as [|ev trace IH]; intros got todo clk st Hp Htodo Hpk Hb Hw.
  { destruct todo; [done | discriminate Hpk]. }
  destruct (decide (event_key ev = Some key)) as [Hk|Hk].
  - destruct ev as [pkt s|]; [|done]. simpl in Hk.
    unfold packets_of in Hpk. simpl in Hpk. rewrite bool_decide_eq_true_2 in Hpk by done.
    fold (packets_of key trace) in Hpk.
    destruct todo as [|i todo]; [done|]. injection Hpk as -> Hrest.
    apply packet_key_sender in Hk as Hs. simpl in Hs. subst s.
    assert (Hi : i ∈ range N) by (rewrite <- Hp; set_solver).
    destruct (frag_ok i Hi) as (hdr & Hh & Hf).
    simpl. rewrite bool_decide_eq_true_2 by done.
    rewrite Hf, (listener_packed _ _ _ _ _ _ _ _ Hh). simpl.
    destruct todo as [|j todo].
    + destruct (process_fragment_last got i clk st) as [-> _]; [|done|].
      { by rewrite <- Hp, Permutation_app_comm. }
      by rewrite emitted_at_quiet.
    + destruct (process_fragment_partial got (j :: todo) i clk st) as (-> & Hb' & Hrd);
        [|done|done|].
      { by rewrite <- Hp, Permutation_middle. }
      erewrite (IH (i :: got) (j :: todo)); [| |done|done|done|by eapply within_ttl_ext].
      * simpl. by rewrite Nat.sub_0_r.
      * simpl. by rewrite <- Hp, Permutation_middle.
  - simpl. rewrite bool_decide_eq_false_2 by done. simpl.
    destruct (step_other got ev clk st Hk Hw Hb) as [Hb' Hrd].
    apply (IH got todo); [done|done| |done|by eapply within_ttl_ext].
    rewrite <- Hpk. unfold packets_of. simpl.
    destruct ev as [pkt s|]; [|done]. simpl in Hk.
    by rewrite bool_decide_eq_false_2.
Qed.

End one_frame.

Lemma fragment_loop_inv data fid total idxs pkts :
  fragment_loop data fid total idxs = (pkts, false) →
  Forall2 (fragment_of data fid total) idxs pkts.
Proof.
  revert pkts. induction idxs as [|i idxs IH]; intros pkts; simpl.
  - intros [= <-]. constructor.
  - destruct (pack_video_hdr fid total i) as [hdr|] eqn:Hh; [|done].
    destruct (fragment_loop data fid total idxs) as [pkts' raised].
    intros [= <- ->]. constructor; [by exists hdr | by apply IH].
Qed.

(** The datagram of fragment [i], as a function of [i]. *)
Definition datagram_of (data : list byte) (fid total i : Z) : list byte :=
  match pack_video_hdr fid total i with
  | Some hdr => hdr ++ part_of data i
  | None => []
  end.

Lemma fragments_datagram_of data fid total idxs pkts :
  Forall2 (fragment_of data fid total) idxs pkts →
  pkts = datagram_of data fid total <$> idxs
  ∧ Forall (λ i, fragment_of data fid total i (datagram_of data fid total i)) idxs.
Proof.
  induction 1 as [|i pkt idxs pkts (hdr & Hh & ->) _ [-> IH]]; [done|].
  assert (Hd : datagram_of data fid total i = hdr ++ part_of data i)
    by (unfold datagram_of; by rewrite Hh).
  split; [by rewrite fmap_cons, Hd|].
  constructor; [rewrite Hd; by exists hdr | done].
Qed.

(** An emission always carries the key of the datagram that caused it. *)
Lemma run_emits_own_key key trace : ∀ clk st,
  Forall2 (λ ev r, ∀ p, vr_emitted r = Some (key, p) → event_key ev = Some key)
          trace (run trace clk st).
Proof.
  induction trace as [|ev trace IH]; intros clk st; simpl; constructor; [|apply IH].
  intros p Hp. destruct ev as [pkt s|]; simpl in *; [|done].
  by apply (listener_frame pkt s clk st) in Hp.
Qed.

(** C1. A sender's logical payload [data], split by the sender loop into
    the datagrams [frags] of one frame id, reaches the video listener in any
    order (the datagrams of the frame's key in [trace] are a permutation of
    [frags]), among datagrams of other keys, discarded datagrams and sweeper
    passes, all within one TTL window.  Then the events of that key emit
    nothing until the last fragment arrives, and what is emitted there is
    [data], byte for byte, whatever the permutation; no other event emits
    under that key. *)
Theorem reassembly_order_independent
    (data : list byte) (sender : addr) (fid0 fid : Z) (frags : list (list byte))
    (trace : list event) (clk : clock) (st : state) :
  client_send_frame fid0 data = (fid, (frags, false)) →
  frags ≠ [] →
  packets_of (sender, fid) trace ≡ₚ frags →
  video_reassembly st !! (sender, fid) = None →
  within_ttl clk →
  emitted_at (sender, fid) trace (run trace clk st)
  = replicate (length frags - 1) None ++ [Some (sender, fid, data)]
  ∧ Forall2 (λ ev r, ∀ p, vr_emitted r = Some (sender, fid, p)
                          → event_key ev = Some (sender, fid))
            trace (run trace clk st).
Proof.
  intros Hsend Hne Hperm Hfresh Hw. split; [|apply run_emits_own_key].
  unfold client_send_frame in Hsend. injection Hsend as Hfid Hfrag. subst fid.
  unfold fragment in Hfrag. apply fragment_loop_inv in Hfrag.
  apply fragments_datagram_of in Hfrag as [Hfrags Hok].
  set (fid := next_fid fid0) in *. set (N := fragment_count data) in *.
  rewrite Hfrags in Hperm. apply Permutation_map_inv in Hperm as (order & Hpk & Hord).
  assert (Hlen : length frags = length order).
  { rewrite Hfrags, length_fmap. by apply Permutation_length. }
  rewrite Hlen.
  apply (emitted_at_frame data sender fid (datagram_of data fid N)) with (got := []).
  - intros i Hi. by eapply Forall_forall in Hok.
  - simpl. by symmetry.
  - intros ->. apply Hne. destruct frags; [done | discriminate Hlen].
  - done.
  - done.
  - done.
Qed.

End Reassembly.

(* ===================================================================== *)
(** ** The example of the specification: meeting "Room1" *)
(* ===================================================================== *)

(** Participant A (video address 10.0.0.1:5000) sends a 150000-byte frame
    with frame id 7 as three fragments of 60000, 60000 and 30000 bytes,
    which arrive in the order 2, 0, 1; a sweeper pass and a short datagram
    from B (10.0.0.2:6000) come in between. *)
Module Room1.
Import Struct Py Server FragmentProps Reassembly.

Definition A : addr := ("10.0.0.1"%string, VInt 5000).
Definition B : addr := ("10.0.0.2"%string, VInt 6000).

Definition frame : list byte := replicate (Z.to_nat 150000) x2a.

Definition frag (i : Z) : list byte := datagram_of frame 7 3 i.

(** A clock that advances by a tenth of a second per reading, up to 2 s. *)
Definition slow_clock : clock :=
  {| readings := λ n, (Z.of_nat (n `min` 20) # 10)%Q; reads := 0 |}.

Definition trace : list event :=
  [Packet (frag 2) A; Sweep; Packet [x00] B; Packet (frag 0) A; Packet (frag 1) A].

Definition registry : state :=
  register 2%nat ("10.0.0.2"%string, VInt 40002) (VStr "B") (VStr "Room1") (VInt 6000) VNone
    (register 1%nat ("10.0.0.1"%string, VInt 40001) (VStr "A") (VStr "Room1") (VInt 5000) VNone
       initial_state).

Lemma slow_clock_within_ttl : within_ttl slow_clock.
Proof.
  intros i j. simpl. unfold FRAME_TTL, Qle, Qminus, Qplus, Qopp. simpl. lia.
Qed.

Lemma frame_count : fragment_count frame = 3.
Proof.
  unfold fragment_count, len, frame.
  rewrite length_replicate, Z2Nat.id by lia. reflexivity.
Qed.

Lemma frame_sent :
  client_send_frame 6 frame = (7, ([frag 0; frag 1; frag 2], false)).
Proof.
  unfold client_send_frame. change (next_fid 6) with 7.
  destruct (fragment_ok 7 frame) as (pkts & E & Hf).
  - lia.
  - rewrite frame_count. lia.
  - rewrite E. apply fragments_datagram_of in Hf as [-> _].
    by rewrite frame_count.
Qed.

Lemma frag_packed i : 0 ≤ i < 3 →
  ∃ hdr, pack_video_hdr 7 3 i = Some hdr ∧ frag i = hdr ++ part_of frame i.
Proof.
  intros Hi. destruct (pack_video_hdr_Some 7 3 i) as [hdr Hh]; [lia..|].
  exists hdr. split; [done|]. unfold frag, datagram_of. by rewrite Hh.
Qed.

Lemma frag_key i : 0 ≤ i < 3 → packet_key (frag i) A = Some (A, 7).
Proof.
  intros (hdr & Hh & ->)%frag_packed. by eapply packet_key_packed.
Qed.

Lemma trace_packets : packets_of (A, 7) trace = [frag 2; frag 0; frag 1].
Proof.
  unfold packets_of, trace. cbn [omap list_omap].
  rewrite !frag_key by lia.
  by rewrite !bool_decide_eq_true_2 by done.
Qed.

(** The three fragments arrive in the order 2, 0, 1: nothing is emitted
    before the last one, which yields the 150000 bytes. *)
Lemma reassembly_order_independent_witness :
  client_send_frame 6 frame = (7, ([frag 0; frag 1; frag 2], false))
  ∧ packets_of (A, 7) trace ≡ₚ [frag 0; frag 1; frag 2]
  ∧ within_ttl slow_clock
  ∧ emitted_at (A, 7) trace (run trace slow_clock registry)
    = [None; None; Some (A, 7, frame)].
Proof.
  assert (Hperm : packets_of (A, 7) trace ≡ₚ [frag 0; frag 1; frag 2])
    by (rewrite trace_packets; apply Permutation_cons_append).
  split_and!; [apply frame_sent | done | apply slow_clock_within_ttl |].
  apply (reassembly_order_independent frame A 6 7 [frag 0; frag 1; frag 2]
           trace slow_clock registry);
    [apply frame_sent | done | done | done | apply slow_clock_within_ttl].
Defined.

End Room1.

(* ===================================================================== *)
(** ** Duplicated fragments *)
(* ===================================================================== *)

Module Duplicates.
Import Struct Py Server FragmentProps Reassembly.

(** C10. A fragment whose index is already in the buffer of its key
    replaces the stored bytes and leaves every other index, the number of
    distinct indices and the declared total as they were; so if the buffer
    was not complete, the duplicate completes nothing: nothing is emitted
    and the buffer stays.  Whenever an iteration does emit, the buffer it
    emitted from held exactly [total] distinct indices. *)
Theorem duplicate_fragment_idempotent
    (f t i : Z) (payload old : list byte) (sender : addr)
    (clk : clock) (st : state) (e : entry) :
  video_reassembly st !! (sender, f) = Some e →
  parts e !! i = Some old →
  let e' := (buffer_fragment (sender, f) t i payload clk st).1 in
  let r := process_fragment f t i payload sender clk st in
  parts e' !! i = Some payload
  ∧ (∀ j, j ≠ i → parts e' !! j = parts e !! j)
  ∧ dom (parts e') = dom (parts e)
  ∧ size (parts e') = size (parts e)
  ∧ total e' = total e
  ∧ (complete e = false →
       vr_emitted r = None ∧ vr_sent r = []
       ∧ video_reassembly (vr_state r) !! (sender, f) = Some e')
  ∧ (vr_emitted r ≠ None → Z.of_nat (size (dom (parts e'))) = total e').
Proof.
  intros He Hold e' r.
  assert (Hsz : size (parts e') = size (parts e)).
  { subst e'. unfold buffer_fragment. rewrite He. simpl.
    by rewrite map_size_insert, Hold. }
  assert (Hc : complete e' = complete e).
  { unfold complete. rewrite Hsz. subst e'. unfold buffer_fragment. by rewrite He. }
  subst e' r. unfold process_fragment.
  destruct (buffer_fragment (sender, f) t i payload clk st) as [e1 clk1] eqn:Eb.
  simpl in *.
  assert (He1 : parts e1 = <[i := payload]> (parts e) ∧ total e1 = total e).
  { unfold buffer_fragment in Eb. rewrite He in Eb. simpl in Eb.
    by injection Eb as <- _. }
  destruct He1 as [Hp Ht].
  split_and!.
  - by rewrite Hp, lookup_insert_eq.
  - intros j Hj. by rewrite Hp, lookup_insert_ne.
  - rewrite Hp, dom_insert_L. apply elem_of_dom_2 in Hold.
    apply set_eq. intros x. rewrite elem_of_union, elem_of_singleton.
    split; [by intros [->|?] | by right].
  - done.
  - done.
  - intros Hn. rewrite Hc, Hn. simpl. by rewrite lookup_insert_eq.
  - rewrite size_dom. destruct (complete e1) eqn:Hce.
    + intros _. unfold complete in Hce. by apply bool_decide_eq_true in Hce.
    + by intros [].
Qed.

(** In "Room1", fragment 2 of the three arrives a second time. *)
Lemma duplicate_fragment_idempotent_witness :
  let e := {| parts := {[ 2 := part_of Room1.frame 2 ]}; total := 3; ts := 0 |} in
  let st := with_reassembly Room1.registry {[ (Room1.A, 7) := e ]} in
  video_reassembly st !! (Room1.A, 7) = Some e
  ∧ parts e !! 2 = Some (part_of Room1.frame 2)
  ∧ complete e = false
  ∧ vr_emitted (process_fragment 7 3 2 (part_of Room1.frame 2) Room1.A
                  Room1.slow_clock st) = None.
Proof.
  intros e st.
  assert (Hst : video_reassembly st !! (Room1.A, 7) = Some e)
    by apply lookup_singleton_eq.
  assert (Hp : parts e !! 2 = Some (part_of Room1.frame 2))
    by apply lookup_singleton_eq.
  assert (Hc : complete e = false).
  { unfold complete. apply bool_decide_eq_false. simpl.
    rewrite map_size_singleton. lia. }
  split_and!; [done..|].
  by apply (duplicate_fragment_idempotent 7 3 2 (part_of Room1.frame 2)
              (part_of Room1.frame 2) Room1.A Room1.slow_clock st e Hst Hp).
Defined.

End Duplicates.

(* ===================================================================== *)
(** ** The sweeper and the age of a buffer *)
(* ===================================================================== *)

Module Sweeper.
Import Struct Py Server FragmentProps Reassembly.

(** A two-fragment frame with frame id 9 from 10.0.0.1:5000. *)
Definition key9 : addr * Z := (Room1.A, 9).
Definition first_half : list byte := default [] (pack_video_hdr 9 2 0) ++ [x01].
Definition second_half : list byte := default [] (pack_video_hdr 9 2 1) ++ [x02].

(** The clock reads 0 s, 0 s, 1.5 s, 2.5 s and 3 s. *)
Definition late_clock : clock :=
  {| readings := λ n, nth n [0; 0; 3 # 2; 5 # 2; 3]%Q 3%Q; reads := 0 |}.


Lemma expired_iff now e : expired now e = true ↔ (FRAME_TTL < now - ts e)%Q.
Proof.
  unfold expired. rewrite negb_true_iff. split.
  - intros H. apply Qnot_le_lt. intros Hle. apply Qle_bool_iff in Hle. congruence.
  - intros H. destruct (Qle_bool _ _) eqn:E; [|done].
    apply Qle_bool_iff in E. by apply Qlt_not_le in H.
Qed.

(** A datagram filed under a key without buffer can only complete a
    one-fragment frame, and then emits its own payload. *)
Lemma fresh_buffer_emits_own_payload f t i payload sender clk st k p :
  video_reassembly st !! (sender, f) = None →
  vr_emitted (process_fragment f t i payload sender clk st) = Some (k, p) →
  p = payload.
Proof.
  intros Hnone. unfold process_fragment, buffer_fragment. rewrite Hnone. simpl.
  unfold complete. simpl. rewrite insert_empty, map_size_singleton.
  case_bool_decide as Ht; [|done]. rewrite <- Ht.
  change (range (Z.of_nat 1)) with [0]. simpl.
  destruct (decide (i = 0)) as [->|Hi].
  - rewrite lookup_singleton_eq. simpl.
    match goal with |- context [relay_video ?k ?p ?s ?c ?st'] =>
      pose proof (relay_video_spec k p s c st') as (_ & -> & _) end.
    rewrite app_nil_r. by intros [= _ <-].
  - by rewrite lookup_singleton_ne.
Qed.



End Sweeper.

(* ===================================================================== *)
(** ** Video relay: re-fragmentation and fan-out *)
(* ===================================================================== *)

Module VideoRelay.
Import Struct Py Server FragmentProps Reassembly.

(** The datagrams of one send pass per address of [others], the [k]-th
    pass stamped with the [k]-th reading of the clock from [n] on. *)
Fixpoint relay_datagrams (payload : list byte) (others : list addr)
    (rd : nat → Q) (n : nat) : list datagram :=
  match others with
  | [] => []
  | peer :: rest =>
      ((λ pkt, (pkt, peer)) <$> (fragment (frame_id_out (rd n)) payload).1)
        ++ relay_datagrams payload rest rd (S n)
  end.

Lemma frame_id_out_range t : 0 ≤ frame_id_out t < 2 ^ 32.
Proof.
  unfold frame_id_out. change 0xFFFFFFFF with (Z.ones 32).
  rewrite Z.land_ones by lia. apply Z.mod_pos_bound. lia.
Qed.

Lemma fragment_raises fid data :
  ¬ fragment_count data < 2 ^ 16 → fragment fid data = ([], true).
Proof.
  intros Hbig. unfold fragment.
  assert (Hr : ∃ rest, range (fragment_count data) = 0 :: rest).
  { unfold range, seqZ. destruct (Z.to_nat (fragment_count data)) eqn:E; [lia|].
    simpl. eauto. }
  destruct Hr as [rest ->]. simpl.
  rewrite pack_video_hdr_None_total; [done|lia].
Qed.

Lemma forward_video_sent payload sender peers clk :
  (forward_video payload sender peers clk).1.1
  = if decide (fragment_count payload < 2 ^ 16)
    then relay_datagrams payload (filter (λ p, p ≠ sender) peers)
                         (readings clk) (reads clk)
    else [].
Proof.
  revert clk. induction peers as [|peer peers IH]; intros clk.
  - simpl. by case_decide.
  - simpl. rewrite filter_cons. destruct (decide (peer = sender)) as [->|Hne].
    + rewrite (decide_False (P := sender ≠ sender)) by (intros H; by apply H). apply IH.
    + rewrite (decide_True (P := peer ≠ sender)) by done.
      fold (fragment (frame_id_out (readings clk (reads clk))) payload).
      destruct (decide (fragment_count payload < 2 ^ 16)) as [Hok|Hbig].
      * destruct (fragment_ok (frame_id_out (readings clk (reads clk))) payload
                    (frame_id_out_range _) Hok) as (pkts & E & _).
        rewrite E.
        specialize (IH {| readings := readings clk; reads := S (reads clk) |}).
        destruct (forward_video _ _ _ _) as [[more clk2] r]. simpl in *.
        by rewrite IH, E.
      * by rewrite fragment_raises.
Qed.

Lemma relay_datagrams_dest payload others rd n d :
  d ∈ relay_datagrams payload others rd n → d.2 ∈ others.
Proof.
  revert n. induction others as [|peer rest IH]; intros n; simpl.
  - by intros ?%elem_of_nil.
  - rewrite elem_of_app, list_elem_of_fmap.
    intros [(pkt & -> & _)|H]; [left | right; eauto].
Qed.

Lemma filter_none {A} (P : A → Prop) `{∀ x, Decision (P x)} (l : list A) :
  Forall (λ x, ¬ P x) l → filter P l = [].
Proof.
  induction 1 as [|x l Hx _ IH]; [done|].
  by rewrite filter_cons, decide_False.
Qed.

Lemma filter_all {A} (P : A → Prop) `{∀ x, Decision (P x)} (l : list A) :
  Forall P l → filter P l = l.
Proof.
  induction 1 as [|x l Hx _ IH]; [done|].
  by rewrite filter_cons, decide_True, IH.
Qed.

(** What went to one address: a single pass. *)
Lemma relay_datagrams_to payload others rd n peer :
  NoDup others → peer ∈ others →
  ∃ k, (filter (λ d : datagram, d.2 = peer) (relay_datagrams payload others rd n)).*1
       = (fragment (frame_id_out (rd (n + k)%nat)) payload).1.
Proof.
  intros Hnd. revert n. induction Hnd as [|p rest Hp Hnd IH]; intros n Hin.
  - by apply elem_of_nil in Hin.
  - simpl. rewrite filter_app, fmap_app.
    destruct (decide (peer = p)) as [->|Hne].
    + exists 0%nat. rewrite Nat.add_0_r.
      rewrite (filter_none _ (relay_datagrams _ _ _ _)), app_nil_r.
      * rewrite filter_all.
        -- rewrite <- list_fmap_compose. by rewrite (list_fmap_ext _ id), list_fmap_id.
        -- apply Forall_forall. by intros d (pkt & -> & _)%list_elem_of_fmap.
      * apply Forall_forall. intros d Hd%relay_datagrams_dest Heq. congruence.
    + apply elem_of_cons in Hin as [?|Hin]; [done|].
      destruct (IH (S n) Hin) as [k Hk]. exists (S k).
      rewrite (filter_none _ (_ <$> _)).
      * simpl. rewrite Hk. by replace (n + S k)%nat with (S n + k)%nat by lia.
      * apply Forall_forall. intros d (pkt & -> & _)%list_elem_of_fmap. simpl. congruence.
Qed.

(** An iteration that emits went through [relay_video] on a state with
    the same registry. *)
Lemma listener_emitted pkt sender clk st key payload_bytes :
  vr_emitted (video_udp_listener pkt sender clk st) = Some (key, payload_bytes) →
  ∃ clk1 st2,
    video_udp_listener pkt sender clk st
    = relay_video key payload_bytes sender clk1 st2
    ∧ meet_video_addrs st2 = meet_video_addrs st
    ∧ udp_to_meet st2 = udp_to_meet st
    ∧ readings clk1 = readings clk.
Proof.
  unfold video_udp_listener. destruct (_ || _); [done|].
  destruct (unpack_video_hdr _) as [[[f t] i]|]; [|done].
  unfold process_fragment.
  pose proof (buffer_fragment_readings (sender, f) t i
                (drop (Z.to_nat VIDEO_HDR_SIZE) pkt) clk st) as Hrd.
  destruct (buffer_fragment _ _ _ _ _ _) as [e1 clk1]. simpl in Hrd.
  destruct (complete e1); [|done].
  destruct (mapM _ _) as [ps|]; [|done].
  intros Hem.
  match type of Hem with context [relay_video ?k ?p ?s ?c ?st'] =>
    pose proof (relay_video_spec k p s c st') as (_ & Hem' & _) end.
  rewrite Hem in Hem'. injection Hem' as <- <-. eauto 10.
Qed.

Lemma relay_video_sent key payload sender clk st :
  vr_sent (relay_video key payload sender clk st)
  = if truthy (lookup_meeting st sender)
    then (forward_video payload sender
            (elements (default ∅ (dict_get (lookup_meeting st sender)
                                           (meet_video_addrs st)))) clk).1.1
    else [].
Proof.
  unfold relay_video. destruct (truthy _); simpl; [|done].
  by destruct (forward_video _ _ _ _) as [[sent clk'] raised].
Qed.

Lemma lookup_meeting_ext st st' sender :
  meet_video_addrs st' = meet_video_addrs st → udp_to_meet st' = udp_to_meet st →
  lookup_meeting st' sender = lookup_meeting st sender.
Proof. unfold lookup_meeting. by intros -> ->. Qed.

(** The [sendto] calls of an iteration that emitted [payload_bytes]. *)
Lemma listener_sent pkt sender clk st key payload_bytes :
  vr_emitted (video_udp_listener pkt sender clk st) = Some (key, payload_bytes) →
  let meet := lookup_meeting st sender in
  let peers := default ∅ (dict_get meet (meet_video_addrs st)) in
  ∃ n, vr_sent (video_udp_listener pkt sender clk st)
       = if truthy meet && bool_decide (fragment_count payload_bytes < 2 ^ 16)
         then relay_datagrams payload_bytes
                (filter (λ p, p ≠ sender) (elements peers)) (readings clk) n
         else [].
Proof.
  intros (clk1 & st2 & -> & Hv & Hu & Hrd)%listener_emitted. simpl.
  rewrite relay_video_sent, (lookup_meeting_ext st st2) by done.
  destruct (truthy _); simpl; [|by exists 0%nat].
  rewrite forward_video_sent, Hv, Hrd. exists (reads clk1).
  case_decide.
  - by rewrite bool_decide_eq_true_2.
  - by rewrite bool_decide_eq_false_2.
Qed.

Lemma others_NoDup (sender : addr) (peers : gset addr) :
  NoDup (filter (λ p, p ≠ sender) (elements peers)).
Proof. apply NoDup_filter, NoDup_elements. Qed.

Lemma fragment_of_unpack data fid total idx dg :
  fragment_of data fid total idx dg →
  unpack_video_hdr (take (Z.to_nat VIDEO_HDR_SIZE) dg) = Some (fid, total, idx).
Proof.
  intros (hdr & Hh & ->). rewrite (packed_take _ _ _ _ _ Hh).
  by apply unpack_pack_video_hdr in Hh as [_ ?].
Qed.


Lemma has_ip_true (ip : string) (addrs : gset addr) :
  has_ip ip addrs = true ↔ ∃ a : addr, a ∈ addrs ∧ a.1 = ip.
Proof.
  unfold has_ip. rewrite bool_decide_eq_true, Exists_exists.
  split; intros (a & Ha & Hip); exists a; split; try done; by apply elem_of_elements.
Qed.

(** The IP-only scan returns the first meeting, in insertion order, that
    holds a video address with the given IP. *)
Lemma first_meeting_with_ip_Some (ip : string) (items : list (value * gset addr)) (m : value) :
  first_meeting_with_ip ip items = Some m ↔
  ∃ before addrs after,
    items = before ++ (m, addrs) :: after
    ∧ has_ip ip addrs = true
    ∧ Forall (λ item, has_ip ip item.2 = false) before.
Proof.
  induction items as [|[mid addrs] items IH]; simpl.
  - split; [done|]. intros (before & ? & ? & E & _). by destruct before.
  - destruct (has_ip ip addrs) eqn:Hip.
    + split.
      * intros [= <-]. by exists [], addrs, items.
      * intros ([|[m' a'] before] & addrs' & after & E & Hm & Hb).
        -- by injection E as <- _ _.
        -- injection E as <- <- _. apply Forall_cons in Hb as [Hb _]. simpl in Hb. congruence.
    + rewrite IH. split.
      * intros (before & addrs' & after & -> & Hm & Hb).
        exists ((mid, addrs) :: before), addrs', after.
        split_and!; [done|done|by constructor].
      * intros ([|[m' a'] before] & addrs' & after & E & Hm & Hb).
        -- injection E as <- <- _. congruence.
        -- injection E as <- <- ->. apply Forall_cons in Hb as [_ Hb]. eauto 6.
Qed.

Lemma first_meeting_with_ip_None (ip : string) (items : list (value * gset addr)) :
  first_meeting_with_ip ip items = None ↔
  Forall (λ item, has_ip ip item.2 = false) items.
Proof.
  induction items as [|[mid addrs] items IH]; simpl; [done|].
  destruct (has_ip ip addrs) eqn:Hip.
  - split; [done|]. intros [H _]%Forall_cons. simpl in H. congruence.
  - rewrite IH. split; [by constructor | by intros [_ ?]%Forall_cons].
Qed.


(** *** "Room1": the last fragment arrives *)

(** Fragments 2 and 0 of A's frame are buffered; fragment 1 arrives. *)
Definition room1_before : state :=
  with_reassembly Room1.registry
    {[ (Room1.A, 7) := {| parts := parts_of Room1.frame [0; 2]; total := 3;
                          ts := readings Room1.slow_clock 0 |} ]}.

Abbreviation room1_last :=
  (video_udp_listener (Room1.frag 1) Room1.A Room1.slow_clock room1_before).

Lemma room1_last_emitted :
  vr_emitted room1_last = Some (Room1.A, 7, Room1.frame).
Proof.
  destruct (Room1.frag_packed 1) as (hdr & Hh & ->); [lia|].
  rewrite (listener_packed _ _ _ _ _ _ _ _ Hh).
  pose proof (process_fragment_last Room1.frame Room1.A 7 [0; 2] 1
                Room1.slow_clock room1_before) as H.
  rewrite Room1.frame_count in H. apply H.
  - apply perm_swap.
  - simpl. rewrite Room1.frame_count. eexists. split; [apply lookup_singleton_eq|].
    by exists 0%nat.
Qed.

Lemma room1_meet : lookup_meeting room1_before Room1.A = VStr "Room1".
Proof. reflexivity. Qed.

Lemma room1_peers :
  default ∅ (dict_get (lookup_meeting room1_before Room1.A)
                      (meet_video_addrs room1_before))
  = {[ Room1.A; Room1.B ]}.
Proof. reflexivity. Qed.

Lemma room1_others :
  filter (λ p, p ≠ Room1.A) (elements ({[ Room1.A; Room1.B ]} : gset addr))
  = [Room1.B].
Proof. reflexivity. Qed.

Lemma relay_datagrams_single payload peer rd n :
  relay_datagrams payload [peer] rd n
  = (λ pkt, (pkt, peer)) <$> (fragment (frame_id_out (rd n)) payload).1.
Proof. simpl. apply app_nil_r. Qed.

Lemma room1_last_sent :
  ∃ n, vr_sent room1_last
       = (λ pkt, (pkt, Room1.B))
           <$> (fragment (frame_id_out (readings Room1.slow_clock n)) Room1.frame).1.
Proof.
  destruct (listener_sent _ _ _ _ _ _ room1_last_emitted) as [n Hs].
  exists n. rewrite Hs.
  rewrite room1_peers, room1_others, room1_meet, relay_datagrams_single.
  rewrite Room1.frame_count, bool_decide_eq_true_2 by lia.
  reflexivity.
Qed.

Lemma room1_last_to_B :
  ∃ n, (filter (λ d : datagram, d.2 = Room1.B) (vr_sent room1_last)).*1
       = (fragment (frame_id_out (readings Room1.slow_clock n)) Room1.frame).1
       ∧ (fragment (frame_id_out (readings Room1.slow_clock n)) Room1.frame).1 ≠ [].
Proof.
  destruct room1_last_sent as [n ->]. exists n.
  destruct (fragment_ok (frame_id_out (readings Room1.slow_clock n)) Room1.frame)
    as (pkts & E & Hf); [apply frame_id_out_range | rewrite Room1.frame_count; lia |].
  rewrite E. simpl. split.
  - rewrite filter_all by (apply Forall_forall; by intros d (pkt & -> & _)%list_elem_of_fmap).
    rewrite <- list_fmap_compose. by rewrite (list_fmap_ext _ id), list_fmap_id.
  - apply Forall2_length in Hf. rewrite Room1.frame_count in Hf.
    intros ->. discriminate Hf.
Qed.



End VideoRelay.

(* ===================================================================== *)
(** ** Audio relay *)
(* ===================================================================== *)

Module AudioRelay.
Import Struct Py Server VideoRelay.

(** Two meetings; 10.0.0.1 hosts a participant of each. *)
Definition shared_ip_registry : state :=
  register 4%nat ("10.0.0.3"%string, VInt 40004) (VStr "b2") (VStr "B") VNone (VInt 7003)
    (register 3%nat ("10.0.0.1"%string, VInt 40003) (VStr "b1") (VStr "B") VNone (VInt 7002)
       (register 2%nat ("10.0.0.2"%string, VInt 40002) (VStr "a2") (VStr "A") VNone (VInt 7001)
          (register 1%nat ("10.0.0.1"%string, VInt 40001) (VStr "a1") (VStr "A") VNone (VInt 7000)
             initial_state))).

(** C9, as stated, fails.  The participant a1 of meeting "A" sends audio
    from 10.0.0.1:7000; 10.0.0.1 also hosts b1 of meeting "B".  The scan
    has no [break]: the packet also goes to 10.0.0.3:7003, an address of
    meeting "B" that is no audio address of meeting "A". *)
Lemma audio_other_meeting_counterexample :
  let sender : addr := ("10.0.0.1"%string, VInt 7000) in
  let outsider : addr := ("10.0.0.3"%string, VInt 7003) in
  let audio_of m := default ∅ (dict_get m (meet_audio_addrs shared_ip_registry)) in
  sender ∈ audio_of (VStr "A")
  ∧ (sender ∉ audio_of (VStr "B"))
  ∧ (outsider ∉ audio_of (VStr "A"))
  ∧ outsider ∈ audio_of (VStr "B")
  ∧ ([x01], outsider) ∈ audio_udp_listener [x01] sender shared_ip_registry.
Proof.
  split_and!.
  - vm_compute. set_solver.
  - vm_compute. set_solver.
  - vm_compute. set_solver.
  - vm_compute. set_solver.
  - vm_compute. set_solver.
Qed.

(** C9, amended.  An empty datagram is dropped.  A non-empty one is
    forwarded verbatim: a [sendto] call carries the packet as received and
    goes to an address other than the sender's exact address that is
    registered for audio in a meeting holding some audio address with the
    sender's IP (the port is ignored); every such address of every such
    meeting is sent to, and no address of a meeting that holds no audio
    address with that IP. *)
Theorem audio_relay_fanout (pkt : list byte) (sender : addr) (st : state) (d : datagram) :
  d ∈ audio_udp_listener pkt sender st ↔
  pkt ≠ [] ∧ d.1 = pkt ∧ d.2 ≠ sender
  ∧ ∃ mid addrs, (mid, addrs) ∈ meet_audio_addrs st ∧ d.2 ∈ addrs
                 ∧ ∃ a : addr, a ∈ addrs ∧ a.1 = sender.1.
Proof.
  unfold audio_udp_listener. case_bool_decide as Hpkt.
  - split; [by intros ?%elem_of_nil | by intros [? _]].
  - rewrite list_elem_of_bind. split.
    + intros ([mid addrs] & Hd & Hin).
      destruct (has_ip sender.1 addrs) eqn:Hip; [|by apply elem_of_nil in Hd].
      apply list_elem_of_fmap in Hd as (peer & -> & [Hne Hp]%list_elem_of_filter).
      apply elem_of_elements in Hp. apply has_ip_true in Hip.
      split_and!; [done..|]. by exists mid, addrs.
    + intros (_ & Hpk & Hne & mid & addrs & Hin & Hd & Hip).
      exists (mid, addrs). split; [|done].
      rewrite (proj2 (has_ip_true sender.1 addrs) Hip).
      apply list_elem_of_fmap. exists d.2. split.
      * destruct d as [p dest]. simpl in *. by subst.
      * apply list_elem_of_filter. split; [done|]. by apply elem_of_elements.
Qed.

End AudioRelay.

(* ===================================================================== *)
(** ** Session registry: registration and deregistration *)
(* ===================================================================== *)

Module Registry.
Import Struct Py Server VideoRelay.

(** The reverse index and the address sets agree: an address has an entry
    in [udp_to_meet] exactly when some meeting holds it as a video address
    (audio addresses are never entered in the reverse index). *)
Definition index_consistent (st : state) : Prop :=
  ∀ a : addr, is_Some (udp_to_meet st !! a)
              ↔ ∃ m s, (m, s) ∈ meet_video_addrs st ∧ a ∈ s.

(** No meeting other than [meet_id] holds a video address with the IP. *)
Definition no_foreign_ip (meet_id : value) (ip : string) (st : state) : Prop :=
  ∀ m s (b : addr), (m, s) ∈ meet_video_addrs st → m ≠ meet_id → b ∈ s → b.1 ≠ ip.

(** The states the handshake and [finally] blocks lead to, deregistration
    being restricted to handlers whose IP no other meeting uses. *)
Inductive reachable : state → Prop :=
| reach_initial : reachable initial_state
| reach_register c a username meet_id vid_port aud_port st :
    reachable st →
    reachable (register c a username meet_id vid_port aud_port st)
| reach_deregister meet_id a st :
    reachable st →
    (truthy meet_id = true → no_foreign_ip meet_id a.1 st) →
    reachable (deregister meet_id a st).

(** Two participants on the host 10.0.0.1, in the meetings "A" and "B". *)
Definition two_meetings : state :=
  register 2%nat ("10.0.0.1"%string, VInt 40002) (VStr "u2") (VStr "B") (VInt 5001) VNone
    (register 1%nat ("10.0.0.1"%string, VInt 40001) (VStr "u1") (VStr "A") (VInt 5000) VNone
       initial_state).

(** The participant of meeting "A" leaves. *)
Definition after_leave : state :=
  deregister (VStr "A") ("10.0.0.1"%string, VInt 40001) two_meetings.

Lemma index_consistent_initial : index_consistent initial_state.
Proof.
  intros a. simpl. rewrite lookup_empty. split.
  - by intros [? ?].
  - by intros (m & s & ?%elem_of_nil & _).
Qed.

Lemma register_video_NoDup c a u m v au st :
  NoDup (meet_video_addrs st).*1 →
  NoDup (meet_video_addrs (register c a u m v au st)).*1.
Proof. intros H. simpl. destruct (truthy v); [by apply dict_set_NoDup | done]. Qed.

Lemma register_index_consistent c a u m v au st :
  NoDup (meet_video_addrs st).*1 → index_consistent st →
  index_consistent (register c a u m v au st).
Proof.
  intros Hnd Hc b. simpl. destruct (truthy v); [|apply Hc].
  set (x := (a.1, v)). set (S0 := default ∅ (dict_get m (meet_video_addrs st))).
  split.
  - intros Hb. destruct (decide (b = x)) as [->|Hne].
    + exists m, (S0 ∪ {[x]}). split; [apply dict_set_elem_of_eq|].
      apply elem_of_union_r, elem_of_singleton; done.
    + rewrite lookup_insert_ne in Hb by done.
      apply Hc in Hb as (m' & s & Hin & Hbs).
      destruct (decide (m' = m)) as [->|Hm].
      * exists m, (S0 ∪ {[x]}). split; [apply dict_set_elem_of_eq|].
        apply elem_of_union_l. subst S0.
        by rewrite (dict_get_elem_of _ _ _ Hnd Hin).
      * exists m', s. split; [|done]. by apply dict_set_elem_of_ne.
  - intros (m' & s & Hin & Hbs). destruct (decide (b = x)) as [->|Hne].
    + rewrite lookup_insert_eq. eauto.
    + rewrite lookup_insert_ne by done. apply Hc.
      destruct (decide (m' = m)) as [->|Hm].
      * apply dict_set_elem_of_inv in Hin. subst s.
        apply elem_of_union in Hbs as [Hbs|Hbs%elem_of_singleton]; [|done].
        subst S0. destruct (dict_get m (meet_video_addrs st)) as [s0|] eqn:E; simpl in Hbs.
        -- exists m, s0. split; [by apply dict_get_Some_elem_of | done].
        -- by apply elem_of_empty in Hbs.
      * exists m', s. split; [|done]. by apply dict_set_elem_of_ne in Hin.
Qed.

(** What is left of a set of addresses, or of a list of participants,
    once an IP, or a connection's address, is removed: [None] when nothing
    is left (the meeting's entry is deleted). *)
Definition without_ip (ip : string) (s : gset addr) : option (gset addr) :=
  let to_keep := filter (λ b : addr, b.1 ≠ ip) s in
  if bool_decide (to_keep = ∅) then None else Some to_keep.

Definition without_addr (a : addr) (l : list participant) : option (list participant) :=
  let l' := filter (λ p, p_addr p ≠ a) l in
  if bool_decide (l' = []) then None else Some l'.

Lemma drop_ip_get m ip d :
  dict_get m (drop_ip m ip d) = dict_get m d ≫= without_ip ip.
Proof.
  unfold drop_ip, without_ip. destruct (dict_get m d) as [s|] eqn:E; simpl; [|done].
  case_bool_decide; [apply dict_get_del_eq | apply dict_get_set_eq].
Qed.

Lemma drop_ip_get_ne m m' ip d :
  m' ≠ m → dict_get m' (drop_ip m ip d) = dict_get m' d.
Proof.
  intros Hne. unfold drop_ip. destruct (dict_get m d) as [s|]; [|done].
  case_bool_decide; [by apply dict_get_del_ne | by apply dict_get_set_ne].
Qed.

Lemma drop_ip_elem_of m ip d m' s' :
  (m', s') ∈ drop_ip m ip d →
  (m' ≠ m ∧ (m', s') ∈ d)
  ∨ (m' = m ∧ ∃ s, (m, s) ∈ d ∧ s' = filter (λ b : addr, b.1 ≠ ip) s).
Proof.
  unfold drop_ip. destruct (dict_get m d) as [s|] eqn:E.
  - case_bool_decide.
    + intros ?%elem_of_dict_del. by left.
    + intros [(-> & -> & _)|?]%elem_of_dict_set; [|by left].
      right. split; [done|]. exists s. split; [|done]. by apply dict_get_Some_elem_of.
  - intros Hin. left. split; [|done]. intros ->.
    apply elem_of_dict_get in Hin. rewrite E in Hin. by destruct Hin.
Qed.

Lemma drop_ip_elem_of_ne m ip d m' s' :
  m' ≠ m → (m', s') ∈ d → (m', s') ∈ drop_ip m ip d.
Proof.
  intros Hne Hin. unfold drop_ip. destruct (dict_get m d) as [s|]; [|done].
  case_bool_decide; [by apply elem_of_dict_del | by apply dict_set_elem_of_ne].
Qed.

Lemma drop_ip_NoDup m ip d : NoDup d.*1 → NoDup (drop_ip m ip d).*1.
Proof.
  intros Hnd. unfold drop_ip. destruct (dict_get m d) as [s|]; [|done].
  case_bool_decide; [by apply dict_del_NoDup | by apply dict_set_NoDup].
Qed.

Lemma deregister_video_NoDup m a st :
  NoDup (meet_video_addrs st).*1 → NoDup (meet_video_addrs (deregister m a st)).*1.
Proof.
  intros H. unfold deregister. destruct (truthy m); simpl; [by apply drop_ip_NoDup | done].
Qed.

Lemma deregister_udp_to_meet m (a b : addr) st :
  truthy m = true →
  udp_to_meet (deregister m a st) !! b
  = if decide (b.1 = a.1) then None else udp_to_meet st !! b.
Proof.
  intros Ht. unfold deregister. rewrite Ht. simpl.
  apply option_eq. intros v. rewrite map_lookup_filter_Some. simpl.
  case_decide as Hip.
  - split; [by intros [_ ?] | done].
  - split; [by intros [? _] | done].
Qed.

(** Deregistration keeps the reverse index and the video sets in step
    when no other meeting uses the handler's IP. *)
Lemma deregister_index_consistent m a st :
  NoDup (meet_video_addrs st).*1 → index_consistent st →
  (truthy m = true → no_foreign_ip m a.1 st) →
  index_consistent (deregister m a st).
Proof.
  intros Hnd Hc Hf. destruct (truthy m) eqn:Ht.
  2:{ unfold deregister. rewrite Ht. exact Hc. }
  specialize (Hf eq_refl). intros b.
  rewrite deregister_udp_to_meet by done.
  unfold deregister. rewrite Ht. simpl. split.
  - case_decide as Hip; [by intros [? ?]|].
    intros (m' & s & Hin & Hb)%Hc.
    destruct (decide (m' = m)) as [->|Hm].
    + exists m, (filter (λ b : addr, b.1 ≠ a.1) s). split.
      * apply dict_get_Some_elem_of. rewrite drop_ip_get.
        rewrite (dict_get_elem_of _ _ _ Hnd Hin). simpl. unfold without_ip.
        rewrite bool_decide_eq_false_2; [done|].
        intros He. eapply (filter_empty_not_elem_of_L _ s b He); done.
      * by apply elem_of_filter.
    + exists m', s. split; [by apply drop_ip_elem_of_ne | done].
  - intros (m' & s' & Hin & Hb).
    apply drop_ip_elem_of in Hin as [[Hm Hin]|(-> & s & Hin & ->)].
    + rewrite decide_False by (by eapply Hf). apply Hc. eauto.
    + apply elem_of_filter in Hb as [Hip Hb].
      rewrite decide_False by done. apply Hc. eauto.
Qed.

Lemma reachable_invariant st :
  reachable st → NoDup (meet_video_addrs st).*1 ∧ index_consistent st.
Proof.
  induction 1 as [|c a u m v au st _ [Hnd Hc]|m a st _ [Hnd Hc] Hf].
  - split; [constructor | apply index_consistent_initial].
  - split; [by apply register_video_NoDup | by apply register_index_consistent].
  - split; [by apply deregister_video_NoDup | by apply deregister_index_consistent].
Qed.

Lemma deregister_clients_get m a st :
  dict_get m (meet_general_clients (deregister m a st))
  = dict_get m (meet_general_clients st) ≫= without_addr a.
Proof.
  assert (H : dict_get m
                (match dict_get m (meet_general_clients st) with
                 | None => meet_general_clients st
                 | Some l =>
                     let l' := filter (λ x, p_addr x ≠ a) l in
                     let d := dict_set m l' (meet_general_clients st) in
                     if bool_decide (l' = []) then dict_del m d else d
                 end)
              = dict_get m (meet_general_clients st) ≫= without_addr a).
  { unfold without_addr. destruct (dict_get m (meet_general_clients st)) as [l|] eqn:E;
      simpl; [|done].
    case_bool_decide; [apply dict_get_del_eq | apply dict_get_set_eq]. }
  unfold deregister. by destruct (truthy m).
Qed.

Lemma deregister_clients_get_ne m m' a st :
  m' ≠ m →
  dict_get m' (meet_general_clients (deregister m a st))
  = dict_get m' (meet_general_clients st).
Proof.
  intros Hne.
  assert (H : dict_get m'
                (match dict_get m (meet_general_clients st) with
                 | None => meet_general_clients st
                 | Some l =>
                     let l' := filter (λ x, p_addr x ≠ a) l in
                     let d := dict_set m l' (meet_general_clients st) in
                     if bool_decide (l' = []) then dict_del m d else d
                 end)
              = dict_get m' (meet_general_clients st)).
  { destruct (dict_get m (meet_general_clients st)) as [l|]; simpl; [|done].
    case_bool_decide.
    - by rewrite dict_get_del_ne, dict_get_set_ne.
    - by rewrite dict_get_set_ne. }
  unfold deregister. by destruct (truthy m).
Qed.

(** After the deregistration no address with the handler's IP resolves. *)
Lemma deregister_lookup_meeting m a st (b : addr) :
  truthy m = true → no_foreign_ip m a.1 st → b.1 = a.1 →
  truthy (lookup_meeting (deregister m a st) b) = false.
Proof.
  intros Ht Hf Hb. unfold lookup_meeting.
  rewrite deregister_udp_to_meet, decide_True by done. simpl.
  rewrite (proj2 (first_meeting_with_ip_None _ _)); [done|].
  apply Forall_forall. intros [m' s'] Hin. simpl.
  destruct (has_ip b.1 s') eqn:Hip; [|done]. exfalso.
  apply has_ip_true in Hip as (x & Hx & Hxb).
  unfold deregister in Hin. rewrite Ht in Hin. simpl in Hin.
  apply drop_ip_elem_of in Hin as [[Hm Hin]|(-> & s & Hin & ->)].
  - apply (Hf m' s' x Hin Hm Hx). congruence.
  - apply elem_of_filter in Hx as [Hne _]. apply Hne. congruence.
Qed.

(** C4, as stated, fails.  The state [two_meetings] is reached by two
    registrations from the same host into different meetings, and the
    reverse index agrees with the video sets there.  When the participant
    of "A" leaves, the reverse entries are removed by IP in every meeting
    while the address sets are only cleaned in "A": the address
    10.0.0.1:5001 stays in the video set of "B" without a reverse entry,
    and a lookup of the deregistered address 10.0.0.1:5000 resolves to
    "B" through the IP-only scan. *)
Lemma dangling_after_deregister_counterexample :
  reachable two_meetings
  ∧ index_consistent two_meetings
  ∧ dict_get (VStr "B") (meet_video_addrs after_leave)
    = Some {[ ("10.0.0.1"%string, VInt 5001) ]}
  ∧ udp_to_meet after_leave !! ("10.0.0.1"%string, VInt 5001) = None
  ∧ ¬ index_consistent after_leave
  ∧ lookup_meeting after_leave ("10.0.0.1"%string, VInt 5000) = VStr "B".
Proof.
  assert (Hr : reachable two_meetings) by (repeat constructor).
  assert (Hv : dict_get (VStr "B") (meet_video_addrs after_leave)
               = Some {[ ("10.0.0.1"%string, VInt 5001) ]}).
  { change (meet_video_addrs after_leave)
      with (drop_ip (VStr "A") "10.0.0.1" (meet_video_addrs two_meetings)).
    by rewrite drop_ip_get_ne. }
  assert (Hu : udp_to_meet after_leave !! ("10.0.0.1"%string, VInt 5001) = None)
    by (vm_compute; reflexivity).
  split_and!; [done | by apply reachable_invariant | done | done | | vm_compute; reflexivity].
  intros Hc.
  assert (Hs : is_Some (udp_to_meet after_leave !! ("10.0.0.1"%string, VInt 5001))).
  { apply Hc. exists (VStr "B"), {[ ("10.0.0.1"%string, VInt 5001) ]}.
    split; [by apply dict_get_Some_elem_of | by apply elem_of_singleton]. }
  rewrite Hu in Hs. by destruct Hs.
Qed.

(** C4, amended.  In a state reached by registrations and by
    deregistrations of handlers whose IP no other meeting uses, the
    [finally] block of a handler with a non-empty meeting id, whose IP no
    other meeting uses, removes the handler's entry from the meeting's
    participant list, every video and audio address with the handler's IP
    from the meeting's sets, and every reverse entry with that IP; the
    meeting's list and sets are deleted when they become empty and the
    other meetings are untouched.  The reverse index and the video
    address sets stay in agreement, and a lookup of any address with the
    handler's IP finds no meeting. *)
Theorem deregister_cleans (meet_id : value) (a : addr) (st : state) :
  reachable st →
  truthy meet_id = true →
  no_foreign_ip meet_id a.1 st →
  let st' := deregister meet_id a st in
  dict_get meet_id (meet_general_clients st')
  = dict_get meet_id (meet_general_clients st) ≫= without_addr a
  ∧ dict_get meet_id (meet_video_addrs st')
    = dict_get meet_id (meet_video_addrs st) ≫= without_ip a.1
  ∧ dict_get meet_id (meet_audio_addrs st')
    = dict_get meet_id (meet_audio_addrs st) ≫= without_ip a.1
  ∧ (∀ m, m ≠ meet_id →
       dict_get m (meet_general_clients st') = dict_get m (meet_general_clients st)
       ∧ dict_get m (meet_video_addrs st') = dict_get m (meet_video_addrs st)
       ∧ dict_get m (meet_audio_addrs st') = dict_get m (meet_audio_addrs st))
  ∧ (∀ b : addr, udp_to_meet st' !! b
                 = if decide (b.1 = a.1) then None else udp_to_meet st !! b)
  ∧ (∀ b : addr, b.1 = a.1 → is_Some (udp_to_meet st !! b) →
                 udp_to_user st' !! b = None)
  ∧ index_consistent st'
  ∧ (∀ b : addr, b.1 = a.1 → truthy (lookup_meeting st' b) = false)
  ∧ reachable st'.
Proof.
  intros Hr Ht Hf st'. destruct (reachable_invariant st Hr) as [Hnd Hc].
  split_and!.
  - apply deregister_clients_get.
  - subst st'. unfold deregister. rewrite Ht. apply drop_ip_get.
  - subst st'. unfold deregister. rewrite Ht. apply drop_ip_get.
  - intros m Hm. subst st'. split_and!.
    + by apply deregister_clients_get_ne.
    + unfold deregister. rewrite Ht. by apply drop_ip_get_ne.
    + unfold deregister. rewrite Ht. by apply drop_ip_get_ne.
  - intros b. by apply deregister_udp_to_meet.
  - intros b Hb Hs. subst st'. unfold deregister. rewrite Ht. simpl.
    apply map_lookup_filter_None. destruct (udp_to_user st !! b) as [u|]; [|by left].
    right. intros x _ Hn. by apply Hn.
  - by apply deregister_index_consistent.
  - intros b Hb. by apply deregister_lookup_meeting.
  - by apply reach_deregister.
Qed.

(** In "Room1", A's handler ends: A's video address no longer resolves. *)
Lemma deregister_cleans_witness :
  let a : addr := ("10.0.0.1"%string, VInt 40001) in
  reachable Room1.registry
  ∧ no_foreign_ip (VStr "Room1") a.1 Room1.registry
  ∧ truthy (lookup_meeting (deregister (VStr "Room1") a Room1.registry) Room1.A) = false.
Proof.
  intros a.
  assert (Hr : reachable Room1.registry) by (repeat constructor).
  assert (Hf : no_foreign_ip (VStr "Room1") a.1 Room1.registry).
  { intros m s b Hin Hm _. exfalso. apply Hm.
    apply elem_of_dict_set in Hin as [(-> & _)|[_ Hin]]; [done|].
    apply elem_of_dict_set in Hin as [(-> & _)|[_ Hin]]; [done|].
    by apply elem_of_nil in Hin. }
  split_and!; [done..|].
  by apply (deregister_cleans (VStr "Room1") a Room1.registry Hr eq_refl Hf).
Defined.

End Registry.

(* ===================================================================== *)
(** ** Control channel: broadcast, file relay, handshake *)
(* ===================================================================== *)

Module Control.
Import Struct Py Server.

(** What has been written to a connection so far. *)
Definition delivered (nt : net) (c : conn) : list byte :=
  default [] (outbox nt !! c).

(** The connections the loops over [peers] send to: those of the items
    whose address is not the handler's. *)
Definition targets (a : addr) (peers : list participant) : list conn :=
  p_conn <$> filter (λ p, p_addr p ≠ a) peers.

Lemma sendall_delivered c data nt c' :
  delivered (sendall c data nt).1 c'
  = delivered nt c' ++ (if decide (c' = c ∧ c' ∉ broken nt) then data else []).
Proof.
  destruct (decide (c' = c ∧ c' ∉ broken nt)) as [[-> Hn]|Hn];
    unfold sendall, delivered; case_bool_decide as Hb; cbn [fst outbox].
  - done.
  - by rewrite lookup_insert_eq.
  - by rewrite app_nil_r.
  - rewrite lookup_insert_ne, app_nil_r; [done|]. intros ->. by apply Hn.
Qed.

Lemma sendall_broken c data nt : broken (sendall c data nt).1 = broken nt.
Proof. unfold sendall. by case_bool_decide. Qed.

Lemma broadcast_chunk_broken a chunk peers : ∀ nt,
  broken (broadcast_chunk a chunk peers nt) = broken nt.
Proof.
  induction peers as [|p peers IH]; intros nt; simpl; [done|].
  rewrite IH. case_decide; [apply sendall_broken | done].
Qed.

(** One pass over the peers appends the chunk once to every target whose
    send does not fail, and nothing to any other connection. *)
Lemma broadcast_chunk_delivered a chunk peers : ∀ nt c,
  NoDup (targets a peers) →
  delivered (broadcast_chunk a chunk peers nt) c
  = delivered nt c
    ++ (if decide (c ∈ targets a peers ∧ c ∉ broken nt) then chunk else []).
Proof.
  induction peers as [|p peers IH]; intros nt c Hnd.
  - cbn [broadcast_chunk]. destruct (decide _) as [[?%elem_of_nil _]|_]; [done|].
    by rewrite app_nil_r.
  - cbn [broadcast_chunk]. unfold targets in *. rewrite filter_cons in *.
    destruct (decide (p_addr p ≠ a)) as [Hp|Hp].
    + rewrite fmap_cons in *. apply NoDup_cons in Hnd as [Hfresh Hnd].
      rewrite IH, sendall_delivered, sendall_broken by done.
      rewrite <- app_assoc. f_equal.
      destruct (decide (c = p_conn p ∧ c ∉ broken nt)) as [[-> Hb]|H1].
      * destruct (decide (p_conn p ∈ _ ∧ _)) as [[? _]|_]; [done|].
        destruct (decide (p_conn p ∈ _ :: _ ∧ _)) as [_|H3]; [by rewrite app_nil_r|].
        exfalso. apply H3. split; [left | done].
      * destruct (decide (c ∈ p_conn <$> filter (λ p, p_addr p ≠ a) peers ∧ c ∉ broken nt))
          as [[H2 H3]|H2].
        -- destruct (decide (c ∈ _ :: _ ∧ _)) as [_|H4]; [done|].
           exfalso. apply H4. split; [by right | done].
        -- destruct (decide (c ∈ _ :: _ ∧ _)) as [[H4 H5]|_]; [|done].
           exfalso. apply elem_of_cons in H4 as [->|H4]; [by apply H1 | by apply H2].
    + by apply IH.
Qed.

Lemma recv_exact_enough input n :
  0 < n ≤ len input →
  recv_exact input n = (Some (take (Z.to_nat n) input), drop (Z.to_nat n) input)
  ∧ take (Z.to_nat n) input ≠ [].
Proof.
  intros Hn. unfold recv_exact.
  rewrite (proj2 (Z.leb_gt n 0)) by lia. rewrite (proj2 (Z.leb_le n (len input))) by lia.
  split; [done|]. intros He. apply (f_equal length) in He.
  rewrite length_take in He. unfold len in Hn. simpl in He. lia.
Qed.

(** The [while remaining > 0] loop, when the stream holds the [remaining]
    bytes: it ends within [remaining] turns, has read exactly those bytes,
    and every target whose send does not fail has received them, in
    order, and nothing else. *)
Lemma relay_file_spec a peers : ∀ fuel remaining input nt,
  0 ≤ remaining ≤ len input → (Z.to_nat remaining ≤ fuel)%nat →
  NoDup (targets a peers) →
  ∃ nt', relay_file fuel a peers remaining input nt
         = Some (drop (Z.to_nat remaining) input, nt')
         ∧ broken nt' = broken nt
         ∧ ∀ c, delivered nt' c
                = delivered nt c
                  ++ (if decide (c ∈ targets a peers ∧ c ∉ broken nt)
                      then take (Z.to_nat remaining) input else []).
Proof.
  induction fuel as [|fuel IH]; intros remaining input nt Hr Hfuel Hnd.
  - assert (remaining = 0) as -> by lia. simpl. exists nt. split_and!; [done..|].
    intros c. by destruct (decide _); rewrite app_nil_r.
  - cbn [relay_file]. destruct (remaining <=? 0) eqn:Hz.
    + apply Z.leb_le in Hz. assert (remaining = 0) as -> by lia.
      exists nt. split_and!; [done..|].
      intros c. by destruct (decide _); rewrite app_nil_r.
    + apply Z.leb_gt in Hz.
      set (cs := Z.min 1024 remaining).
      destruct (recv_exact_enough input cs) as [-> Hne]; [lia|].
      destruct (take (Z.to_nat cs) input) as [|b chunk] eqn:Echunk; [done|].
      rewrite <- Echunk. clear Hne.
      assert (Hlen : len (take (Z.to_nat cs) input) = cs).
      { unfold len in *. rewrite length_take. lia. }
      destruct (IH (remaining - len (take (Z.to_nat cs) input))
                  (drop (Z.to_nat cs) input)
                  (broadcast_chunk a (take (Z.to_nat cs) input) peers nt))
        as (nt' & -> & Hb & Hd); [| |done|].
      { rewrite Hlen. unfold len in *. rewrite length_drop. lia. }
      { rewrite Hlen. lia. }
      exists nt'. rewrite Hlen, drop_drop.
      replace (Z.to_nat cs + Z.to_nat (remaining - cs))%nat
        with (Z.to_nat remaining) by lia.
      split_and!; [done | by rewrite Hb, broadcast_chunk_broken |].
      intros c. rewrite Hd, broadcast_chunk_delivered, broadcast_chunk_broken by done.
      rewrite <- app_assoc. f_equal.
      destruct (decide _); [|done].
      rewrite take_take_drop. f_equal. lia.
Qed.

Section pickle.
Variable pickle_loads : list byte → option pyobj.
Variable pickle_dumps : pyobj → list byte.

Lemma broadcast_msg_framed a msg bytes peers : ∀ nt,
  framed pickle_dumps msg = Some bytes →
  broadcast_msg pickle_dumps a msg peers nt = broadcast_chunk a bytes peers nt.
Proof.
  intros nt Hf. revert nt. induction peers as [|p peers IH]; intros nt; simpl; [done|].
  unfold send_pickle_prefixed. rewrite Hf. apply IH.
Qed.


(** C5. The handler receives a file header of declared size [size]
    whose body follows on the stream.  The iteration reads exactly [size]
    bytes after the header (what is left of the stream starts right after
    them), and every other item of the client list whose send does not
    fail has received the framed header followed by exactly those [size]
    bytes; every other connection has received nothing.  The header and
    the body go to the same peers: the list is read once, before the
    header is sent. *)
Theorem file_relay_exact
    (meet_id : value) (a : addr) (msg : pyobj) (size : Z) (bytes input : list byte)
    (st : state) (nt : net) :
  let peers := default [] (dict_get meet_id (meet_general_clients st)) in
  obj_get msg "msg_type" VNone = Some (VStr "file") →
  obj_get msg "size" (VInt 0) = Some (VInt size) →
  0 ≤ size ≤ len input →
  framed pickle_dumps msg = Some bytes →
  NoDup (p_conn <$> peers) →
  ∃ nt', relay_message pickle_dumps meet_id a msg input st nt
         = Some (drop (Z.to_nat size) input, nt', false)
         ∧ (∀ p, p ∈ peers → p_addr p ≠ a → p_conn p ∉ broken nt →
                 delivered nt' (p_conn p)
                 = delivered nt (p_conn p) ++ bytes ++ take (Z.to_nat size) input)
         ∧ (∀ c, c ∉ targets a peers ∨ c ∈ broken nt →
                 delivered nt' c = delivered nt c).
Proof.
  intros peers Hty Hsz Hr Hf Hnd.
  assert (Hnd' : NoDup (targets a peers)).
  { unfold targets. eapply sublist_NoDup; [exact Hnd|].
    apply fmap_sublist, sublist_filter. }
  unfold relay_message. fold peers. rewrite Hty, Hsz.
  rewrite bool_decide_eq_true_2 by done.
  rewrite (broadcast_msg_framed _ _ bytes) by done.
  destruct (relay_file_spec a peers (Z.to_nat size) size input
              (broadcast_chunk a bytes peers nt)) as (nt' & -> & Hb & Hd);
    [done|done|done|].
  exists nt'. split; [done|].
  assert (Hall : ∀ c, delivered nt' c
                      = delivered nt c
                        ++ (if decide (c ∈ targets a peers ∧ c ∉ broken nt)
                            then bytes ++ take (Z.to_nat size) input else [])).
  { intros c. rewrite Hd, broadcast_chunk_delivered, broadcast_chunk_broken by done.
    rewrite <- app_assoc. f_equal. by destruct (decide _). }
  split.
  - intros p Hp Hne Hbr. rewrite Hall, decide_True; [done|].
    split; [|done]. apply list_elem_of_fmap. exists p. split; [done|].
    by apply list_elem_of_filter.
  - intros c Hc. rewrite Hall.
    destruct (decide _) as [[? ?]|_]; [by destruct Hc | by rewrite app_nil_r].
Qed.

(** *** The handler terminates *)

Lemma recv_exact_rest input n r rest :
  recv_exact input n = (r, rest) →
  (length rest ≤ length input)%nat
  ∧ ∀ b bs, r = Some (b :: bs) → (length rest < length input)%nat.
Proof.
  unfold recv_exact. destruct (n <=? 0) eqn:Hn; [|destruct (n <=? len input) eqn:Hl].
  - intros [= <- <-]. split; [done|]. by intros b bs [=].
  - intros [= <- <-]. apply Z.leb_gt in Hn. apply Z.leb_le in Hl. unfold len in Hl.
    rewrite length_drop. split; [lia|]. intros _ _ _. lia.
  - intros [= <- <-]. split; [simpl; lia|]. by intros b bs [=].
Qed.

Lemma recv_pickle_prefixed_rest input msg rest :
  recv_pickle_prefixed pickle_loads input = (Ret msg, rest) →
  msg ≠ PyVal VNone → (length rest < length input)%nat.
Proof.
  unfold recv_pickle_prefixed.
  destruct (recv_exact input 4) as [[[|b hdr]|] rest1] eqn:E1;
    [by intros [= <- _] | | by intros [= <- _]].
  apply recv_exact_rest in E1 as [_ H1]. specialize (H1 b hdr eq_refl).
  destruct (unpack_u32 (b :: hdr)) as [ln|]; [|done].
  destruct (recv_exact rest1 ln) as [[[|b2 payload]|] rest2] eqn:E2;
    [by intros [= <- _] | | by intros [= <- _]].
  apply recv_exact_rest in E2 as [H2 _].
  destruct (pickle_loads (b2 :: payload)); [|done].
  intros [= _ <-] _. lia.
Qed.

Lemma relay_file_total a peers : ∀ fuel remaining input nt,
  (Z.to_nat remaining ≤ fuel)%nat →
  ∃ rest nt', relay_file fuel a peers remaining input nt = Some (rest, nt')
              ∧ (length rest ≤ length input)%nat.
Proof.
  induction fuel as [|fuel IH]; intros remaining input nt Hfuel; cbn [relay_file];
    destruct (remaining <=? 0) eqn:Hz; eauto; apply Z.leb_gt in Hz; [lia|].
  destruct (recv_exact input (Z.min 1024 remaining)) as [[[|b chunk]|] rest1] eqn:E;
    pose proof (recv_exact_rest _ _ _ _ E) as [Hle _]; eauto.
  destruct (IH (remaining - len (b :: chunk)) rest1
              (broadcast_chunk a (b :: chunk) peers nt)) as (rest & nt' & -> & Hr).
  - unfold len. simpl. lia.
  - exists rest, nt'. split; [done | lia].
Qed.

Lemma relay_message_total meet_id a msg input st nt :
  ∃ rest nt' raised,
    relay_message pickle_dumps meet_id a msg input st nt = Some (rest, nt', raised)
    ∧ (length rest ≤ length input)%nat.
Proof.
  unfold relay_message. destruct (obj_get msg "msg_type" VNone) as [ty|]; [|eauto 6].
  case_bool_decide; [|eauto 6].
  destruct (obj_get msg "size" (VInt 0)) as [[|size|]|]; eauto 6.
  destruct (relay_file_total a
              (default [] (dict_get meet_id (meet_general_clients st)))
              (Z.to_nat size) size input
              (broadcast_msg pickle_dumps a msg
                 (default [] (dict_get meet_id (meet_general_clients st))) nt))
    as (rest & nt' & -> & Hr); [done|].
  simpl. eauto 6.
Qed.

(** With more fuel than bytes on the stream the relay loop ends by
    itself: every turn that goes on has consumed a message. *)
Lemma relay_loop_total meet_id a st : ∀ fuel input nt,
  (length input < fuel)%nat →
  is_Some (relay_loop pickle_loads pickle_dumps fuel meet_id a input st nt).
Proof.
  induction fuel as [|fuel IH]; intros input nt Hfuel; [lia|]. cbn [relay_loop].
  destruct (recv_pickle_prefixed pickle_loads input) as [[|msg] rest] eqn:E; [eauto|].
  case_bool_decide as Hmsg; [eauto|].
  apply recv_pickle_prefixed_rest in E; [|done].
  destruct (relay_message_total meet_id a msg rest st nt)
    as (rest' & nt' & raised & -> & Hr).
  simpl. destruct raised; [eauto|]. apply IH. lia.
Qed.

Lemma handle_general_total fuel c a input st nt :
  (length input < fuel)%nat →
  is_Some (handle_general pickle_loads pickle_dumps fuel c a input st nt).
Proof.
  intros Hfuel. unfold handle_general.
  destruct (handshake pickle_loads c a input st nt)
    as [nt' rest|u m v au st1 rest] eqn:E; [eauto|].
  assert (Hrest : (length rest ≤ length input)%nat).
  { revert E. unfold handshake.
    destruct (recv_pickle_prefixed pickle_loads input) as [[|info] rest0] eqn:Er; [done|].
    destruct (negb (obj_truthy info)) eqn:Ht; [done|].
    destruct (obj_get info "username" VNone), (obj_get info "meet_id" VNone),
      (obj_get info "video_udp_port" VNone), (obj_get info "audio_udp_port" VNone);
      try done.
    intros [= _ _ _ _ _ <-].
    apply recv_pickle_prefixed_rest in Er; [lia|].
    intros ->. done. }
  destruct (relay_loop_total m a st1 fuel rest nt) as [[rest' nt'] ->]; [lia|].
  simpl. eauto.
Qed.

(** A first message on which the handshake registers nothing: the stream
    ends before a whole message (or the message is empty), the payload
    does not unpickle, or it unpickles to a falsy value or to something
    that is no dictionary. *)
Definition bad_first_message (input : list byte) : Prop :=
  match recv_pickle_prefixed pickle_loads input with
  | (Raise, _) => True
  | (Ret info, _) => obj_truthy info = false ∨ ∃ v, info = PyVal v
  end.

(** The connection from [a] is new: the client lists have distinct keys,
    and the list filed under [None], if any, is not empty and has no item
    for [a]. *)
Definition new_connection (a : addr) (st : state) : Prop :=
  NoDup (meet_general_clients st).*1
  ∧ ∀ l, dict_get VNone (meet_general_clients st) = Some l →
         l ≠ [] ∧ Forall (λ p, p_addr p ≠ a) l.

Lemma deregister_None_new a st : new_connection a st → deregister VNone a st = st.
Proof.
  intros [Hnd Hl]. unfold deregister. simpl.
  destruct (dict_get VNone (meet_general_clients st)) as [l|] eqn:E.
  - destruct (Hl l eq_refl) as [Hne Hall].
    assert (Hfil : filter (λ x, p_addr x ≠ a) l = l) by (by apply VideoRelay.filter_all).
    rewrite Hfil. rewrite bool_decide_eq_false_2 by done.
    rewrite dict_set_id by done. by destruct st.
  - by destruct st.
Qed.

(** C3, amended.  When the first message on a new control connection
    cannot be read in full, is empty, does not unpickle, or unpickles to
    a falsy value or to a non-dictionary, the handler runs to its end
    with the registry exactly as before, the connection closed and
    nothing written to any connection.  A non-empty dictionary, on the
    other hand, is registered with no check of its fields: a missing
    username, meeting id or port is taken to be [None]. *)
Theorem bad_handshake_no_registration
    (fuel : nat) (c : conn) (a : addr) (input : list byte) (st : state) (nt : net) :
  new_connection a st →
  (bad_first_message input →
   ∃ nt' rest,
     handle_general pickle_loads pickle_dumps fuel c a input st nt
     = Some (st, nt', rest)
     ∧ c ∈ closed nt' ∧ outbox nt' = outbox nt)
  ∧ (∀ d rest,
       recv_pickle_prefixed pickle_loads input = (Ret (PyDict d), rest) → d ≠ ∅ →
       handshake pickle_loads c a input st nt
       = Accepted (default VNone (d !! "username")) (default VNone (d !! "meet_id"))
                  (default VNone (d !! "video_udp_port"))
                  (default VNone (d !! "audio_udp_port"))
                  (register c a (default VNone (d !! "username"))
                            (default VNone (d !! "meet_id"))
                            (default VNone (d !! "video_udp_port"))
                            (default VNone (d !! "audio_udp_port")) st)
                  rest).
Proof.
  intros Hnew. split.
  - unfold bad_first_message, handle_general, handshake.
    destruct (recv_pickle_prefixed pickle_loads input) as [[|info] rest].
    + intros _. exists (close c nt), rest.
      rewrite deregister_None_new by done. split_and!; [done| |done].
      simpl. apply elem_of_union_l, elem_of_singleton. done.
    + intros [Hfalsy|[v ->]].
      * rewrite Hfalsy. simpl. exists (close c (close c nt)), rest.
        rewrite deregister_None_new by done. split_and!; [done| |done].
        simpl. apply elem_of_union_l, elem_of_singleton. done.
      * destruct (negb (obj_truthy (PyVal v))); simpl.
        -- exists (close c (close c nt)), rest.
           rewrite deregister_None_new by done. split_and!; [done| |done].
           simpl. apply elem_of_union_l, elem_of_singleton. done.
        -- exists (close c nt), rest.
           rewrite deregister_None_new by done. split_and!; [done| |done].
           simpl. apply elem_of_union_l, elem_of_singleton. done.
  - intros d rest Hrecv Hd. unfold handshake. rewrite Hrecv. simpl.
    by rewrite bool_decide_eq_false_2.
Qed.

End pickle.

(** *** Examples on a stand-in for [pickle] *)

(** Three byte strings with the objects they stand for. *)
Definition hello_without_meeting : pyobj :=
  PyDict {[ "username" := VStr "bob"; "video_udp_port" := VInt 5000 ]}.
Definition chat_message : pyobj :=
  PyDict {[ "msg_type" := VStr "chat"; "username" := VStr "A"; "message" := VStr "hi" ]}.
Definition file_header : pyobj :=
  PyDict {[ "msg_type" := VStr "file"; "username" := VStr "A";
            "filename" := VStr "f"; "size" := VInt 3 ]}.

Definition demo_loads (payload : list byte) : option pyobj :=
  match payload with
  | [x01] => Some hello_without_meeting
  | [x02] => Some chat_message
  | [x03] => Some file_header
  | _ => None
  end.

Definition demo_dumps (o : pyobj) : list byte :=
  if decide (o = hello_without_meeting) then [x01]
  else if decide (o = chat_message) then [x02]
  else if decide (o = file_header) then [x03]
  else [x00].

Definition quiet_net : net := {| outbox := ∅; broken := ∅; closed := ∅ |}.

Definition A_control : addr := ("10.0.0.1"%string, VInt 40001).
Definition B_control : addr := ("10.0.0.2"%string, VInt 40002).

Lemma room1_clients :
  default [] (dict_get (VStr "Room1") (meet_general_clients Room1.registry))
  = [Participant 1%nat A_control (VStr "A"); Participant 2%nat B_control (VStr "B")].
Proof. reflexivity. Qed.

(** The registry a handshake led to, when it registered. *)
Definition registered (h : handshake_result) : option state :=
  match h with
  | Accepted _ _ _ _ st1 _ => Some st1
  | Rejected _ _ => None
  end.

(** The registry a handler left behind. *)
Definition left_behind (r : option (state * net * list byte)) : option state :=
  '(st, _, _) ← r; Some st.

(** C3, as stated, fails.  The first message is a handshake without
    meeting id: the handler registers the participant under the meeting
    [None], with its video address and reverse entries, and goes on to
    the relay loop; the reverse entry is still there when the handler has
    ended, because the [finally] block skips the UDP registrations of a
    falsy meeting id. *)
Lemma handshake_missing_field_counterexample :
  let a : addr := ("10.0.0.9"%string, VInt 41000) in
  let video : addr := ("10.0.0.9"%string, VInt 5000) in
  let input := [x00; x00; x00; x01; x01] in
  let shaken := registered (handshake demo_loads 7%nat a input initial_state quiet_net) in
  let ended := left_behind (handle_general demo_loads demo_dumps 1%nat 7%nat a input
                                           initial_state quiet_net) in
  recv_pickle_prefixed demo_loads input = (Ret hello_without_meeting, [])
  ∧ obj_get hello_without_meeting "meet_id" VNone = Some VNone
  ∧ (st1 ← shaken; dict_get VNone (meet_general_clients st1))
    = Some [Participant 7%nat a (VStr "bob")]
  ∧ (st1 ← shaken; udp_to_meet st1 !! video) = Some VNone
  ∧ (st' ← ended; udp_to_meet st' !! video) = Some VNone
  ∧ udp_to_meet initial_state !! video = None.
Proof. split_and!; vm_compute; reflexivity. Qed.

(** The peer closes at once: nothing is registered in "Room1". *)
Lemma bad_handshake_no_registration_witness :
  let a : addr := ("10.0.0.9"%string, VInt 41000) in
  new_connection a Room1.registry
  ∧ bad_first_message demo_loads []
  ∧ ∃ nt' rest,
      handle_general demo_loads demo_dumps 1%nat 7%nat a [] Room1.registry quiet_net
      = Some (Room1.registry, nt', rest).
Proof.
  intros a.
  assert (Hnew : new_connection a Room1.registry).
  { split.
    - apply dict_set_NoDup, dict_set_NoDup. constructor.
    - intros l Hl. exfalso. revert Hl.
      change (meet_general_clients Room1.registry)
        with (dict_set (VStr "Room1")
                (default [] (dict_get (VStr "Room1")
                   (dict_set (VStr "Room1") ([] ++ [Participant 1%nat A_control (VStr "A")]) []))
                 ++ [Participant 2%nat B_control (VStr "B")])
                (dict_set (VStr "Room1") ([] ++ [Participant 1%nat A_control (VStr "A")]) [])).
      by rewrite !dict_get_set_ne. }
  assert (Hbad : bad_first_message demo_loads []) by (by left).
  split_and!; [done..|].
  destruct (bad_handshake_no_registration demo_loads demo_dumps 1%nat 7%nat a []
              Room1.registry quiet_net Hnew) as [H _].
  destruct (H Hbad) as (nt' & rest & E & _). eauto.
Defined.


(** A three-byte file from A in "Room1": B receives the header and then
    the three bytes; the fourth byte of the stream is left unread. *)
Lemma file_relay_exact_witness :
  let hdr := [x00; x00; x00; x01; x03] in
  framed demo_dumps file_header = Some hdr
  ∧ ∃ nt', relay_message demo_dumps (VStr "Room1") A_control file_header
                         [x61; x62; x63; x64] Room1.registry quiet_net
           = Some ([x64], nt', false)
           ∧ delivered nt' 2%nat = hdr ++ [x61; x62; x63].
Proof.
  intros hdr.
  assert (Hf : framed demo_dumps file_header = Some hdr) by (vm_compute; reflexivity).
  split; [done|].
  destruct (file_relay_exact demo_dumps (VStr "Room1") A_control file_header 3 hdr
              [x61; x62; x63; x64] Room1.registry quiet_net)
    as (nt' & E & Hpeer & _).
  - vm_compute. reflexivity.
  - vm_compute. reflexivity.
  - vm_compute. split; discriminate.
  - done.
  - rewrite room1_clients. apply NoDup_cons. split; [|apply NoDup_singleton].
    by intros ?%list_elem_of_singleton.
  - exists nt'. split; [exact E|].
    apply (Hpeer (Participant 2%nat B_control (VStr "B"))).
    + rewrite room1_clients. right. left.
    + done.
    + apply not_elem_of_empty.
Defined.

End Control.

(* ===================================================================== *)
(** ** Wire formats: headers and framed messages *)
(* ===================================================================== *)

Module Wire.
Import Struct Py Server Control.

Lemma byte_of_Z_of_byte b : byte_of_Z (Z_of_byte b) = b.
Proof.
  unfold byte_of_Z, Z_of_byte. pose proof (Byte.to_N_bounded b).
  rewrite Z.mod_small by lia. rewrite N2Z.id. by rewrite Byte.of_to_N.
Qed.

Lemma byte_of_Z_low hi lo : 0 ≤ lo < 256 → byte_of_Z (hi * 256 + lo) = byte_of_Z lo.
Proof.
  intros Hlo. unfold byte_of_Z.
  replace ((hi * 256 + lo) mod 256) with (lo mod 256); [done|].
  rewrite Z.add_comm, Z.mod_add by lia. done.
Qed.

Lemma div_256 hi lo : 0 ≤ lo < 256 → (hi * 256 + lo) / 256 = hi.
Proof. intros Hlo. rewrite Z.add_comm, Z.div_add by lia. rewrite Z.div_small; lia. Qed.

Lemma pack_unpack_u16 a b :
  pack_u16 (be_value [a; b]) = Some [a; b] ∧ 0 ≤ be_value [a; b] < 2 ^ 16.
Proof.
  rewrite be_value_2. pose proof (Z_of_byte_range a). pose proof (Z_of_byte_range b).
  assert (Hr : 0 ≤ Z_of_byte a * 256 + Z_of_byte b < 2 ^ 16) by lia.
  split; [|done]. unfold pack_u16. rewrite decide_True by done.
  change (2 ^ 8) with 256.
  by rewrite div_256, byte_of_Z_low, !byte_of_Z_of_byte.
Qed.

Lemma pack_unpack_u32 a b c d :
  pack_u32 (be_value [a; b; c; d]) = Some [a; b; c; d]
  ∧ 0 ≤ be_value [a; b; c; d] < 2 ^ 32.
Proof.
  rewrite be_value_4.
  pose proof (Z_of_byte_range a). pose proof (Z_of_byte_range b).
  pose proof (Z_of_byte_range c). pose proof (Z_of_byte_range d).
  set (x := ((Z_of_byte a * 256 + Z_of_byte b) * 256 + Z_of_byte c) * 256 + Z_of_byte d).
  assert (Hr : 0 ≤ x < 2 ^ 32) by (subst x; lia).
  split; [|done]. unfold pack_u32. rewrite decide_True by done.
  change (2 ^ 8) with 256.
  change (2 ^ 16) with (256 * 256). change (2 ^ 24) with (256 * 256 * 256).
  rewrite <- !Z.div_div by lia. subst x.
  by rewrite !div_256, !byte_of_Z_low, !byte_of_Z_of_byte.
Qed.

(** X1. The video header codec ([struct.pack] / [struct.unpack] with
    [">IHH"]) is a bijection between the triples in range and the 8-byte
    strings: packing succeeds exactly on a frame id below 2^32 and a total
    and an index below 2^16, what it packs has 8 bytes and unpacks to the
    same triple, and every 8-byte string unpacks to a triple in range
    that packs back to it; any other length is refused. *)
Theorem video_hdr_codec :
  (∀ f t i, is_Some (pack_video_hdr f t i)
            ↔ 0 ≤ f < 2 ^ 32 ∧ 0 ≤ t < 2 ^ 16 ∧ 0 ≤ i < 2 ^ 16)
  ∧ (∀ f t i hdr, pack_video_hdr f t i = Some hdr →
                  len hdr = VIDEO_HDR_SIZE ∧ unpack_video_hdr hdr = Some (f, t, i))
  ∧ (∀ hdr, len hdr = VIDEO_HDR_SIZE →
            ∃ f t i, unpack_video_hdr hdr = Some (f, t, i)
                     ∧ pack_video_hdr f t i = Some hdr)
  ∧ (∀ hdr, len hdr ≠ VIDEO_HDR_SIZE → unpack_video_hdr hdr = None).
Proof.
  split_and!.
  - intros f t i. split.
    + intros [hdr Hp]. unfold pack_video_hdr, pack_u32, pack_u16 in Hp.
      repeat case_decide; try done.
    + intros (Hf & Ht & Hi). by apply pack_video_hdr_Some.
  - intros f t i hdr Hp. apply unpack_pack_video_hdr in Hp as [Hl Hu].
    split; [|done]. unfold len, VIDEO_HDR_SIZE. by rewrite Hl.
  - intros hdr Hl. unfold len, VIDEO_HDR_SIZE in Hl.
    destruct hdr as [|a [|b [|c [|d [|e [|f [|g [|h [|? ?]]]]]]]]]; simpl in Hl; try lia.
    exists (be_value [a; b; c; d]), (be_value [e; f]), (be_value [g; h]).
    split; [done|]. unfold pack_video_hdr.
    destruct (pack_unpack_u32 a b c d) as [-> _].
    destruct (pack_unpack_u16 e f) as [-> _].
    by destruct (pack_unpack_u16 g h) as [-> _].
  - intros hdr Hl. unfold unpack_video_hdr. rewrite decide_False; [done|].
    unfold len, VIDEO_HDR_SIZE in Hl. lia.
Qed.

(** *** The receive loop of [recv_exact] *)

(** [conn.recv(k)] for [k > 0] on a stream whose peer still sends
    [input] and then closes: TCP hands over at least one and at most [k]
    of the pending bytes, as many as [cut] says within these bounds;
    nothing is pending only at the end of the stream. *)
Definition recv (input : list byte) (k : Z) (cut : nat) : list byte * list byte :=
  let m := Nat.max 1 (Nat.min cut (Z.to_nat k)) in
  (take m input, drop m input).

(** The loop of [recv_exact] as written (lines 36-43 of the server, the
    same in the client), [data] being what it holds so far; [cuts] are
    the sizes TCP chooses for the successive [recv] calls. *)
Fixpoint recv_exact_loop (fuel : nat) (cuts : list nat) (data input : list byte)
    (n : Z) : option (option (list byte) * list byte) :=
  if len data <? n
  then match fuel with
       | O => None
       | S fuel' =>
           let '(p, input') := recv input (n - len data) (hd 1%nat cuts) in
           if bool_decide (p = []) then Some (None, input')
           else recv_exact_loop fuel' (tl cuts) (data ++ p) input' n
       end
  else Some (Some data, input).

Lemma recv_exact_loop_spec fuel : ∀ cuts data input n,
  n - len data ≤ Z.of_nat fuel →
  recv_exact_loop fuel cuts data input n
  = Some (if n <=? len data then (Some data, input)
          else if n - len data <=? len input
               then (Some (data ++ take (Z.to_nat (n - len data)) input),
                     drop (Z.to_nat (n - len data)) input)
               else (None, [])).
Proof.
  induction fuel as [|fuel IH]; intros cuts data input n Hfuel.
  - simpl. destruct (Z.ltb_spec (len data) n); [lia|].
    by rewrite (proj2 (Z.leb_le _ _)) by lia.
  - cbn [recv_exact_loop]. destruct (Z.ltb_spec (len data) n) as [Hlt|Hge].
    2: { by rewrite (proj2 (Z.leb_le _ _)) by lia. }
    rewrite (proj2 (Z.leb_gt _ _)) by lia.
    unfold recv. set (m := Nat.max 1 (Nat.min (hd 1%nat cuts) (Z.to_nat (n - len data)))).
    assert (Hm : (1 ≤ m ≤ Z.to_nat (n - len data))%nat) by lia.
    clearbody m.
    destruct input as [|b input].
    + rewrite take_nil, drop_nil, bool_decide_eq_true_2 by done.
      rewrite (proj2 (Z.leb_gt _ _)); [done|]. unfold len in *. simpl. lia.
    + rewrite bool_decide_eq_false_2
        by (destruct m; [lia | done]).
      rewrite IH by (unfold len in *; rewrite length_app, length_take; simpl length; lia).
      set (inp := b :: input) in *.
      assert (Hl : len (data ++ take m inp) = len data + Z.of_nat (Nat.min m (length inp))).
      { unfold len. rewrite length_app, length_take. lia. }
      rewrite Hl. clear Hl. unfold len in *. clearbody inp.
      destruct (Z.leb_spec (n - Z.of_nat (length data)) (Z.of_nat (length inp))) as [Hle|Hgt].
      * rewrite Nat.min_l by lia.
        destruct (Z.leb_spec n (Z.of_nat (length data) + Z.of_nat m)) as [H1|H1].
        -- assert (Hmm : m = Z.to_nat (n - Z.of_nat (length data))) by (clear IH; lia). rewrite <- Hmm. done.
        -- rewrite (proj2 (Z.leb_le _ _)) by (rewrite length_drop; lia).
           replace (Z.to_nat (n - (Z.of_nat (length data) + Z.of_nat m)))
             with (Z.to_nat (n - Z.of_nat (length data)) - m)%nat by lia.
           rewrite <- app_assoc, take_take_drop, drop_drop.
           by replace (m + (Z.to_nat (n - Z.of_nat (length data)) - m))%nat
             with (Z.to_nat (n - Z.of_nat (length data))) by lia.
      * rewrite (proj2 (Z.leb_gt _ _)) by lia.
        rewrite (proj2 (Z.leb_gt _ _)); [done|].
        rewrite length_drop. lia.
Qed.

(** X2. However TCP cuts the stream into [recv] results, the loop of
    [recv_exact] ends within [n] calls with the result of the closed form
    [recv_exact]: the first [n] bytes of the stream, the rest left unread;
    [None], with the stream read to its end, when fewer than [n] bytes come
    before the peer closes; the empty string, without a read, for
    [n <= 0]. *)
Theorem recv_exact_any_segmentation (cuts : list nat) (input : list byte) (n : Z) :
  let r := recv_exact_loop (Z.to_nat n) cuts [] input n in
  r = Some (recv_exact input n)
  ∧ (0 < n ≤ len input →
     r = Some (Some (take (Z.to_nat n) input), drop (Z.to_nat n) input))
  ∧ (len input < n → r = Some (None, []))
  ∧ (n ≤ 0 → r = Some (Some [], input)).
Proof.
  intros r.
  assert (Hr : r = Some (recv_exact input n)).
  { unfold r. rewrite recv_exact_loop_spec by (unfold len; simpl; lia).
    unfold recv_exact. change (len []) with 0. rewrite Z.sub_0_r. simpl app.
    by destruct (Z.leb_spec n 0). }
  rewrite Hr. clear r Hr. unfold recv_exact, len.
  pose proof (Nat2Z.is_nonneg (length input)).
  split_and!; [done|intros [H1 H2]|intros H1|intros H1].
  - by rewrite (proj2 (Z.leb_gt _ _)), (proj2 (Z.leb_le _ _)) by lia.
  - by rewrite (proj2 (Z.leb_gt _ _)), (proj2 (Z.leb_gt _ _)) by lia.
  - by rewrite (proj2 (Z.leb_le _ _)) by lia.
Qed.

(** *** Framed messages *)

Section pickle.
Variable pickle_loads : list byte → option pyobj.
Variable pickle_dumps : pyobj → list byte.

Lemma unpack_u32_packed x bs : pack_u32 x = Some bs → unpack_u32 bs = Some x.
Proof.
  intros [Hl Hv]%unpack_pack_u32. unfold unpack_u32.
  rewrite decide_True by done. by rewrite Hv.
Qed.

Lemma framed_inv obj bytes :
  framed pickle_dumps obj = Some bytes →
  ∃ hdr, pack_u32 (len (pickle_dumps obj)) = Some hdr
         ∧ length hdr = 4%nat ∧ bytes = hdr ++ pickle_dumps obj.
Proof.
  unfold framed. destruct (pack_u32 _) as [hdr|] eqn:Hh; [|done].
  intros [= <-]. exists hdr. split_and!; [done| |done].
  unfold pack_u32 in Hh. case_decide; [|done]. by injection Hh as <-.
Qed.

Lemma recv_exact_app (pre rest : list byte) :
  pre ≠ [] → recv_exact (pre ++ rest) (len pre) = (Some pre, rest).
Proof.
  intros Hne. unfold recv_exact, len.
  rewrite (proj2 (Z.leb_gt _ _)) by (destruct pre; [done | simpl; lia]).
  rewrite (proj2 (Z.leb_le _ _)) by (rewrite length_app; lia).
  by rewrite Nat2Z.id, take_app_length, drop_app_length.
Qed.

(** What [recv_pickle_prefixed] makes of a framed message followed by
    [rest]. *)
Lemma recv_framed obj bytes rest :
  framed pickle_dumps obj = Some bytes →
  recv_pickle_prefixed pickle_loads (bytes ++ rest)
  = if decide (pickle_dumps obj = []) then (Ret (PyVal VNone), rest)
    else match pickle_loads (pickle_dumps obj) with
         | Some o => (Ret o, rest)
         | None => (Raise, rest)
         end.
Proof.
  intros (hdr & Hh & Hl & ->)%framed_inv. unfold recv_pickle_prefixed.
  rewrite <- app_assoc.
  destruct hdr as [|b0 [|b1 [|b2 [|b3 [|? ?]]]]]; try done.
  rewrite (recv_exact_app [b0; b1; b2; b3]) by done.
  rewrite (unpack_u32_packed _ _ Hh).
  destruct (decide (pickle_dumps obj = [])) as [->|Hne]; [done|].
  rewrite recv_exact_app by done.
  by destruct (pickle_dumps obj).
Qed.

(** X3. A message written by [send_pickle_prefixed] is read back by
    [recv_pickle_prefixed]: when the pickle is not empty, shorter than
    2^32 bytes and loads back to the object, and the send does not fail,
    the connection has received the four-byte length and the pickle, and
    a reader of these bytes gets the object and is left at the first byte
    after the message. *)
Theorem send_recv_round_trip (c : conn) (obj : pyobj) (nt : net) (rest : list byte) :
  c ∉ broken nt →
  0 < len (pickle_dumps obj) < 2 ^ 32 →
  pickle_loads (pickle_dumps obj) = Some obj →
  ∃ hdr nt',
    send_pickle_prefixed pickle_dumps c obj nt = (nt', false)
    ∧ unpack_u32 hdr = Some (len (pickle_dumps obj))
    ∧ delivered nt' c = delivered nt c ++ hdr ++ pickle_dumps obj
    ∧ recv_pickle_prefixed pickle_loads (hdr ++ pickle_dumps obj ++ rest) = (Ret obj, rest).
Proof.
  intros Hc Hlen Hload.
  destruct (pack_u32_Some (len (pickle_dumps obj))) as [hdr Hh]; [lia|].
  assert (Hf : framed pickle_dumps obj = Some (hdr ++ pickle_dumps obj))
    by (unfold framed; by rewrite Hh).
  exists hdr, (sendall c (hdr ++ pickle_dumps obj) nt).1.
  split_and!.
  - unfold send_pickle_prefixed. rewrite Hf. unfold sendall.
    by rewrite bool_decide_eq_false_2.
  - by apply unpack_u32_packed.
  - rewrite sendall_delivered, decide_True by done. done.
  - rewrite app_assoc, (recv_framed obj _ rest Hf), decide_False, Hload; [done|].
    intros E. rewrite E in Hlen. unfold len in Hlen. simpl in Hlen. lia.
Qed.

(** X4. A message cut short is never delivered: of the bytes of a framed
    message, any proper prefix followed by the end of the stream makes
    [recv_pickle_prefixed] return [None] with the stream read to its
    end; and a frame of length zero is read as [None] as well, although
    the stream goes on. *)
Theorem truncated_frame_is_end_of_stream (obj : pyobj) (bytes : list byte) (k : nat) :
  framed pickle_dumps obj = Some bytes →
  (k < length bytes)%nat →
  recv_pickle_prefixed pickle_loads (take k bytes) = (Ret (PyVal VNone), [])
  ∧ ∀ rest, recv_pickle_prefixed pickle_loads ([x00; x00; x00; x00] ++ rest)
            = (Ret (PyVal VNone), rest).
Proof.
  intros (hdr & Hh & Hl & ->)%framed_inv Hk. split.
  2: { intros rest. unfold recv_pickle_prefixed.
       pose proof (recv_exact_app [x00; x00; x00; x00] rest ltac:(done)) as E.
       change (len _) with 4 in E. by rewrite E. }
  unfold recv_pickle_prefixed.
  destruct (decide (k < 4)%nat) as [Hk4|Hk4].
  - unfold recv_exact. change (4 <=? 0) with false. cbv iota.
    rewrite (proj2 (Z.leb_gt _ _)); [done|].
    unfold len. rewrite length_take. lia.
  - rewrite take_app_ge by lia. rewrite Hl.
    destruct hdr as [|b0 [|b1 [|b2 [|b3 [|? ?]]]]]; try done.
    rewrite (recv_exact_app [b0; b1; b2; b3]) by done.
    rewrite (unpack_u32_packed _ _ Hh).
    rewrite length_app, Hl in Hk.
    unfold recv_exact at 1.
    rewrite (proj2 (Z.leb_gt _ _)) by (unfold len; lia).
    rewrite (proj2 (Z.leb_gt _ _)); [done|].
    unfold len. rewrite length_take. lia.
Qed.

End pickle.

(** The chat message of the examples goes through a connection. *)
Lemma send_recv_round_trip_witness :
  ∃ hdr nt',
    send_pickle_prefixed demo_dumps 2%nat chat_message quiet_net = (nt', false)
    ∧ unpack_u32 hdr = Some (len (demo_dumps chat_message))
    ∧ delivered nt' 2%nat = delivered quiet_net 2%nat ++ hdr ++ demo_dumps chat_message
    ∧ recv_pickle_prefixed demo_loads (hdr ++ demo_dumps chat_message ++ [x07])
      = (Ret chat_message, [x07]).
Proof.
  apply (send_recv_round_trip demo_loads demo_dumps 2%nat chat_message quiet_net [x07]).
  - apply not_elem_of_empty.
  - vm_compute. split; reflexivity.
  - vm_compute. reflexivity.
Defined.

(** The five bytes of the chat message of the examples, cut after the
    length. *)
Lemma truncated_frame_is_end_of_stream_witness :
  framed demo_dumps chat_message = Some [x00; x00; x00; x01; x02]
  ∧ recv_pickle_prefixed demo_loads (take 4 [x00; x00; x00; x01; x02])
    = (Ret (PyVal VNone), []).
Proof.
  assert (Hf : framed demo_dumps chat_message = Some [x00; x00; x00; x01; x02])
    by (vm_compute; reflexivity).
  split; [done|].
  apply (truncated_frame_is_end_of_stream demo_loads demo_dumps chat_message _ 4 Hf).
  simpl. lia.
Defined.

End Wire.

(* ===================================================================== *)
(** ** The data plane: datagram sizes, what the listeners leave alone,
       frames that cannot complete, sweeper passes *)
(* ===================================================================== *)

Module DataPlane.
Import Struct Py Server FragmentProps Reassembly Sweeper VideoRelay.

(** *** Datagram sizes *)

Lemma part_of_length data i :
  0 ≤ i →
  len (part_of data i) = Z.max 0 (Z.min MAX_UDP_PAYLOAD (len data - i * MAX_UDP_PAYLOAD)).
Proof.
  intros Hi. rewrite <- (Z2Nat.id i) at 1 by done. rewrite part_of_nat.
  unfold len. rewrite length_take, length_drop. unfold MAX_UDP_PAYLOAD. lia.
Qed.

(** X5. The fragmentation loop of the senders and of the relay, for a
    frame id that fits 32 bits: [struct.pack] raises exactly when the
    buffer needs 2^16 fragments or more, and then before anything is
    sent; otherwise there is one datagram per fragment, each with the
    8-byte header and between 1 and [MAX_UDP_PAYLOAD] bytes of the
    buffer; an empty buffer sends nothing. *)
Theorem fragment_datagrams (fid : Z) (data : list byte) :
  0 ≤ fid < 2 ^ 32 →
  let pkts := (fragment fid data).1 in
  let raised := (fragment fid data).2 in
  (raised = true ↔ 2 ^ 16 ≤ fragment_count data)
  ∧ (raised = true → pkts = [])
  ∧ (raised = false → len pkts = fragment_count data)
  ∧ Forall (λ pkt, VIDEO_HDR_SIZE < len pkt ≤ VIDEO_HDR_SIZE + MAX_UDP_PAYLOAD) pkts
  ∧ (data = [] → pkts = []).
Proof.
  intros Hfid pkts raised.
  destruct (decide (fragment_count data < 2 ^ 16)) as [Hc|Hc].
  - destruct (fragment_ok fid data Hfid Hc) as (ps & E & Hf).
    subst pkts raised. rewrite E. simpl.
    pose proof (fragment_count_bounds data) as (Hc0 & Hc1 & Hc2).
    split_and!.
    + split; [done | lia].
    + done.
    + intros _. unfold len. rewrite <- (Forall2_length _ _ _ Hf).
      by apply range_length.
    + eapply Forall2_Forall_r; [exact Hf|].
      apply Forall_forall. intros i Hi%range_bounds pkt (hdr & Hh & ->).
      apply unpack_pack_video_hdr in Hh as [Hl _].
      assert (Hp := part_of_length data i ltac:(lia)).
      assert (Hlast : (fragment_count data - 1) * MAX_UDP_PAYLOAD < len data).
      { unfold fragment_count, MAX_UDP_PAYLOAD.
        pose proof (Z.mul_div_le (len data + 60000 - 1) 60000 ltac:(lia)). lia. }
      unfold len in *. rewrite length_app, Hl.
      unfold VIDEO_HDR_SIZE, MAX_UDP_PAYLOAD in *. nia.
    + intros ->. assert (fragment_count [] = 0) as E0 by done.
      rewrite E0 in Hf. by inversion Hf.
  - subst pkts raised. rewrite (fragment_raises fid data Hc). simpl.
    split_and!; [split; [lia|done]|done|done|constructor|done].
Qed.

(** A 150000-byte frame goes out as three datagrams. *)
Lemma fragment_datagrams_witness :
  0 ≤ 7 < 2 ^ 32 ∧ len (fragment 7 Room1.frame).1 = 3.
Proof.
  split; [lia|].
  destruct (fragment_datagrams 7 Room1.frame ltac:(lia)) as (Hr & _ & Hn & _).
  rewrite Room1.frame_count in Hr, Hn. apply Hn.
  apply not_true_is_false. intros E%Hr. lia.
Defined.

(** *** What the data plane leaves alone *)

(** The session registry of [st'] is that of [st]. *)
Definition same_registry (st st' : state) : Prop :=
  meet_general_clients st' = meet_general_clients st
  ∧ meet_video_addrs st' = meet_video_addrs st
  ∧ meet_audio_addrs st' = meet_audio_addrs st
  ∧ udp_to_meet st' = udp_to_meet st
  ∧ udp_to_user st' = udp_to_user st.

Lemma same_registry_refl st : same_registry st st.
Proof. by repeat split. Qed.

Lemma same_registry_trans st1 st2 st3 :
  same_registry st1 st2 → same_registry st2 st3 → same_registry st1 st3.
Proof.
  intros (?&?&?&?&?) (?&?&?&?&?). repeat split; congruence.
Qed.

Lemma same_registry_eq st st' :
  same_registry st st' → video_reassembly st' = video_reassembly st → st' = st.
Proof.
  destruct st, st'. unfold same_registry. simpl.
  intros (?&?&?&?&?) ?. by subst.
Qed.

Lemma listener_same_registry pkt sender clk st :
  same_registry st (vr_state (video_udp_listener pkt sender clk st)).
Proof.
  unfold video_udp_listener. destruct (_ || _); [apply same_registry_refl|].
  destruct (unpack_video_hdr _) as [[[f t] i]|]; [|apply same_registry_refl].
  unfold process_fragment.
  destruct (buffer_fragment _ _ _ _ _ _) as [entry1 clk1].
  destruct (complete entry1); [|by repeat split].
  destruct (mapM _ _) as [ps|]; [|by repeat split].
  match goal with |- context [relay_video ?k ?p ?s ?c ?st'] =>
    pose proof (relay_video_spec k p s c st') as (-> & _) end.
  by repeat split.
Qed.

Lemma step_same_registry ev clk st : same_registry st (vr_state (step ev clk st)).
Proof.
  destruct ev as [pkt sender|]; [apply listener_same_registry|].
  by repeat split.
Qed.

(** X6. The data plane never changes who is in which meeting: whatever
    datagrams the video listener receives and whenever the sweeper runs,
    the participant lists, the address sets and the reverse indexes after
    each event are those before the first one. *)
Theorem data_plane_keeps_registry (trace : list event) (clk : clock) (st : state) :
  Forall (λ r, same_registry st (vr_state r)) (run trace clk st).
Proof.
  revert clk st. induction trace as [|ev trace IH]; intros clk st; simpl; [constructor|].
  pose proof (step_same_registry ev clk st) as Hs.
  constructor; [done|].
  eapply Forall_impl; [apply IH|]. intros r Hr. by eapply same_registry_trans.
Qed.

(** *** Frames that cannot complete *)

(** The buffer holds a fragment under an index that [range(total)] does
    not reach. *)
Definition stray_index (e : entry) : Prop :=
  ∃ j, is_Some (parts e !! j) ∧ ¬ (0 ≤ j < total e).

(** With as many fragments as the total and one of them out of range, an
    index of the range is missing: the join raises [KeyError]. *)
Lemma stray_index_join e :
  stray_index e → complete e = true →
  mapM (λ i, parts e !! i) (range (total e)) = None.
Proof.
  intros (j & Hj & Hout) Hc. apply bool_decide_eq_true in Hc.
  destruct (mapM _ _) as [ps|] eqn:E; [|done]. exfalso.
  apply mapM_Some in E.
  assert (Hin : ∀ i, i ∈ range (total e) → i ∈ dom (parts e)).
  { intros i [n Hn]%list_elem_of_lookup. apply elem_of_dom.
    destruct (Forall2_lookup_l _ _ _ _ _ E Hn) as (p & _ & Hp). eauto. }
  assert (Hsub : {[ j ]} ∪ list_to_set (range (total e)) ⊆ dom (parts e)).
  { intros x [->%elem_of_singleton|Hx%elem_of_list_to_set]%elem_of_union.
    - by apply elem_of_dom.
    - by apply Hin. }
  apply subseteq_size in Hsub.
  rewrite size_union, size_singleton, size_list_to_set, size_dom in Hsub.
  - assert (0 ≤ total e) by lia.
    unfold range in Hsub. rewrite length_seqZ in Hsub. lia.
  - apply NoDup_seqZ.
  - intros x ->%elem_of_singleton Hx%elem_of_list_to_set.
    by apply range_bounds in Hx.
Qed.

(** X7. A fragment whose index is not below the total of its buffer (the
    total its own header declares, when it opens the buffer; so every
    fragment of a frame declared with zero fragments) blocks the frame:
    nothing is emitted or sent for it, the listener logs a [KeyError]
    when the count of fragments reaches the total, and the buffer stays
    with the stray index in it, so that the same holds for every later
    fragment of that key until a sweeper pass removes the buffer. *)
Theorem stray_index_blocks_frame
    (f t i : Z) (payload : list byte) (sender : addr) (clk : clock) (st : state) :
  let key := (sender, f) in
  let r := process_fragment f t i payload sender clk st in
  ¬ (0 ≤ i < from_option total t (video_reassembly st !! key))
  ∨ (∃ e, video_reassembly st !! key = Some e ∧ stray_index e) →
  vr_emitted r = None ∧ vr_sent r = []
  ∧ ∃ e1, video_reassembly (vr_state r) !! key = Some e1
          ∧ stray_index e1
          ∧ parts e1 !! i = Some payload
          ∧ total e1 = from_option total t (video_reassembly st !! key)
          ∧ vr_raised r = complete e1.
Proof.
  intros key r H. subst r. unfold process_fragment. fold key.
  assert (He1 : ∃ e1 clk1,
            buffer_fragment key t i payload clk st = (e1, clk1)
            ∧ stray_index e1 ∧ parts e1 !! i = Some payload
            ∧ total e1 = from_option total t (video_reassembly st !! key)).
  { unfold buffer_fragment.
    destruct (video_reassembly st !! key) as [e|] eqn:E; simpl in *.
    - eexists _, _. split; [done|]. simpl. rewrite lookup_insert_eq.
      split_and!; [|done|done].
      destruct H as [H|(e' & [= <-] & j & Hj & Hout)].
      + exists i. simpl. by rewrite lookup_insert_eq.
      + exists j. simpl. split; [|done].
        destruct (decide (i = j)) as [->|Hne];
          [by rewrite lookup_insert_eq | by rewrite lookup_insert_ne].
    - eexists _, _. split; [done|]. simpl. rewrite lookup_insert_eq.
      split_and!; [|done|done].
      destruct H as [H|(e' & [=] & _)].
      exists i. simpl. by rewrite lookup_insert_eq. }
  destruct He1 as (e1 & clk1 & -> & Hs & Hi & Ht).
  destruct (complete e1) eqn:Hc.
  - rewrite (stray_index_join e1 Hs Hc). simpl.
    split_and!; [done..|]. exists e1. by rewrite lookup_insert_eq.
  - simpl. split_and!; [done..|]. exists e1. by rewrite lookup_insert_eq.
Qed.

(** A first fragment with the header [(1, 2, 5)]: index 5 of 2. *)
Lemma stray_index_blocks_frame_witness :
  let r := process_fragment 1 2 5 [x01] Room1.A Room1.slow_clock initial_state in
  ¬ (0 ≤ 5 < from_option total 2 (video_reassembly initial_state !! (Room1.A, 1)))
  ∧ vr_emitted r = None ∧ vr_sent r = [].
Proof.
  intros r.
  assert (H : ¬ (0 ≤ 5 < from_option total 2
                             (video_reassembly initial_state !! (Room1.A, 1))))
    by (change (video_reassembly initial_state) with (∅ : gmap (addr * Z) entry);
        rewrite lookup_empty; simpl; lia).
  split; [exact H|].
  destruct (stray_index_blocks_frame 1 2 5 [x01] Room1.A Room1.slow_clock
              initial_state (or_introl H)) as (He & Hs & _).
  by split.
Defined.

(** *** Sweeper passes *)

Lemma expired_mono now1 now2 e :
  (now1 <= now2)%Q → expired now1 e = true → expired now2 e = true.
Proof.
  rewrite !expired_iff. intros Hle H.
  eapply Qlt_le_trans; [exact H|]. unfold Qminus.
  apply Qplus_le_compat; [done | apply Qle_refl].
Qed.

Lemma cleanup_same_registry now st :
  same_registry st (cleanup_old_reassembly now st).
Proof. by repeat split. Qed.

(** X8. Sweeper passes compose: a pass at [now1] and a pass at a later or
    equal time [now2], in either order, leave what the pass at [now2]
    alone leaves; in particular a second pass at the same time changes
    nothing. *)
Theorem sweeper_passes_compose (now1 now2 : Q) (st : state) :
  (now1 <= now2)%Q →
  cleanup_old_reassembly now2 (cleanup_old_reassembly now1 st)
  = cleanup_old_reassembly now2 st
  ∧ cleanup_old_reassembly now1 (cleanup_old_reassembly now2 st)
    = cleanup_old_reassembly now2 st.
Proof.
  intros Hle. split; apply same_registry_eq.
  - by repeat split.
  - apply map_eq. intros k. rewrite !cleanup_lookup.
    destruct (video_reassembly st !! k) as [e|]; simpl; [|done].
    destruct (expired now1 e) eqn:E1; simpl; [|done].
    by rewrite (expired_mono now1 now2 e Hle E1).
  - by repeat split.
  - apply map_eq. intros k. rewrite !cleanup_lookup.
    destruct (video_reassembly st !! k) as [e|]; simpl; [|done].
    destruct (expired now2 e) eqn:E2; simpl; [done|].
    destruct (expired now1 e) eqn:E1; [|done].
    by rewrite (expired_mono now1 now2 e Hle E1) in E2.
Qed.

(** Passes at 2.5 s and at 3 s over a buffer last touched at 0 s. *)
Lemma sweeper_passes_compose_witness :
  let e := {| parts := {[ 0 := [x01] ]}; total := 2; ts := 0 |} in
  let st := with_reassembly initial_state {[ key9 := e ]} in
  (5 # 2 <= 3)%Q
  ∧ cleanup_old_reassembly 3 (cleanup_old_reassembly (5 # 2) st)
    = cleanup_old_reassembly 3 st.
Proof.
  intros e st.
  assert (H : (5 # 2 <= 3)%Q) by (unfold Qle; simpl; lia).
  split; [exact H|].
  exact (proj1 (sweeper_passes_compose (5 # 2) 3 st H)).
Defined.

End DataPlane.

(* ===================================================================== *)
(** ** Sessions: what joining and leaving do to the registry *)
(* ===================================================================== *)

Module Sessions.
Import Struct Py Server Registry Control DataPlane.

(** *** Dictionaries: storing twice, storing and deleting *)

Section odict_more.
Context {K V : Type} `{EqDecision K}.

Lemma dict_mem_true (k : K) (d : list (K * V)) :
  dict_mem k d = true ↔ is_Some (dict_get k d).
Proof. unfold dict_mem. apply bool_decide_eq_true. Qed.

Lemma dict_set_fresh (k : K) (v : V) d :
  dict_get k d = None → dict_set k v d = d ++ [(k, v)].
Proof.
  intros Hn. unfold dict_set.
  destruct (dict_mem k d) eqn:E; [|done].
  apply dict_mem_true in E as [? E]. congruence.
Qed.

Lemma dict_del_fresh (k : K) (d : list (K * V)) :
  dict_get k d = None → dict_del k d = d.
Proof.
  intros Hn. unfold dict_del. apply VideoRelay.filter_all, Forall_forall.
  intros [k' v'] Hin. simpl. intros ->.
  by apply (proj1 (dict_get_None k d) Hn v').
Qed.

Lemma dict_del_set_fresh (k : K) (v : V) d :
  dict_get k d = None → dict_del k (dict_set k v d) = d.
Proof.
  intros Hn. rewrite (dict_set_fresh _ _ _ Hn).
  pose proof (dict_del_fresh k d Hn) as Hd. unfold dict_del in *.
  rewrite filter_app, Hd.
  rewrite filter_cons_False, filter_nil, app_nil_r; [done|]. simpl. by intros H.
Qed.

Lemma dict_set_set (k : K) (v w : V) d :
  dict_set k v (dict_set k w d) = dict_set k v d.
Proof.
  assert (Hm : dict_mem k (dict_set k w d) = true).
  { apply dict_mem_true. rewrite dict_get_set_eq. eauto. }
  unfold dict_set at 1. rewrite Hm. unfold dict_set.
  destruct (dict_mem k d) eqn:E.
  - rewrite <- list_fmap_compose. apply list_fmap_ext. intros _ [k' v'] _. simpl.
    destruct (decide (k' = k)) as [->|Hne]; simpl.
    + by rewrite decide_True.
    + by rewrite decide_False.
  - rewrite fmap_app. simpl. rewrite decide_True by done. f_equal.
    transitivity (id <$> d); [|apply list_fmap_id].
    apply Forall_fmap_ext, Forall_forall.
    intros [k' v'] Hin. simpl.
    rewrite decide_False; [done|]. intros ->.
    assert (dict_mem k d = true) as E'
      by (apply dict_mem_true; by eapply elem_of_dict_get).
    congruence.
Qed.

End odict_more.

(** *** The shape of the registry *)

(** Every dictionary of the registry has one entry per meeting, and no
    entry is an empty list or an empty set. *)
Definition well_formed (st : state) : Prop :=
  NoDup (meet_general_clients st).*1
  ∧ NoDup (meet_video_addrs st).*1
  ∧ NoDup (meet_audio_addrs st).*1
  ∧ (∀ m l, (m, l) ∈ meet_general_clients st → l ≠ [])
  ∧ (∀ m s, (m, s) ∈ meet_video_addrs st → s ≠ ∅)
  ∧ (∀ m s, (m, s) ∈ meet_audio_addrs st → s ≠ ∅).

(** The states the handlers lead to: any registrations and any [finally]
    blocks, in any order. *)
Inductive served : state → Prop :=
| served_initial : served initial_state
| served_register c a username meet_id vid_port aud_port st :
    served st → served (register c a username meet_id vid_port aud_port st)
| served_deregister meet_id a st :
    served st → served (deregister meet_id a st).

Lemma add_addr_not_empty (s : gset addr) (x : addr) : s ∪ {[ x ]} ≠ ∅.
Proof.
  intros E. assert (x ∈ s ∪ {[ x ]}) as Hx by (apply elem_of_union; right; by apply elem_of_singleton).
  rewrite E in Hx. by apply not_elem_of_empty in Hx.
Qed.

Lemma dict_set_add_not_empty (m : value) (x : addr) (d : list (value * gset addr)) :
  (∀ m' s, (m', s) ∈ d → s ≠ ∅) →
  ∀ m' s, (m', s) ∈ dict_set m (default ∅ (dict_get m d) ∪ {[ x ]}) d → s ≠ ∅.
Proof.
  intros Hd m' s [(-> & -> & _)|[_ Hin]]%elem_of_dict_set.
  - apply add_addr_not_empty.
  - by eapply Hd.
Qed.

Lemma drop_ip_not_empty (m : value) (ip : string) (d : list (value * gset addr)) :
  (∀ m' s, (m', s) ∈ d → s ≠ ∅) →
  ∀ m' s, (m', s) ∈ drop_ip m ip d → s ≠ ∅.
Proof.
  intros Hd m' s. unfold drop_ip.
  destruct (dict_get m d) as [addrs|]; [|apply Hd].
  case_bool_decide as He.
  - intros [_ Hin]%elem_of_dict_del. by eapply Hd.
  - intros [(-> & -> & _)|[_ Hin]]%elem_of_dict_set; [done|by eapply Hd].
Qed.

Lemma register_well_formed (c : conn) (a : addr) (u m v au : value) (st : state) :
  well_formed st → well_formed (register c a u m v au st).
Proof.
  intros (N1 & N2 & N3 & E1 & E2 & E3). unfold register, well_formed. simpl.
  split_and!.
  - by apply dict_set_NoDup.
  - destruct (truthy v); [by apply dict_set_NoDup | done].
  - destruct (truthy au); [by apply dict_set_NoDup | done].
  - intros m' l [(-> & -> & _)|[_ Hin]]%elem_of_dict_set.
    + by destruct (default [] _).
    + by eapply E1.
  - destruct (truthy v); [by apply dict_set_add_not_empty | done].
  - destruct (truthy au); [by apply dict_set_add_not_empty | done].
Qed.

Lemma deregister_well_formed (m : value) (a : addr) (st : state) :
  well_formed st → well_formed (deregister m a st).
Proof.
  intros (N1 & N2 & N3 & E1 & E2 & E3).
  assert (Hc : NoDup (meet_general_clients (deregister m a st)).*1
               ∧ ∀ m' l, (m', l) ∈ meet_general_clients (deregister m a st) → l ≠ []).
  { assert (meet_general_clients (deregister m a st)
            = match dict_get m (meet_general_clients st) with
              | None => meet_general_clients st
              | Some l =>
                  let l' := filter (λ x, p_addr x ≠ a) l in
                  let d := dict_set m l' (meet_general_clients st) in
                  if bool_decide (l' = []) then dict_del m d else d
              end) as -> by (unfold deregister; by destruct (truthy m)).
    destruct (dict_get m (meet_general_clients st)) as [l|]; [|done]. simpl.
    case_bool_decide as He.
    - split; [by apply dict_del_NoDup, dict_set_NoDup|].
      intros m' l' [Hne Hin]%elem_of_dict_del.
      apply dict_set_elem_of_ne in Hin; [|done]. by eapply E1.
    - split; [by apply dict_set_NoDup|].
      intros m' l' [(-> & -> & _)|[_ Hin]]%elem_of_dict_set; [done|by eapply E1]. }
  destruct Hc as [Hc1 Hc2]. unfold well_formed. split_and!; [done| | |done| |].
  all: unfold deregister; destruct (truthy m); simpl; try done.
  - by apply drop_ip_NoDup.
  - by apply drop_ip_NoDup.
  - by apply drop_ip_not_empty.
  - by apply drop_ip_not_empty.
Qed.

Lemma well_formed_initial : well_formed initial_state.
Proof.
  unfold well_formed. simpl. split_and!; try constructor.
  all: by intros ? ? ?%elem_of_nil.
Qed.

(** X9. Whatever handshakes and [finally] blocks have run, the three
    dictionaries of the registry hold at most one entry per meeting and
    no empty entry: a meeting is listed exactly as long as it has a
    participant, a video address or an audio address. *)
Theorem registry_well_formed (st : state) : served st → well_formed st.
Proof.
  induction 1 as [|c a u m v au st _ IH|m a st _ IH].
  - apply well_formed_initial.
  - by apply register_well_formed.
  - by apply deregister_well_formed.
Qed.

(** "Room1" with its two participants. *)
Lemma registry_well_formed_witness : served Room1.registry ∧ well_formed Room1.registry.
Proof.
  assert (H : served Room1.registry) by (do 2 apply served_register; apply served_initial).
  split; [exact H|]. exact (registry_well_formed _ H).
Defined.

(** X10. A registration can be looked up: after the handshake of a
    participant with a non-empty meeting id and a video port, the video
    listener resolves the participant's video address to that meeting,
    the address is in the meeting's video set with its reverse entries,
    the participant is the last item of the meeting's list, and the
    entries of the other meetings are as before. *)
Theorem register_resolves
    (c : conn) (a : addr) (username meet_id vid_port aud_port : value) (st : state) :
  truthy meet_id = true → truthy vid_port = true →
  let st' := register c a username meet_id vid_port aud_port st in
  let video : addr := (a.1, vid_port) in
  lookup_meeting st' video = meet_id
  ∧ (∃ s, dict_get meet_id (meet_video_addrs st') = Some s ∧ video ∈ s)
  ∧ udp_to_meet st' !! video = Some meet_id
  ∧ udp_to_user st' !! video = Some username
  ∧ dict_get meet_id (meet_general_clients st')
    = Some (default [] (dict_get meet_id (meet_general_clients st))
              ++ [Participant c a username])
  ∧ (truthy aud_port = true →
     ∃ s, dict_get meet_id (meet_audio_addrs st') = Some s ∧ (a.1, aud_port) ∈ s)
  ∧ (∀ m, m ≠ meet_id →
       dict_get m (meet_general_clients st') = dict_get m (meet_general_clients st)
       ∧ dict_get m (meet_video_addrs st') = dict_get m (meet_video_addrs st)
       ∧ dict_get m (meet_audio_addrs st') = dict_get m (meet_audio_addrs st)).
Proof.
  intros Hm Hv st' video. subst st'. unfold register. simpl. rewrite Hv.
  split_and!.
  - unfold lookup_meeting. simpl. rewrite lookup_insert_eq. simpl. by rewrite Hm.
  - rewrite dict_get_set_eq. eexists. split; [done|].
    apply elem_of_union. right. by apply elem_of_singleton.
  - by rewrite lookup_insert_eq.
  - by rewrite lookup_insert_eq.
  - by rewrite dict_get_set_eq.
  - intros ->. rewrite dict_get_set_eq. eexists. split; [done|].
    apply elem_of_union. right. by apply elem_of_singleton.
  - intros m Hne. split_and!.
    + by rewrite dict_get_set_ne.
    + by rewrite dict_get_set_ne.
    + destruct (truthy aud_port); [by rewrite dict_get_set_ne | done].
Qed.

(** B's registration in "Room1". *)
Lemma register_resolves_witness :
  truthy (VStr "Room1") = true ∧ truthy (VInt 6000) = true
  ∧ lookup_meeting Room1.registry Room1.B = VStr "Room1".
Proof.
  split_and!; [done..|].
  exact (proj1 (register_resolves 2%nat ("10.0.0.2"%string, VInt 40002) (VStr "B")
                  (VStr "Room1") (VInt 6000) VNone _ eq_refl eq_refl)).
Defined.

(** *** A session from the handshake to the [finally] block *)

(** The connection comes from a host the server does not know: no reverse
    entry has its IP, the meeting holds no video or audio address with
    its IP, and no participant of the meeting has the connection's
    address. *)
Definition fresh_host (a : addr) (meet_id : value) (st : state) : Prop :=
  (∀ k : addr, k.1 = a.1 → udp_to_meet st !! k = None)
  ∧ (∀ k : addr, k.1 = a.1 → udp_to_user st !! k = None)
  ∧ (∀ s (b : addr), dict_get meet_id (meet_video_addrs st) = Some s → b ∈ s → b.1 ≠ a.1)
  ∧ (∀ s (b : addr), dict_get meet_id (meet_audio_addrs st) = Some s → b ∈ s → b.1 ≠ a.1)
  ∧ (∀ l, dict_get meet_id (meet_general_clients st) = Some l →
          Forall (λ p, p_addr p ≠ a) l).

Lemma filter_keeps_all (ip : string) (s : gset addr) :
  (∀ b : addr, b ∈ s → b.1 ≠ ip) → filter (λ b : addr, b.1 ≠ ip) s = s.
Proof.
  intros Hs. apply set_eq. intros b. rewrite elem_of_filter. split; [by intros [_ ?]|].
  intros Hb. split; [by apply Hs | done].
Qed.

Lemma filter_drops_added (ip : string) (port : value) (s : gset addr) :
  (∀ b : addr, b ∈ s → b.1 ≠ ip) →
  filter (λ b : addr, b.1 ≠ ip) (s ∪ {[ (ip, port) ]}) = s.
Proof.
  intros Hs. apply set_eq. intros b.
  rewrite elem_of_filter, elem_of_union, elem_of_singleton. split.
  - intros [Hb [?| ->]]; [done | by destruct Hb].
  - intros Hb. split; [by apply Hs | by left].
Qed.

(** Dropping the IP from a meeting that holds no address with it. *)
Lemma drop_ip_absent (m : value) (ip : string) (d : list (value * gset addr)) :
  NoDup d.*1 → (∀ m' s, (m', s) ∈ d → s ≠ ∅) →
  (∀ s (b : addr), dict_get m d = Some s → b ∈ s → b.1 ≠ ip) →
  drop_ip m ip d = d.
Proof.
  intros Hnd Hne Hs. unfold drop_ip.
  destruct (dict_get m d) as [s|] eqn:E; [|done].
  rewrite (filter_keeps_all ip s) by eauto.
  rewrite bool_decide_eq_false_2.
  - by apply dict_set_id.
  - eapply Hne. by apply dict_get_Some_elem_of.
Qed.

(** Dropping the IP right after an address with it was added. *)
Lemma drop_ip_added (m : value) (ip : string) (port : value)
    (d : list (value * gset addr)) :
  NoDup d.*1 → (∀ m' s, (m', s) ∈ d → s ≠ ∅) →
  (∀ s (b : addr), dict_get m d = Some s → b ∈ s → b.1 ≠ ip) →
  drop_ip m ip (dict_set m (default ∅ (dict_get m d) ∪ {[ (ip, port) ]}) d) = d.
Proof.
  intros Hnd Hne Hs. unfold drop_ip. rewrite dict_get_set_eq.
  assert (H0 : ∀ b : addr, b ∈ default ∅ (dict_get m d) → b.1 ≠ ip).
  { intros b. destruct (dict_get m d) as [s|] eqn:E; simpl; [eauto|].
    by intros ?%not_elem_of_empty. }
  rewrite (filter_drops_added ip port _ H0). rewrite dict_set_set.
  destruct (dict_get m d) as [s|] eqn:E.
  - change (default ∅ (Some s)) with s.
    rewrite bool_decide_eq_false_2.
    + by apply dict_set_id.
    + eapply Hne. by apply dict_get_Some_elem_of.
  - change (default (∅ : gset addr) None) with (∅ : gset addr).
    rewrite bool_decide_eq_true_2 by done.
    by apply dict_del_set_fresh.
Qed.

Lemma filter_map_id {A} (P : addr * A → Prop) `{∀ x, Decision (P x)}
    (m : gmap addr A) :
  (∀ k x, m !! k = Some x → P (k, x)) → filter P m = m.
Proof.
  intros HP. apply map_eq. intros k. apply option_eq. intros x.
  rewrite map_lookup_filter_Some. split; [by intros [? _] | eauto].
Qed.

Lemma filter_map_added {A} (P : addr * A → Prop) `{∀ x, Decision (P x)}
    (m : gmap addr A) (k : addr) (x : A) :
  m !! k = None → ¬ P (k, x) →
  (∀ k' x', m !! k' = Some x' → P (k', x')) →
  filter P (<[k := x]> m) = m.
Proof.
  intros Hk Hn HP. apply map_eq. intros k'. apply option_eq. intros x'.
  rewrite map_lookup_filter_Some. destruct (decide (k' = k)) as [->|Hne].
  - rewrite lookup_insert_eq, Hk. split; [|done]. by intros [[= <-] ?].
  - rewrite lookup_insert_ne by done. split; [by intros [? _] | eauto].
Qed.

(** Leaving undoes joining, for a host the server did not know. *)
Lemma deregister_register
    (c : conn) (a : addr) (u m v au : value) (st : state) :
  well_formed st → fresh_host a m st → truthy m = true →
  deregister m a (register c a u m v au st) = st.
Proof.
  intros (N1 & N2 & N3 & E1 & E2 & E3) (F1 & F2 & F3 & F4 & F5) Hm.
  apply same_registry_eq; [|by unfold deregister; rewrite Hm].
  unfold same_registry, deregister. rewrite Hm. simpl. split_and!.
  - rewrite dict_get_set_eq. simpl.
    rewrite filter_app, filter_cons_False, filter_nil, app_nil_r by (simpl; tauto).
    rewrite dict_set_set.
    destruct (dict_get m (meet_general_clients st)) as [l|] eqn:E; simpl.
    + rewrite VideoRelay.filter_all by eauto.
      rewrite bool_decide_eq_false_2
        by (eapply E1; by apply dict_get_Some_elem_of).
      by apply dict_set_id.
    + by apply dict_del_set_fresh.
  - destruct (truthy v); [by apply drop_ip_added | by apply drop_ip_absent].
  - destruct (truthy au); [by apply drop_ip_added | by apply drop_ip_absent].
  - destruct (truthy v).
    + apply filter_map_added; [by apply F1 | simpl; tauto |].
      intros k x Hk. simpl. intros Hip. by rewrite (F1 k Hip) in Hk.
    + apply filter_map_id. intros k x Hk. simpl. intros Hip.
      by rewrite (F1 k Hip) in Hk.
  - destruct (truthy v).
    + apply filter_map_added; [by apply F2 | |].
      * simpl. intros Hn. apply Hn. split; [done|]. rewrite lookup_insert_eq. eauto.
      * intros k x Hk. simpl. intros [Hip _]. by rewrite (F2 k Hip) in Hk.
    + apply filter_map_id. intros k x Hk. simpl. intros [Hip [y Hy]].
      pose proof (F1 k Hip) as H0. unfold addr in *. congruence.
Qed.

Lemma fresh_host_initial (a : addr) (m : value) : fresh_host a m initial_state.
Proof. unfold fresh_host. simpl. split_and!; done. Qed.

(** The registration of another host keeps a host unknown. *)
Lemma register_fresh_host (c' : conn) (a' : addr) (u' m' v' au' : value)
    (a : addr) (m : value) (st : state) :
  a'.1 ≠ a.1 → fresh_host a m st →
  fresh_host a m (register c' a' u' m' v' au' st).
Proof.
  intros Hip (F1 & F2 & F3 & F4 & F5). unfold fresh_host, register. simpl.
  assert (Hadd : ∀ (d : list (value * gset addr)) (port : value),
            (∀ s (b : addr), dict_get m d = Some s → b ∈ s → b.1 ≠ a.1) →
            ∀ s (b : addr),
              dict_get m (dict_set m' (default ∅ (dict_get m' d) ∪ {[ (a'.1, port) ]}) d)
              = Some s → b ∈ s → b.1 ≠ a.1).
  { intros d port Hd s b. destruct (decide (m' = m)) as [->|Hne].
    - rewrite dict_get_set_eq. intros [= <-] [Hb| ->%elem_of_singleton]%elem_of_union.
      + destruct (dict_get m d) as [s0|] eqn:E; simpl in Hb; [by eapply Hd|].
        by apply not_elem_of_empty in Hb.
      + done.
    - rewrite dict_get_set_ne by done. apply Hd. }
  split_and!.
  - intros k Hk. destruct (truthy v'); [|by apply F1].
    rewrite lookup_insert_ne; [by apply F1|]. intros <-. by apply Hip.
  - intros k Hk. destruct (truthy v'); [|by apply F2].
    rewrite lookup_insert_ne; [by apply F2|]. intros <-. by apply Hip.
  - destruct (truthy v'); [by apply Hadd | done].
  - destruct (truthy au'); [by apply Hadd | done].
  - intros l. destruct (decide (m' = m)) as [->|Hne].
    + rewrite dict_get_set_eq. intros [= <-]. apply Forall_app. split.
      * destruct (dict_get m (meet_general_clients st)) as [l0|] eqn:E; simpl; [eauto|done].
      * constructor; [|done]. simpl. intros ->. by apply Hip.
    + rewrite dict_get_set_ne by done. apply F5.
Qed.

Section pickle.
Variable pickle_loads : list byte → option pyobj.
Variable pickle_dumps : pyobj → list byte.

(** X11. A session leaves no trace: when a host the server does not know
    joins a meeting with a non-empty id, then whatever it sends after the
    handshake and however its handler ends (end of stream, a message that
    does not unpickle, an exception in the relay), the handler terminates
    with the connection closed and the registry exactly as it was before
    the connection. *)
Theorem session_leaves_no_trace
    (fuel : nat) (c : conn) (a : addr) (input rest : list byte)
    (d : gmap string value) (meet_id : value) (st : state) (nt : net) :
  well_formed st →
  fresh_host a meet_id st →
  recv_pickle_prefixed pickle_loads input = (Ret (PyDict d), rest) →
  d !! "meet_id" = Some meet_id →
  truthy meet_id = true →
  (length input < fuel)%nat →
  ∃ nt' rest',
    handle_general pickle_loads pickle_dumps fuel c a input st nt = Some (st, nt', rest')
    ∧ c ∈ closed nt'.
Proof.
  intros Hwf Hfresh Hrecv Hd Hm Hfuel.
  assert (Hrest : (length rest < length input)%nat)
    by (by eapply recv_pickle_prefixed_rest).
  unfold handle_general, handshake. rewrite Hrecv.
  assert (Ht : obj_truthy (PyDict d) = true).
  { simpl. apply negb_true_iff, bool_decide_eq_false. intros ->.
    by rewrite lookup_empty in Hd. }
  rewrite Ht. simpl. rewrite Hd. simpl.
  destruct (relay_loop_total pickle_loads pickle_dumps meet_id a
              (register c a (default VNone (d !! "username")) meet_id
                 (default VNone (d !! "video_udp_port"))
                 (default VNone (d !! "audio_udp_port")) st)
              fuel rest nt ltac:(lia)) as [[rest' nt'] ->].
  simpl. rewrite deregister_register by done.
  eexists _, _. split; [done|]. simpl.
  apply elem_of_union. left. by apply elem_of_singleton.
Qed.

End pickle.

(** *** A third participant joins "Room1" *)

Definition carol_fields : gmap string value :=
  {[ "username" := VStr "carol"; "meet_id" := VStr "Room1";
     "video_udp_port" := VInt 5002; "audio_udp_port" := VInt 6002 ]}.

(** The stand-in for [pickle] of the examples, with one more byte string
    for the handshake of carol. *)
Definition wire_loads (payload : list byte) : option pyobj :=
  match payload with
  | [x04] => Some (PyDict carol_fields)
  | _ => demo_loads payload
  end.

Definition wire_dumps (o : pyobj) : list byte :=
  if decide (o = PyDict carol_fields) then [x04] else demo_dumps o.

Definition carol_control : addr := ("10.0.0.3"%string, VInt 40003).

(** carol joins "Room1" from a new host, sends one chat message and
    closes: the registry is that of "Room1" again. *)
Lemma session_leaves_no_trace_witness :
  let input := [x00; x00; x00; x01; x04; x00; x00; x00; x01; x02] in
  well_formed Room1.registry
  ∧ fresh_host carol_control (VStr "Room1") Room1.registry
  ∧ ∃ nt' rest',
      handle_general wire_loads wire_dumps 11%nat 3%nat carol_control input
                     Room1.registry quiet_net
      = Some (Room1.registry, nt', rest')
      ∧ 3%nat ∈ closed nt'.
Proof.
  intros input.
  assert (Hwf : well_formed Room1.registry)
    by (do 2 apply register_well_formed; apply well_formed_initial).
  assert (Hfresh : fresh_host carol_control (VStr "Room1") Room1.registry)
    by (do 2 (apply register_fresh_host; [done|]); apply fresh_host_initial).
  split_and!; [done..|].
  apply (session_leaves_no_trace wire_loads wire_dumps 11%nat 3%nat carol_control input
           [x00; x00; x00; x01; x02] carol_fields (VStr "Room1")
           Room1.registry quiet_net Hwf Hfresh).
  - vm_compute. reflexivity.
  - vm_compute. reflexivity.
  - reflexivity.
  - simpl. lia.
Defined.

End Sessions.

(* ===================================================================== *)
(** ** The relay loop over a whole session *)
(* ===================================================================== *)

Module RelayLoop.
Import Struct Py Server Control Wire.

(** From [nt] to [nt'] the connections have only been written to:
    nothing was closed, no send changed what fails, every connection
    holds what it held followed by more, and those outside [ts] or
    failing hold what they held. *)
Definition written_to (ts : list conn) (nt nt' : net) : Prop :=
  broken nt' = broken nt ∧ closed nt' = closed nt
  ∧ ∀ c, ∃ more, delivered nt' c = delivered nt c ++ more
                 ∧ (c ∉ ts ∨ c ∈ broken nt → more = []).

Lemma written_to_refl ts nt : written_to ts nt nt.
Proof.
  split_and!; [done..|]. intros c. exists []. by rewrite app_nil_r.
Qed.

Lemma written_to_trans ts nt1 nt2 nt3 :
  written_to ts nt1 nt2 → written_to ts nt2 nt3 → written_to ts nt1 nt3.
Proof.
  intros (B1 & C1 & D1) (B2 & C2 & D2). split_and!; [congruence..|].
  intros c. destruct (D1 c) as (m1 & E1 & H1), (D2 c) as (m2 & E2 & H2).
  exists (m1 ++ m2). split; [by rewrite E2, E1, app_assoc|].
  intros H. rewrite H1 by done. rewrite H2; [done|]. by rewrite B1.
Qed.

Lemma sendall_written_to ts c data nt :
  c ∈ ts → written_to ts nt (sendall c data nt).1.
Proof.
  intros Hc. split_and!.
  - apply sendall_broken.
  - unfold sendall. by case_bool_decide.
  - intros c'. eexists. split; [apply sendall_delivered|].
    intros H. case_decide as Hd; [|done]. destruct Hd as [-> Hnb].
    by destruct H.
Qed.

Lemma broadcast_chunk_written_to a chunk peers : ∀ nt ts,
  targets a peers ⊆ ts → written_to ts nt (broadcast_chunk a chunk peers nt).
Proof.
  induction peers as [|p peers IH]; intros nt ts Hts; simpl; [apply written_to_refl|].
  assert (Hrest : targets a peers ⊆ ts).
  { intros c Hc. apply Hts. unfold targets in *. rewrite filter_cons.
    case_decide; [rewrite fmap_cons; by right | done]. }
  case_decide as Hp.
  - eapply written_to_trans; [|by apply IH].
    apply sendall_written_to, Hts. unfold targets. rewrite filter_cons, decide_True by done.
    rewrite fmap_cons. left.
  - by apply IH.
Qed.

Section pickle.
Variable pickle_loads : list byte → option pyobj.
Variable pickle_dumps : pyobj → list byte.

Lemma broadcast_msg_written_to a msg peers nt :
  written_to (targets a peers) nt (broadcast_msg pickle_dumps a msg peers nt).
Proof.
  destruct (framed pickle_dumps msg) as [bytes|] eqn:Hf.
  - rewrite (broadcast_msg_framed pickle_dumps a msg bytes peers nt Hf).
    by apply broadcast_chunk_written_to.
  - assert (H : ∀ nt, broadcast_msg pickle_dumps a msg peers nt = nt).
    { induction peers as [|p peers IH]; intros nt0; simpl; [done|].
      unfold send_pickle_prefixed. rewrite Hf. simpl.
      case_decide; apply IH. }
    rewrite H. apply written_to_refl.
Qed.

Lemma relay_file_written_to a peers : ∀ fuel remaining input nt rest nt',
  relay_file fuel a peers remaining input nt = Some (rest, nt') →
  written_to (targets a peers) nt nt'.
Proof.
  induction fuel as [|fuel IH]; intros remaining input nt rest nt'; cbn [relay_file];
    destruct (remaining <=? 0); try done;
    try (intros [= _ <-]; apply written_to_refl).
  destruct (recv_exact input (Z.min 1024 remaining)) as [[[|b chunk]|] rest1];
    try (intros [= _ <-]; apply written_to_refl).
  intros H%IH. eapply written_to_trans; [|exact H].
  by apply broadcast_chunk_written_to.
Qed.

Lemma relay_message_written_to meet_id a msg input st nt rest nt' raised :
  relay_message pickle_dumps meet_id a msg input st nt = Some (rest, nt', raised) →
  written_to (targets a (default [] (dict_get meet_id (meet_general_clients st)))) nt nt'.
Proof.
  unfold relay_message.
  set (peers := default [] (dict_get meet_id (meet_general_clients st))).
  pose proof (broadcast_msg_written_to a msg peers nt) as H1.
  destruct (obj_get msg "msg_type" VNone) as [ty|]; [|by intros [= _ <- _]].
  case_bool_decide; [|by intros [= _ <- _]].
  destruct (obj_get msg "size" (VInt 0)) as [[|size|]|]; try by intros [= _ <- _].
  destruct (relay_file _ _ _ _ _ _) as [[rest2 nt2]|] eqn:E; [|done].
  simpl. intros [= _ <- _]. eapply written_to_trans; [exact H1|].
  by eapply relay_file_written_to.
Qed.

(** X12. Over a whole session the relay loop of a handler only writes to
    the connections of the other participants of its meeting: the loop
    ends (with more fuel than bytes on the stream), closes nothing, and
    every connection holds what it held before, followed, for the
    connections of the meeting's other participants whose sends do not
    fail, by what was relayed; the sender's own connection and the
    connections of other meetings receive nothing. *)
Theorem relay_loop_confined
    (fuel : nat) (meet_id : value) (a : addr) (input : list byte)
    (st : state) (nt : net) :
  (length input < fuel)%nat →
  ∃ rest nt',
    relay_loop pickle_loads pickle_dumps fuel meet_id a input st nt = Some (rest, nt')
    ∧ written_to (targets a (default [] (dict_get meet_id (meet_general_clients st))))
                 nt nt'.
Proof.
  revert input nt. induction fuel as [|fuel IH]; intros input nt Hfuel; [lia|].
  cbn [relay_loop].
  destruct (recv_pickle_prefixed pickle_loads input) as [[|msg] rest] eqn:E.
  { eexists _, _. split; [done | apply written_to_refl]. }
  case_bool_decide as Hmsg.
  { eexists _, _. split; [done | apply written_to_refl]. }
  apply recv_pickle_prefixed_rest in E; [|done].
  destruct (relay_message_total pickle_dumps meet_id a msg rest st nt)
    as (rest' & nt1 & raised & Hrm & Hr).
  rewrite Hrm. simpl. apply relay_message_written_to in Hrm.
  destruct raised.
  { eexists _, _. split; [done | exact Hrm]. }
  destruct (IH rest' nt1 ltac:(lia)) as (rest2 & nt2 & -> & H2).
  eexists _, _. split; [done|]. by eapply written_to_trans.
Qed.

(** *** What the peers receive *)

(** An item of the sender's stream: a message and the raw bytes that
    follow it (the content of the file, for a file header). *)
Record item := Item { it_msg : pyobj; it_body : list byte }.

(** The bytes of an item on the wire. *)
Definition wire (it : item) : list byte :=
  default [] (framed pickle_dumps (it_msg it)) ++ it_body it.

Definition stream (items : list item) : list byte := concat (wire <$> items).

(** The item is what a client writes: a dictionary with a message type
    whose pickle is not empty, fits the length prefix and loads back; a
    file header announces the length of the bytes that follow it, and
    nothing follows any other message. *)
Definition relayable (it : item) : Prop :=
  0 < len (pickle_dumps (it_msg it)) < 2 ^ 32
  ∧ pickle_loads (pickle_dumps (it_msg it)) = Some (it_msg it)
  ∧ ∃ ty, obj_get (it_msg it) "msg_type" VNone = Some ty
          ∧ if decide (ty = VStr "file")
            then obj_get (it_msg it) "size" (VInt 0) = Some (VInt (len (it_body it)))
            else it_body it = [].

Lemma relayable_framed it :
  relayable it →
  ∃ bytes, framed pickle_dumps (it_msg it) = Some bytes
           ∧ wire it = bytes ++ it_body it
           ∧ ∀ rest, recv_pickle_prefixed pickle_loads (bytes ++ rest)
                     = (Ret (it_msg it), rest).
Proof.
  intros (Hlen & Hload & _).
  destruct (pack_u32_Some (len (pickle_dumps (it_msg it)))) as [hdr Hh]; [lia|].
  assert (Hf : framed pickle_dumps (it_msg it) = Some (hdr ++ pickle_dumps (it_msg it)))
    by (unfold framed; by rewrite Hh).
  eexists. split; [exact Hf|]. split; [unfold wire; by rewrite Hf|].
  intros rest. rewrite (recv_framed pickle_loads pickle_dumps _ _ rest Hf).
  rewrite decide_False, Hload; [done|].
  intros E. rewrite E in Hlen. unfold len in Hlen. simpl in Hlen. lia.
Qed.

(** One turn of the loop on an item followed by [rest]. *)
Lemma relay_message_item meet_id a it rest st nt :
  let peers := default [] (dict_get meet_id (meet_general_clients st)) in
  relayable it → NoDup (targets a peers) →
  ∃ bytes nt',
    framed pickle_dumps (it_msg it) = Some bytes
    ∧ relay_message pickle_dumps meet_id a (it_msg it) (it_body it ++ rest) st nt
      = Some (rest, nt', false)
    ∧ broken nt' = broken nt
    ∧ ∀ c, delivered nt' c
           = delivered nt c
             ++ (if decide (c ∈ targets a peers ∧ c ∉ broken nt) then wire it else []).
Proof.
  intros peers Hit Hnd.
  destruct (relayable_framed it Hit) as (bytes & Hf & Hw & _).
  destruct Hit as (_ & _ & ty & Hty & Hbody).
  exists bytes. unfold relay_message. fold peers.
  rewrite (broadcast_msg_framed pickle_dumps a _ bytes peers nt Hf), Hty.
  pose proof (broadcast_chunk_delivered a bytes peers nt) as Hd1.
  pose proof (broadcast_chunk_broken a bytes peers nt) as Hb1.
  destruct (decide (ty = VStr "file")) as [->|Hne].
  - rewrite bool_decide_eq_true_2 by done. rewrite Hbody.
    destruct (relay_file_spec a peers (Z.to_nat (len (it_body it))) (len (it_body it))
                (it_body it ++ rest) (broadcast_chunk a bytes peers nt))
      as (nt' & -> & Hb2 & Hd2); [|done|done|].
    { unfold len. rewrite length_app. lia. }
    assert (Hn : Z.to_nat (len (it_body it)) = length (it_body it))
      by (unfold len; lia).
    rewrite Hn in Hd2 |- *. rewrite drop_app_length.
    rewrite take_app_length in Hd2.
    exists nt'. simpl. split_and!; [done|done|congruence|].
    intros c. rewrite Hd2, Hd1 by done. rewrite Hb1, Hw.
    case_decide; [by rewrite app_assoc | by rewrite !app_nil_r].
  - rewrite bool_decide_eq_false_2 by done.
    rewrite Hbody. simpl.
    eexists. split_and!; [done|done|done|].
    intros c. rewrite Hd1 by done. rewrite Hw, Hbody, app_nil_r. done.
Qed.

(** The loop over a stream of items. *)
Lemma relay_loop_stream
    (meet_id : value) (a : addr) (items : list item) (st : state) (nt : net) :
  let peers := default [] (dict_get meet_id (meet_general_clients st)) in
  Forall relayable items →
  NoDup (targets a peers) →
  ∃ nt',
    relay_loop pickle_loads pickle_dumps (S (length items)) meet_id a (stream items) st nt
    = Some ([], nt')
    ∧ ∀ c, delivered nt' c
           = delivered nt c
             ++ (if decide (c ∈ targets a peers ∧ c ∉ broken nt)
                 then stream items else []).
Proof.
  intros peers Hall Hnd. revert nt.
  induction Hall as [|it items Hit _ IH]; intros nt.
  - exists nt. split; [done|]. intros c. case_decide; by rewrite app_nil_r.
  - destruct (relayable_framed it Hit) as (bytes & Hf & Hw & Hrecv).
    destruct (relay_message_item meet_id a it (stream items) st nt Hit Hnd)
      as (bytes' & nt1 & Hf' & Hrm & Hb1 & Hd1).
    destruct (IH nt1) as (nt2 & Hloop & Hd2).
    exists nt2. split.
    + change (stream (it :: items)) with (wire it ++ stream items).
      rewrite Hw, <- app_assoc.
      change (S (length (it :: items))) with (S (S (length items))).
      remember (S (length items)) as n eqn:Hn.
      cbn [relay_loop]. rewrite Hrecv.
      rewrite bool_decide_eq_false_2.
      2: { destruct Hit as (_ & _ & ty & Hty & _). intros E. by rewrite E in Hty. }
      rewrite Hrm. simpl. exact Hloop.
    + intros c. rewrite Hd2, Hd1, Hb1.
      change (stream (it :: items)) with (wire it ++ stream items).
      subst peers.
      case_decide; [by rewrite <- app_assoc | by rewrite !app_nil_r].
Qed.

(** X13. The relay is transparent for a well-formed session: when the
    sender writes chat messages and file headers, each header followed by
    as many bytes as it announces, and then closes, the loop ends with the
    stream read to its end, and the connection of every other participant
    of the meeting whose sends do not fail has received the sender's
    stream, byte for byte and in order; no other connection has received
    anything. *)
Theorem relay_transparent
    (meet_id : value) (a : addr) (items : list item) (st : state) (nt : net) :
  let peers := default [] (dict_get meet_id (meet_general_clients st)) in
  Forall relayable items →
  NoDup (targets a peers) →
  ∃ nt',
    relay_loop pickle_loads pickle_dumps (S (length items)) meet_id a (stream items) st nt
    = Some ([], nt')
    ∧ ∀ c, delivered nt' c
           = delivered nt c
             ++ (if decide (c ∈ targets a peers ∧ c ∉ broken nt)
                 then stream items else []).
Proof. apply relay_loop_stream. Qed.

End pickle.

(** A's handler in "Room1" relays one chat message: nothing comes back
    on A's own connection. *)
Lemma relay_loop_confined_witness :
  ∃ rest nt',
    relay_loop demo_loads demo_dumps 6%nat (VStr "Room1") A_control
               [x00; x00; x00; x01; x02] Room1.registry quiet_net
    = Some (rest, nt')
    ∧ delivered nt' 1%nat = [].
Proof.
  destruct (relay_loop_confined demo_loads demo_dumps 6%nat (VStr "Room1") A_control
              [x00; x00; x00; x01; x02] Room1.registry quiet_net)
    as (rest & nt' & E & _ & _ & Hd).
  - simpl. lia.
  - exists rest, nt'. split; [exact E|].
    destruct (Hd 1%nat) as (more & -> & Hmore).
    rewrite Hmore; [done|]. left. rewrite room1_clients.
    unfold targets. rewrite filter_cons_False by (simpl; tauto).
    rewrite filter_cons_True by done. rewrite filter_nil. simpl.
    by intros ?%list_elem_of_singleton.
Defined.

(** A chat message and a three-byte file from A in "Room1" reach B as
    A wrote them. *)
Lemma relay_transparent_witness :
  let items := [Item chat_message []; Item file_header [x61; x62; x63]] in
  stream demo_dumps items
  = [x00; x00; x00; x01; x02; x00; x00; x00; x01; x03; x61; x62; x63]
  ∧ ∃ nt',
      relay_loop demo_loads demo_dumps 3%nat (VStr "Room1") A_control
                 (stream demo_dumps items) Room1.registry quiet_net
      = Some ([], nt')
      ∧ delivered nt' 2%nat = stream demo_dumps items.
Proof.
  intros items. split; [vm_compute; reflexivity|].
  destruct (relay_transparent demo_loads demo_dumps (VStr "Room1") A_control items
              Room1.registry quiet_net) as (nt' & E & Hd).
  - repeat constructor; try (vm_compute; reflexivity).
    + exists (VStr "chat"). split; [vm_compute; reflexivity | done].
    + exists (VStr "file"). split; vm_compute; reflexivity.
  - rewrite room1_clients. unfold targets.
    rewrite filter_cons_False by (simpl; tauto).
    rewrite filter_cons_True by done. rewrite filter_nil. apply NoDup_singleton.
  - exists nt'. split; [exact E|]. rewrite Hd, decide_True; [done|].
    split; [|apply not_elem_of_empty].
    rewrite room1_clients. unfold targets.
    rewrite filter_cons_False by (simpl; tauto).
    rewrite filter_cons_True by done. rewrite filter_nil. simpl. left.
Defined.

End RelayLoop.

(* ===================================================================== *)
(** ** The client: handshake, chat and files, video reception *)
(* ===================================================================== *)

Module Client.
Import Struct Py Server FragmentProps Reassembly VideoRelay Control Wire DataPlane RelayLoop.

(** *** Joining a meeting *)

(** The dictionary [connect] sends first; [un] and [mid] are the stripped
    contents of the entry fields, the ports those of the client's UDP
    sockets. *)
Definition handshake_msg (un mid : string) (local_video_port local_audio_port : Z)
  : pyobj :=
  PyDict {[ "username" := VStr un; "meet_id" := VStr mid;
            "video_udp_port" := VInt local_video_port;
            "audio_udp_port" := VInt local_audio_port ]}.

(** [connect]: the message handed to [send_pickle_prefixed], [None] when
    the method returns before opening a connection. *)
Definition connect (un mid sip : string) (local_video_port local_audio_port : Z)
  : option pyobj :=
  if bool_decide (un = EmptyString ∨ mid = EmptyString ∨ sip = EmptyString) then None
  else Some (handshake_msg un mid local_video_port local_audio_port).

Section pickle.
Variable pickle_loads : list byte → option pyobj.
Variable pickle_dumps : pyobj → list byte.

(** X14. The handshake the client's [connect] writes is one the server
    accepts: when the pickle of the dictionary loads back, the server's
    handshake reads exactly that message, registers the participant under
    the user name and the (non-empty) meeting id typed in, with the ports
    of the client's UDP sockets, and from then on resolves the
    participant's video address to that meeting. *)
Theorem connect_registers
    (un mid sip : string) (local_video_port local_audio_port : Z) (hello : pyobj)
    (c : conn) (a : addr) (rest : list byte) (st : state) (nt : net) :
  connect un mid sip local_video_port local_audio_port = Some hello →
  0 < len (pickle_dumps hello) < 2 ^ 32 →
  pickle_loads (pickle_dumps hello) = Some hello →
  local_video_port ≠ 0 →
  let st1 := register c a (VStr un) (VStr mid) (VInt local_video_port)
                      (VInt local_audio_port) st in
  ∃ bytes,
    framed pickle_dumps hello = Some bytes
    ∧ handshake pickle_loads c a (bytes ++ rest) st nt
      = Accepted (VStr un) (VStr mid) (VInt local_video_port) (VInt local_audio_port)
                 st1 rest
    ∧ truthy (VStr mid) = true
    ∧ lookup_meeting st1 (a.1, VInt local_video_port) = VStr mid.
Proof.
  unfold connect. case_bool_decide as Hfields; [done|]. intros [= <-] Hlen Hload Hport.
  destruct (pack_u32_Some (len (pickle_dumps
              (handshake_msg un mid local_video_port local_audio_port))))
    as [hdr Hh]; [lia|].
  eexists. split; [unfold framed; by rewrite Hh|].
  assert (Hmid : truthy (VStr mid) = true).
  { destruct mid; [|done]. exfalso. apply Hfields. by right; left. }
  split_and!; [|done|].
  - unfold handshake.
    rewrite (recv_framed pickle_loads pickle_dumps
               (handshake_msg un mid local_video_port local_audio_port) _ rest)
      by (unfold framed; by rewrite Hh).
    rewrite decide_False, Hload.
    2: { intros E. rewrite E in Hlen. unfold len in Hlen. simpl in Hlen. lia. }
    assert (Ht : obj_truthy (handshake_msg un mid local_video_port local_audio_port)
                 = true).
    { simpl. apply negb_true_iff, bool_decide_eq_false. intros E.
      apply (f_equal (λ d : gmap string value, d !! "username")) in E.
      by rewrite lookup_insert_eq, lookup_empty in E. }
    rewrite Ht. unfold handshake_msg, obj_get. cbn [negb].
    rewrite lookup_insert_eq.
    rewrite (lookup_insert_ne _ "username" "meet_id"), lookup_insert_eq by done.
    rewrite (lookup_insert_ne _ "username" "video_udp_port"),
      (lookup_insert_ne _ "meet_id" "video_udp_port"), lookup_insert_eq by done.
    rewrite (lookup_insert_ne _ "username" "audio_udp_port"),
      (lookup_insert_ne _ "meet_id" "audio_udp_port"),
      (lookup_insert_ne _ "video_udp_port" "audio_udp_port"),
      lookup_singleton_eq by done.
    done.
  - unfold lookup_meeting, register. simpl.
    rewrite (proj2 (Z.eqb_neq _ _) Hport). simpl.
    rewrite lookup_insert_eq. simpl. by destruct mid.
Qed.

End pickle.

(** carol's client connects to "Room1". *)
Lemma connect_registers_witness :
  connect "carol" "Room1" "10.0.0.9" 5002 6002 = Some (PyDict Sessions.carol_fields)
  ∧ ∃ bytes,
      framed Sessions.wire_dumps (PyDict Sessions.carol_fields) = Some bytes
      ∧ lookup_meeting
          (register 3%nat Sessions.carol_control (VStr "carol") (VStr "Room1")
                    (VInt 5002) (VInt 6002) Room1.registry)
          ("10.0.0.3"%string, VInt 5002)
        = VStr "Room1".
Proof.
  assert (Hc : connect "carol" "Room1" "10.0.0.9" 5002 6002
               = Some (PyDict Sessions.carol_fields)) by reflexivity.
  split; [exact Hc|].
  destruct (connect_registers Sessions.wire_loads Sessions.wire_dumps
              "carol" "Room1" "10.0.0.9" 5002 6002 (PyDict Sessions.carol_fields)
              3%nat Sessions.carol_control [] Room1.registry quiet_net Hc)
    as (bytes & Hf & _ & _ & Hl).
  - vm_compute. split; reflexivity.
  - vm_compute. reflexivity.
  - lia.
  - exists bytes. split; [exact Hf | exact Hl].
Defined.

(** *** Chat and files: the sender *)

(** The dictionary [send_chat] sends for the (stripped, non-empty) text
    [msg]. *)
Definition chat_msg (username msg : string) : pyobj :=
  PyDict {[ "msg_type" := VStr "chat"; "username" := VStr username;
            "message" := VStr msg; "to" := VStr "send-all" ]}.

(** The header [send_file] sends before the content of the file. *)
Definition file_hdr (username filename : string) (size : Z) : pyobj :=
  PyDict {[ "msg_type" := VStr "file"; "username" := VStr username;
            "filename" := VStr filename; "size" := VInt size;
            "to" := VStr "send-all" ]}.

(** The loop of [send_file] over the open file [f]: [f.read(1024)] until
    it returns nothing, each chunk handed to [sendall]; [out] is what has
    been written so far. *)
Fixpoint send_file_loop (fuel : nat) (f out : list byte) : option (list byte) :=
  match fuel with
  | O => None
  | S fuel' =>
      let chunk := take 1024 f in
      if bool_decide (chunk = []) then Some out
      else send_file_loop fuel' (drop 1024 f) (out ++ chunk)
  end.

(** What the user does on the sending side. *)
Inductive action :=
| SendChat (msg : string)
| SendFile (filename : string) (content : list byte).

Section pickle_client.
Variable pickle_loads : list byte → option pyobj.
Variable pickle_dumps : pyobj → list byte.

(** The bytes one action writes to the control connection when no send
    fails ([None]: [struct.pack] raises on the length of the pickle);
    the size announced is [os.path.getsize(path)], the length of the
    content. *)
Definition client_send (username : string) (act : action) : option (list byte) :=
  match act with
  | SendChat msg =>
      if bool_decide (msg = EmptyString) then Some []
      else framed pickle_dumps (chat_msg username msg)
  | SendFile filename content =>
      hdr ← framed pickle_dumps (file_hdr username filename (len content));
      body ← send_file_loop (S (length content)) content [];
      Some (hdr ++ body)
  end.

(** *** Chat and files: the receiver *)

(** The loop of [receive_file_to_queue] (and of [receive_file]):
    [recv(min(1024, remaining))] until [remaining] bytes are in or the
    stream ends; [cuts] are the sizes TCP chooses. *)
Fixpoint receive_file_loop (fuel : nat) (cuts : list nat) (data : list byte)
    (remaining : Z) (input : list byte) : option (list byte * list byte * list nat) :=
  if remaining <=? 0 then Some (data, input, cuts)
  else match fuel with
       | O => None
       | S fuel' =>
           let '(chunk, input') := recv input (Z.min 1024 remaining) (hd 1%nat cuts) in
           if bool_decide (chunk = []) then Some (data, input', tl cuts)
           else receive_file_loop fuel' (tl cuts) (data ++ chunk)
                                  (remaining - len chunk) input'
       end.

(** What the receiver thread has shown and queued: the chat lines, as
    the pairs of values printed, and [file_queue]. *)
Record inbox := Inbox {
  chat_text : list (value * value);
  file_queue : list (pyobj * list byte)
}.

(** [tcp_general_receiver]: the loop ends on [None] and on any
    exception ([KeyError] for a chat message without user name or text,
    [TypeError] for a size that is no number); messages that are neither
    chat nor file are skipped. *)
Fixpoint tcp_general_receiver (fuel : nat) (cuts : list nat) (input : list byte)
    (box : inbox) : option (inbox * list byte) :=
  match fuel with
  | O => None
  | S fuel' =>
      match recv_pickle_prefixed pickle_loads input with
      | (Raise, input') => Some (box, input')
      | (Ret (PyVal VNone), input') => Some (box, input')
      | (Ret (PyVal _), input') => tcp_general_receiver fuel' cuts input' box
      | (Ret (PyDict d), input') =>
          if decide (default VNone (d !! "msg_type") = VStr "chat")
          then match d !! "username", d !! "message" with
               | Some u, Some m =>
                   tcp_general_receiver fuel' cuts input'
                     {| chat_text := chat_text box ++ [(u, m)];
                        file_queue := file_queue box |}
               | _, _ => Some (box, input')
               end
          else if decide (default VNone (d !! "msg_type") = VStr "file")
          then match default (VInt 0) (d !! "size") with
               | VInt size =>
                   '(data, input'', cuts') ←
                     receive_file_loop (Z.to_nat size) cuts [] size input';
                   tcp_general_receiver fuel' cuts' input''
                     {| chat_text := chat_text box;
                        file_queue := file_queue box ++ [(PyDict d, data)] |}
               | _ => Some (box, input')
               end
          else tcp_general_receiver fuel' cuts input' box
      end
  end.

Lemma send_file_loop_spec fuel : ∀ f out,
  (length f < fuel)%nat → send_file_loop fuel f out = Some (out ++ f).
Proof.
  induction fuel as [|fuel IH]; intros f out Hfuel; [lia|]. cbn [send_file_loop].
  destruct f as [|b f].
  - rewrite take_nil, bool_decide_eq_true_2 by done. by rewrite app_nil_r.
  - rewrite bool_decide_eq_false_2 by (by rewrite firstn_cons).
    rewrite IH.
    + by rewrite <- app_assoc, take_drop.
    + rewrite length_drop. simpl in *. lia.
Qed.

Lemma receive_file_loop_spec fuel : ∀ cuts data remaining input,
  (Z.to_nat remaining ≤ fuel)%nat →
  ∃ cuts', receive_file_loop fuel cuts data remaining input
           = Some (data ++ take (Z.to_nat remaining) input,
                   drop (Z.to_nat remaining) input, cuts').
Proof.
  induction fuel as [|fuel IH]; intros cuts data remaining input Hfuel;
    cbn [receive_file_loop]; destruct (Z.leb_spec remaining 0) as [Hz|Hz].
  - replace (Z.to_nat remaining) with 0%nat by lia.
    rewrite take_0, drop_0, app_nil_r. eauto.
  - lia.
  - replace (Z.to_nat remaining) with 0%nat by lia.
    rewrite take_0, drop_0, app_nil_r. eauto.
  - unfold recv.
    set (m := Nat.max 1 (Nat.min (hd 1%nat cuts) (Z.to_nat (Z.min 1024 remaining)))).
    assert (Hm : (1 ≤ m ≤ Z.to_nat remaining)%nat) by lia. clearbody m.
    destruct input as [|b input].
    + rewrite !take_nil, !drop_nil, bool_decide_eq_true_2 by done.
      rewrite app_nil_r. eauto.
    + rewrite bool_decide_eq_false_2 by (destruct m; [lia | done]).
      set (inp := b :: input) in *.
      destruct (IH (tl cuts) (data ++ take m inp) (remaining - len (take m inp))
                   (drop m inp)) as [cuts' ->].
      { unfold len. rewrite length_take. subst inp. simpl length. lia. }
      exists cuts'. unfold len. rewrite length_take.
      destruct (decide (m ≤ length inp)%nat) as [Hle|Hgt].
      * rewrite Nat.min_l by done.
        replace (Z.to_nat (remaining - Z.of_nat m))
          with (Z.to_nat remaining - m)%nat by lia.
        rewrite <- app_assoc, take_take_drop, drop_drop.
        by replace (m + (Z.to_nat remaining - m))%nat with (Z.to_nat remaining) by lia.
      * rewrite Nat.min_r by lia.
        rewrite (take_ge inp m), (take_ge inp (Z.to_nat remaining)) by lia.
        rewrite (drop_ge inp m), (drop_ge inp (Z.to_nat remaining)) by lia.
        by rewrite take_nil, drop_nil, app_nil_r.
Qed.

(** X15. However TCP cuts the stream, the receive loop of a file ends
    within as many [recv] calls as bytes were announced and collects
    exactly the announced number of bytes that follow the header, in
    order, leaving the stream at the first byte after them; when the
    stream ends before, it collects what came. *)
Theorem receive_file_any_segmentation
    (cuts : list nat) (size : Z) (input : list byte) :
  ∃ cuts',
    receive_file_loop (Z.to_nat size) cuts [] size input
    = Some (take (Z.to_nat size) input, drop (Z.to_nat size) input, cuts').
Proof.
  destruct (receive_file_loop_spec (Z.to_nat size) cuts [] size input) as [cuts' E];
    [done|].
  exists cuts'. by rewrite E.
Qed.

(** *** From the sender through the relay to the receiver *)

Definition act_msg (username : string) (act : action) : pyobj :=
  match act with
  | SendChat msg => chat_msg username msg
  | SendFile filename content => file_hdr username filename (len content)
  end.

Definition act_item (username : string) (act : action) : item :=
  Item (act_msg username act)
       match act with SendChat _ => [] | SendFile _ content => content end.

(** The action writes something, and its message pickles to a non-empty
    string that fits the length prefix and loads back. *)
Definition sendable (username : string) (act : action) : Prop :=
  0 < len (pickle_dumps (act_msg username act)) < 2 ^ 32
  ∧ pickle_loads (pickle_dumps (act_msg username act)) = Some (act_msg username act)
  ∧ match act with SendChat msg => msg ≠ EmptyString | SendFile _ _ => True end.

(** What the receiver shows and queues for the actions of the sender. *)
Fixpoint received (username : string) (acts : list action) (box : inbox) : inbox :=
  match acts with
  | [] => box
  | SendChat msg :: rest =>
      received username rest
        {| chat_text := chat_text box ++ [(VStr username, VStr msg)];
           file_queue := file_queue box |}
  | SendFile filename content :: rest =>
      received username rest
        {| chat_text := chat_text box;
           file_queue := file_queue box
                         ++ [(file_hdr username filename (len content), content)] |}
  end.

Lemma sendable_relayable username act :
  sendable username act → relayable pickle_loads pickle_dumps (act_item username act).
Proof.
  intros (Hlen & Hload & Hact). split; [done|]. split; [done|].
  destruct act as [msg|filename content]; simpl.
  - exists (VStr "chat"). by rewrite lookup_insert_eq.
  - exists (VStr "file"). rewrite lookup_insert_eq. split; [done|].
    rewrite decide_True by done. simpl.
    by rewrite !(lookup_insert_ne _ _ "size"), lookup_insert_eq by done.
Qed.

(** The sender writes the wire form of its items. *)
Lemma client_send_wire username act :
  sendable username act →
  client_send username act = Some (wire pickle_dumps (act_item username act)).
Proof.
  intros Hs. destruct (relayable_framed _ _ _ (sendable_relayable _ _ Hs))
    as (bytes & Hf & Hw & _).
  rewrite Hw. destruct Hs as (_ & _ & Hact). destruct act as [msg|filename content].
  - simpl in *. rewrite bool_decide_eq_false_2 by done. by rewrite Hf, app_nil_r.
  - cbn [client_send act_item act_msg it_msg it_body] in *. rewrite Hf.
    cbn [mbind option_bind]. rewrite send_file_loop_spec by lia. done.
Qed.

(** The receiver on the stream of the sender's items. *)
Lemma tcp_general_receiver_stream username : ∀ acts cuts box,
  Forall (sendable username) acts →
  tcp_general_receiver (S (length acts)) cuts
                       (stream pickle_dumps (act_item username <$> acts)) box
  = Some (received username acts box, []).
Proof.
  induction acts as [|act acts IH]; intros cuts box Hall; [done|].
  apply Forall_cons in Hall as [Hs Hall].
  destruct (relayable_framed _ _ _ (sendable_relayable _ _ Hs))
    as (bytes & Hf & Hw & Hrecv).
  change (stream pickle_dumps (act_item username <$> act :: acts))
    with (wire pickle_dumps (act_item username act)
          ++ stream pickle_dumps (act_item username <$> acts)).
  rewrite Hw, <- app_assoc.
  change (S (length (act :: acts))) with (S (S (length acts))).
  remember (S (length acts)) as n eqn:Hn.
  cbn [tcp_general_receiver]. rewrite Hrecv.
  destruct act as [msg|filename content]; cbn [act_item act_msg it_msg it_body chat_msg file_hdr].
  - rewrite lookup_insert_eq. cbn [default from_option id]. rewrite decide_True by done.
    rewrite (lookup_insert_ne _ "msg_type" "username"), lookup_insert_eq by done.
    rewrite (lookup_insert_ne _ "msg_type" "message"),
      (lookup_insert_ne _ "username" "message"), lookup_insert_eq by done.
    rewrite app_nil_l. subst n. by rewrite IH.
  - rewrite lookup_insert_eq. cbn [default from_option id].
    rewrite decide_False by done. rewrite decide_True by done.
    rewrite (lookup_insert_ne _ "msg_type" "size"),
      (lookup_insert_ne _ "username" "size"),
      (lookup_insert_ne _ "filename" "size"), lookup_insert_eq by done.
    cbn [default from_option id].
    destruct (receive_file_loop_spec (Z.to_nat (len content)) cuts [] (len content)
                (content ++ stream pickle_dumps (act_item username <$> acts)))
      as [cuts' ->]; [done|].
    assert (Hn' : Z.to_nat (len content) = length content) by (unfold len; lia).
    rewrite Hn', take_app_length, drop_app_length. cbn [mbind option_bind].
    subst n. by rewrite IH.
Qed.

(** X16. Chat and files end to end: a participant sends non-empty chat
    texts and files; the server's handler relays its stream; the
    receiver thread of another participant of the meeting, whose
    connection carried nothing before and does not fail, reads what
    arrived, however TCP cuts it.  Then the receiver has shown the chat
    texts under the sender's name and queued every file with its header
    and its exact content, all in the order sent, and both loops have
    ended with their streams read to the end. *)
Theorem control_end_to_end
    (username : string) (acts : list action) (meet_id : value) (a : addr)
    (st : state) (nt : net) (p : participant) (cuts : list nat) (box : inbox) :
  let peers := default [] (dict_get meet_id (meet_general_clients st)) in
  Forall (sendable username) acts →
  NoDup (targets a peers) →
  p ∈ peers → p_addr p ≠ a → p_conn p ∉ broken nt → delivered nt (p_conn p) = [] →
  ∃ sent nt',
    mapM (client_send username) acts = Some sent
    ∧ relay_loop pickle_loads pickle_dumps (S (length acts)) meet_id a (concat sent) st nt
      = Some ([], nt')
    ∧ delivered nt' (p_conn p) = concat sent
    ∧ tcp_general_receiver (S (length acts)) cuts (delivered nt' (p_conn p)) box
      = Some (received username acts box, []).
Proof.
  intros peers Hall Hnd Hp Hpa Hpb Hempty.
  set (items := act_item username <$> acts).
  assert (Hsent : mapM (client_send username) acts = Some (wire pickle_dumps <$> items)).
  { apply mapM_Some. subst items. rewrite <- list_fmap_compose.
    apply Forall2_fmap_r, Forall_Forall2_diag.
    eapply Forall_impl; [exact Hall|]. intros act Hs. by apply client_send_wire. }
  assert (Hrel : Forall (relayable pickle_loads pickle_dumps) items).
  { subst items. apply Forall_fmap. eapply Forall_impl; [exact Hall|].
    intros act Hs. by apply sendable_relayable. }
  destruct (relay_loop_stream pickle_loads pickle_dumps meet_id a items st nt Hrel Hnd)
    as (nt' & Hloop & Hd).
  assert (Hlen : length items = length acts) by (subst items; apply length_fmap).
  rewrite Hlen in Hloop.
  assert (Hdp : delivered nt' (p_conn p) = stream pickle_dumps items).
  { rewrite Hd, Hempty, decide_True; [done|]. split; [|done].
    unfold targets. apply list_elem_of_fmap. exists p. split; [done|].
    by apply list_elem_of_filter. }
  exists (wire pickle_dumps <$> items), nt'.
  split_and!; [done|exact Hloop|exact Hdp|].
  rewrite Hdp. by apply tcp_general_receiver_stream.
Qed.

End pickle_client.

(** A stand-in for [pickle] on the two dictionaries A's client sends. *)
Definition client_loads (payload : list byte) : option pyobj :=
  match payload with
  | [x05] => Some (chat_msg "A" "hi")
  | [x06] => Some (file_hdr "A" "f" 3)
  | _ => None
  end.

Definition client_dumps (o : pyobj) : list byte :=
  if decide (o = chat_msg "A" "hi") then [x05]
  else if decide (o = file_hdr "A" "f" 3) then [x06]
  else [x00].

(** A in "Room1" sends the text "hi" and a three-byte file; B's receiver
    gets the bytes one by one. *)
Lemma control_end_to_end_witness :
  let acts := [SendChat "hi"; SendFile "f" [x61; x62; x63]] in
  let B := Participant 2%nat B_control (VStr "B") in
  ∃ sent nt',
    mapM (client_send client_dumps "A") acts = Some sent
    ∧ relay_loop client_loads client_dumps 3%nat (VStr "Room1") A_control (concat sent)
                 Room1.registry quiet_net
      = Some ([], nt')
    ∧ tcp_general_receiver client_loads 3%nat [1; 1; 1]%nat (delivered nt' 2%nat)
                           (Inbox [] [])
      = Some (Inbox [(VStr "A", VStr "hi")]
                    [(file_hdr "A" "f" 3, [x61; x62; x63])], []).
Proof.
  intros acts B.
  destruct (control_end_to_end client_loads client_dumps "A" acts (VStr "Room1")
              A_control Room1.registry quiet_net B [1; 1; 1]%nat (Inbox [] []))
    as (sent & nt' & Hs & Hl & _ & Hr).
  - repeat constructor; try (vm_compute; reflexivity). done.
  - rewrite room1_clients. unfold targets.
    rewrite filter_cons_False by (simpl; tauto).
    rewrite filter_cons_True by done. rewrite filter_nil. apply NoDup_singleton.
  - rewrite room1_clients. right. left.
  - done.
  - apply not_elem_of_empty.
  - done.
  - exists sent, nt'. split_and!; [exact Hs | exact Hl | exact Hr].
Defined.

(** *** Frame ids of a sender *)

(** The passes of the sender loop ([send_camera_loop], [send_screen_loop])
    over the pickled frames [frames], from the counter [fid]: the frame
    id and the datagrams of each pass.  [struct.pack] is outside the
    [try] around [sendto]: when it raises, the loop is left. *)
Fixpoint send_frames (fid : Z) (frames : list (list byte))
  : list (Z * (list (list byte) * bool)) :=
  match frames with
  | [] => []
  | data :: rest =>
      let r := client_send_frame fid data in
      r :: (if r.2.2 then [] else send_frames r.1 rest)
  end.

Lemma next_fid_mod fid : next_fid fid = (fid + 1) mod 2 ^ 32.
Proof.
  unfold next_fid. change 0xFFFFFFFF with (Z.ones 32). by rewrite Z.land_ones.
Qed.

(** The ids of the passes are the successors of the counter modulo
    2^32, as far as the loop gets. *)
Lemma send_frames_ids frames : ∀ fid,
  ∃ n, (n ≤ length frames)%nat
       ∧ (send_frames fid frames).*1
         = (λ k : nat, (fid + Z.of_nat k) mod 2 ^ 32) <$> seq 1 n.
Proof.
  induction frames as [|data frames IH]; intros fid.
  - exists 0%nat. by split.
  - cbn [send_frames]. unfold client_send_frame. cbn [fst snd].
    destruct ((fragment (next_fid fid) data).2).
    + exists 1%nat. split; [simpl; lia|].
      rewrite fmap_cons. cbn [fst seq fmap list_fmap]. by rewrite next_fid_mod.
    + destruct (IH (next_fid fid)) as (n & Hn & E).
      exists (S n). split; [simpl; lia|].
      rewrite fmap_cons, E. cbn [fst seq]. rewrite fmap_cons. f_equal.
      * by rewrite next_fid_mod.
      * rewrite <- (seq_shift n 1), <- list_fmap_compose. apply list_fmap_ext.
        intros _ k _. simpl. rewrite next_fid_mod.
        rewrite Zplus_mod_idemp_l. f_equal. lia.
Qed.

(** X18. The frame ids of a sender do not repeat within 2^32 frames:
    whatever the counter starts from (0 for the camera, the clock for
    the screen), the ids of fewer than 2^32 consecutive frames are
    pairwise distinct and fit the 32-bit header field, so that the
    reassembly key (sender address, frame id) tells these frames
    apart. *)
Theorem frame_ids_distinct (fid : Z) (frames : list (list byte)) :
  len frames < 2 ^ 32 →
  NoDup (send_frames fid frames).*1
  ∧ Forall (λ id, 0 ≤ id < 2 ^ 32) (send_frames fid frames).*1.
Proof.
  intros Hlen. destruct (send_frames_ids frames fid) as (n & Hn & ->).
  unfold len in Hlen. split.
  - apply NoDup_fmap_2_strong; [|apply NoDup_seq].
    intros j k Hj%elem_of_seq Hk%elem_of_seq E.
    assert (H : (Z.of_nat j - Z.of_nat k) mod 2 ^ 32 = 0).
    { replace (Z.of_nat j - Z.of_nat k)
        with ((fid + Z.of_nat j) - (fid + Z.of_nat k)) by lia.
      rewrite Zminus_mod, E, Z.sub_diag. done. }
    apply Z.mod_divide in H as [q Hq]; [|done]. nia.
  - apply Forall_fmap, Forall_forall. intros k _. simpl.
    apply Z.mod_pos_bound. done.
Qed.

(** Three frames from the counter 2^32 - 2: the ids wrap around. *)
Lemma frame_ids_distinct_witness :
  let frames := [[x01]; [x02]; [x03]] in
  len frames < 2 ^ 32
  ∧ (send_frames (2 ^ 32 - 2) frames).*1 = [2 ^ 32 - 1; 0; 1]
  ∧ NoDup (send_frames (2 ^ 32 - 2) frames).*1.
Proof.
  intros frames.
  assert (H : len frames < 2 ^ 32) by reflexivity.
  split; [exact H|]. split; [vm_compute; reflexivity|].
  exact (proj1 (frame_ids_distinct (2 ^ 32 - 2) frames H)).
Defined.

(** *** Video reception *)

(** What one iteration of the loop of [udp_video_receiver] did. *)
Record receiver_result := ReceiverResult {
  (** [self.recv_reassembly] *)
  rr_reassembly : gmap (addr * Z) entry;
  rr_clock : clock;
  (** the bytes handed to [pickle.loads], when a frame completed *)
  rr_loaded : option (list byte);
  (** an exception reached the outer [except], which leaves the loop *)
  rr_ended : bool
}.

(** One iteration of [udp_video_receiver] on the datagram [(pkt, src)]
    returned by [recvfrom].  Whatever happens from [pickle.loads] on is
    inside the inner [try]. *)
Definition udp_video_receiver (pkt : list byte) (src : addr) (clk : clock)
    (recv_reassembly : gmap (addr * Z) entry) : receiver_result :=
  if bool_decide (pkt = []) || (len pkt <? VIDEO_HDR_SIZE)
  then ReceiverResult recv_reassembly clk None false
  else
    let hdr := take (Z.to_nat VIDEO_HDR_SIZE) pkt in
    let payload := drop (Z.to_nat VIDEO_HDR_SIZE) pkt in
    match unpack_video_hdr hdr with
    | None => ReceiverResult recv_reassembly clk None true
    | Some (frame_id, total_parts, part_idx) =>
        let key := (src, frame_id) in
        let '(entry0, clk0) :=
          match recv_reassembly !! key with
          | Some e => (e, clk)
          | None =>
              let '(t, clk') := time_time clk in
              ({| parts := ∅; total := total_parts; ts := t |}, clk')
          end in
        let '(t, clk1) := time_time clk0 in
        let entry1 := {| parts := <[part_idx := payload]> (parts entry0);
                         total := total entry0; ts := t |} in
        let m1 := <[key := entry1]> recv_reassembly in
        if complete entry1
        then match mapM (λ i, parts entry1 !! i) (range (total entry1)) with
             | None => ReceiverResult m1 clk1 None true
             | Some ps => ReceiverResult (delete key m1) clk1 (Some (concat ps)) false
             end
        else ReceiverResult m1 clk1 None false
    end.

(** The iterations over the datagrams that arrive, as long as the loop
    goes on. *)
Fixpoint receive (arrivals : list datagram) (clk : clock)
    (recv_reassembly : gmap (addr * Z) entry) : list receiver_result :=
  match arrivals with
  | [] => []
  | (pkt, src) :: rest =>
      let r := udp_video_receiver pkt src clk recv_reassembly in
      r :: (if rr_ended r then [] else receive rest (rr_clock r) (rr_reassembly r))
  end.

(** The datagrams of [arrivals] filed under [key], in arrival order. *)
Definition arrivals_of (key : addr * Z) (arrivals : list datagram) : list (list byte) :=
  omap (λ d : datagram,
          if bool_decide (packet_key d.1 d.2 = Some key) then Some d.1 else None)
       arrivals.

(** What the iterations on the datagrams filed under [key] handed to
    [pickle.loads]. *)
Fixpoint loaded_at (key : addr * Z) (arrivals : list datagram)
    (rs : list receiver_result) : list (option (list byte)) :=
  match arrivals, rs with
  | d :: arrivals', r :: rs' =>
      (if bool_decide (packet_key d.1 d.2 = Some key) then [rr_loaded r] else [])
        ++ loaded_at key arrivals' rs'
  | _, _ => []
  end.

(** The client's loop does to its buffers what the server's listener
    does to [video_reassembly], without a registry to relay to. *)
Lemma receiver_as_listener pkt src clk m :
  let r := video_udp_listener pkt src clk (with_reassembly initial_state m) in
  udp_video_receiver pkt src clk m
  = ReceiverResult (video_reassembly (vr_state r)) (vr_clock r)
                   (snd <$> vr_emitted r) (vr_raised r)
  ∧ vr_state r = with_reassembly initial_state (video_reassembly (vr_state r)).
Proof.
  split.
  - unfold udp_video_receiver, video_udp_listener.
    destruct (_ || _); [done|].
    destruct (unpack_video_hdr _) as [[[f t] i]|]; [|done].
    unfold process_fragment, buffer_fragment. simpl video_reassembly.
    destruct (m !! (src, f)) as [e|]; simpl.
    + destruct (complete _); [|done]. by destruct (mapM _ _).
    + destruct (complete _); [|done]. by destruct (mapM _ _).
  - symmetry. apply same_registry_eq; [|done].
    pose proof (listener_same_registry pkt src clk (with_reassembly initial_state m))
      as (H1 & H2 & H3 & H4 & H5).
    unfold same_registry. by rewrite H1, H2, H3, H4, H5.
Qed.

Section one_frame.
Variables (data : list byte) (srv : addr) (fid : Z).
Let N := fragment_count data.
Let key : addr * Z := (srv, fid).
Hypothesis frag_ok :
  ∀ i, i ∈ range N → fragment_of data fid N i (datagram_of data fid N i).

Lemma loaded_at_quiet arrivals : ∀ rs,
  arrivals_of key arrivals = [] → loaded_at key arrivals rs = [].
Proof.
  induction arrivals as [|d arrivals IH]; intros rs Hq; [done|].
  destruct rs as [|r rs]; [done|]. simpl.
  unfold arrivals_of in Hq. simpl in Hq.
  case_bool_decide; [done|]. by apply IH.
Qed.

(** The fragments [todo] still to come arrive in this order, among other
    datagrams that do not end the loop: nothing is loaded for the frame
    until the last one, which loads the frame's bytes. *)
Lemma loaded_at_frame arrivals : ∀ got todo clk m,
  got ++ todo ≡ₚ range N → todo ≠ [] →
  arrivals_of key arrivals = datagram_of data fid N <$> todo →
  buffered data srv fid got clk (with_reassembly initial_state m) →
  Forall (λ r, rr_ended r = false) (receive arrivals clk m) →
  loaded_at key arrivals (receive arrivals clk m)
  = replicate (length todo - 1) None ++ [Some data].
Proof.
  induction arrivals as [|[pkt src] arrivals IH]; intros got todo clk m Hp Htodo Hpk Hb Hgo.
  { destruct todo; [done | discriminate Hpk]. }
  cbn [receive] in Hgo |- *. apply Forall_cons in Hgo as [Hgo1 Hgo].
  rewrite Hgo1 in Hgo |- *.
  destruct (receiver_as_listener pkt src clk m) as [Hr Hst].
  set (st := with_reassembly initial_state m) in *.
  set (r := video_udp_listener pkt src clk st) in *.
  cbn [loaded_at fst snd].
  destruct (decide (packet_key pkt src = Some key)) as [Hk|Hk].
  - rewrite bool_decide_eq_true_2 by done.
    unfold arrivals_of in Hpk. simpl in Hpk. rewrite bool_decide_eq_true_2 in Hpk by done.
    fold (arrivals_of key arrivals) in Hpk.
    destruct todo as [|i todo]; [done|]. injection Hpk as -> Hrest.
    apply packet_key_sender in Hk as Hs. simpl in Hs. subst src.
    assert (Hi : i ∈ range N) by (rewrite <- Hp; apply elem_of_app; right; left).
    destruct (frag_ok i Hi) as (hdr & Hh & Hf).
    assert (Hrl : r = process_fragment fid (fragment_count data) i
                                       (part_of data i) srv clk st).
    { subst r. rewrite Hf. exact (listener_packed _ _ _ _ _ _ _ _ Hh). }
    destruct todo as [|j todo].
    + destruct (process_fragment_last data srv fid got i clk st) as [He _]; [|done|].
      { fold N. by rewrite <- Hp, Permutation_app_comm. }
      rewrite <- Hrl in He. rewrite Hr, He. simpl.
      by rewrite loaded_at_quiet.
    + destruct (process_fragment_partial data srv fid got (j :: todo) i clk st)
        as (He & Hb' & Hrd); [|done|done|].
      { fold N. by rewrite <- Hp, Permutation_middle. }
      rewrite <- Hrl in He, Hb'. rewrite Hst in Hb'.
      rewrite Hr in Hgo |- *. simpl in Hgo |- *. rewrite He. simpl.
      rewrite (IH (i :: got) (j :: todo)); [| |done|done|done|done].
      * simpl. by rewrite Nat.sub_0_r.
      * simpl. by rewrite <- Hp, Permutation_middle.
  - rewrite bool_decide_eq_false_2 by done. simpl.
    pose proof (listener_frame pkt src clk st) as (H1 & _ & H3). fold r in H1, H3.
    rewrite Hr in Hgo |- *. simpl in Hgo |- *.
    apply (IH got todo); [done|done| | |done].
    + rewrite <- Hpk. unfold arrivals_of. simpl. by rewrite bool_decide_eq_false_2.
    + rewrite <- Hst. eapply buffered_ext; [by apply H1|done|done].
Qed.

(** A fragment of the frame never ends the loop. *)
Lemma frame_fragment_goes_on got todo i clk m :
  i :: got ++ todo ≡ₚ range N →
  buffered data srv fid got clk (with_reassembly initial_state m) →
  vr_raised (process_fragment fid (fragment_count data) i (part_of data i) srv clk
                              (with_reassembly initial_state m)) = false.
Proof.
  intros Hp Hb. unfold process_fragment.
  destruct (buffer_fragment_buffered data srv fid got i clk _ Hb)
    as (t & clk' & -> & _).
  destruct (complete _) eqn:Hc; [|done].
  apply bool_decide_eq_true in Hc. simpl in Hc.
  assert (Hnd : NoDup (i :: got ++ todo)) by (rewrite Hp; apply NoDup_seqZ).
  assert (Hlen : Z.of_nat (length (i :: got ++ todo)) = N).
  { rewrite Hp. unfold range. rewrite length_seqZ.
    pose proof (fragment_count_bounds data) as HN. fold N in HN. lia. }
  assert (Hnd' : NoDup (i :: got)).
  { rewrite app_comm_cons in Hnd. by apply NoDup_app in Hnd as (? & _ & _). }
  rewrite parts_of_size in Hc by done.
  assert (todo = []) as ->.
  { simpl in Hlen, Hc. rewrite length_app in Hlen. destruct todo; [done|]. simpl in Hlen.
    fold N in Hc. lia. }
  rewrite app_nil_r in Hp. simpl parts. simpl total.
  rewrite (parts_of_join data (i :: got) Hp). reflexivity.
Qed.

(** The loop discards the datagram: it is empty or shorter than a
    header. *)
Definition short (pkt : list byte) : Prop :=
  bool_decide (pkt = []) || (len pkt <? VIDEO_HDR_SIZE) = true.

(** When every other datagram is one the loop discards, the loop goes
    on over the whole sequence. *)
Lemma receive_goes_on arrivals : ∀ got todo clk m,
  got ++ todo ≡ₚ range N →
  arrivals_of key arrivals = datagram_of data fid N <$> todo →
  Forall (λ d : datagram, packet_key d.1 d.2 = Some key ∨ short d.1) arrivals →
  (todo ≠ [] → buffered data srv fid got clk (with_reassembly initial_state m)) →
  Forall (λ r, rr_ended r = false) (receive arrivals clk m).
Proof.
  induction arrivals as [|[pkt src] arrivals IH]; intros got todo clk m Hp Hpk Hall Hb;
    [constructor|].
  apply Forall_cons in Hall as [Hd Hall]. simpl in Hd.
  cbn [receive].
  destruct Hd as [Hk|Hk].
  - destruct (receiver_as_listener pkt src clk m) as [Hr Hst].
    set (st := with_reassembly initial_state m) in *.
    set (r := video_udp_listener pkt src clk st) in *.
    unfold arrivals_of in Hpk. simpl in Hpk. rewrite bool_decide_eq_true_2 in Hpk by done.
    fold (arrivals_of key arrivals) in Hpk.
    destruct todo as [|i todo]; [done|]. injection Hpk as -> Hrest.
    specialize (Hb ltac:(done)).
    apply packet_key_sender in Hk as Hs. simpl in Hs. subst src.
    assert (Hi : i ∈ range N) by (rewrite <- Hp; apply elem_of_app; right; left).
    destruct (frag_ok i Hi) as (hdr & Hh & Hf).
    assert (Hrl : r = process_fragment fid (fragment_count data) i
                                       (part_of data i) srv clk st).
    { subst r. rewrite Hf. exact (listener_packed _ _ _ _ _ _ _ _ Hh). }
    assert (Hgo : vr_raised r = false).
    { rewrite Hrl. apply (frame_fragment_goes_on got todo); [|done].
      by rewrite <- Hp, Permutation_middle. }
    rewrite Hr. simpl. rewrite Hgo. constructor; [done|].
    apply (IH (i :: got) todo); [|done|done|].
    + simpl. by rewrite <- Hp, Permutation_middle.
    + intros Htodo.
      destruct (process_fragment_partial data srv fid got todo i clk st)
        as (_ & Hb' & _); [|done|done|].
      { fold N. by rewrite <- Hp, Permutation_middle. }
      rewrite <- Hrl in Hb'. by rewrite Hst in Hb'.
  - unfold short in Hk. unfold udp_video_receiver. rewrite Hk. simpl.
    constructor; [done|].
    apply (IH got todo); [done| |done|done].
    rewrite <- Hpk. unfold arrivals_of. simpl.
    rewrite bool_decide_eq_false_2; [done|].
    unfold packet_key. by rewrite Hk.
Qed.

End one_frame.

(** X17. Video end to end on the receiving side: the datagrams of one
    copy of a frame as the relay sends it (the frame id taken from the
    server's clock) reach a client's receiver in any order, among other
    video datagrams, none of which ends the loop.  Then the receiver
    hands nothing of that frame to [pickle.loads] until the last of the
    datagrams arrives, and there it hands over the frame's bytes as the
    original sender pickled them. *)
Theorem client_reassembles_relayed_frame
    (data : list byte) (t : Q) (srv : addr) (pkts : list (list byte))
    (arrivals : list datagram) (clk : clock) (m : gmap (addr * Z) entry) :
  let key := (srv, frame_id_out t) in
  fragment (frame_id_out t) data = (pkts, false) →
  pkts ≠ [] →
  arrivals_of key arrivals ≡ₚ pkts →
  m !! key = None →
  Forall (λ r, rr_ended r = false) (receive arrivals clk m) →
  loaded_at key arrivals (receive arrivals clk m)
  = replicate (length pkts - 1) None ++ [Some data].
Proof.
  intros key Hfrag Hne Hperm Hfresh Hgo.
  unfold fragment in Hfrag. apply fragment_loop_inv in Hfrag.
  apply fragments_datagram_of in Hfrag as [Hpkts Hok].
  set (fid := frame_id_out t) in *. set (N := fragment_count data) in *.
  rewrite Hpkts in Hperm. apply Permutation_map_inv in Hperm as (order & Hpk & Hord).
  assert (Hlen : length pkts = length order).
  { rewrite Hpkts, length_fmap. by apply Permutation_length. }
  rewrite Hlen.
  apply (loaded_at_frame data srv fid) with (got := []).
  - intros i Hi. by eapply Forall_forall in Hok.
  - simpl. by symmetry.
  - intros ->. apply Hne. destruct pkts; [done | discriminate Hlen].
  - done.
  - done.
  - done.
Qed.

(** A's 150000-byte frame of "Room1", relayed at 0.007 s with frame id 7,
    reaches a client from the server's address as fragments 2, 0 and 1,
    with a one-byte datagram in between. *)
Definition server_addr : addr := ("10.0.0.100"%string, VInt 60000).

Definition room1_arrivals : list datagram :=
  [(Room1.frag 2, server_addr); ([x00], Room1.B);
   (Room1.frag 0, server_addr); (Room1.frag 1, server_addr)].

Lemma frag_from_server i : 0 ≤ i < 3 →
  packet_key (Room1.frag i) server_addr = Some (server_addr, 7).
Proof.
  intros (hdr & Hh & ->)%Room1.frag_packed. by eapply packet_key_packed.
Qed.

Lemma room1_arrivals_of :
  arrivals_of (server_addr, 7) room1_arrivals
  = [Room1.frag 2; Room1.frag 0; Room1.frag 1].
Proof.
  unfold arrivals_of, room1_arrivals. cbn [omap list_omap fst snd].
  rewrite !frag_from_server by lia.
  rewrite bool_decide_eq_true_2 by done.
  by rewrite bool_decide_eq_false_2 by done.
Qed.

Lemma snd_eq {A B} (a a' : A) (b b' : B) : (a, b) = (a', b') → b = b'.
Proof. by intros [= _ ->]. Qed.

Lemma room1_relayed :
  fragment 7 Room1.frame = ([Room1.frag 0; Room1.frag 1; Room1.frag 2], false).
Proof.
  pose proof Room1.frame_sent as H. unfold client_send_frame in H.
  change (next_fid 6) with 7 in H. by apply snd_eq in H.
Qed.

(** Fragments 2, 0 and 1 of the relayed frame arrive in this order:
    nothing is loaded until fragment 1 is in, then the 150000 bytes. *)
Lemma client_reassembles_relayed_frame_witness :
  frame_id_out (7 # 1000) = 7
  ∧ fragment 7 Room1.frame = ([Room1.frag 0; Room1.frag 1; Room1.frag 2], false)
  ∧ loaded_at (server_addr, 7) room1_arrivals
              (receive room1_arrivals Room1.slow_clock ∅)
    = [None; None; Some Room1.frame].
Proof.
  assert (Hid : frame_id_out (7 # 1000) = 7) by (vm_compute; reflexivity).
  split; [exact Hid|]. split; [exact room1_relayed|].
  pose proof (client_reassembles_relayed_frame Room1.frame (7 # 1000) server_addr
           [Room1.frag 0; Room1.frag 1; Room1.frag 2] room1_arrivals
           Room1.slow_clock ∅) as H.
  cbv zeta in H. rewrite Hid in H.
  apply H; clear H.
  - exact room1_relayed.
  - discriminate.
  - rewrite room1_arrivals_of.
    etransitivity; [apply perm_swap|]. apply perm_skip, perm_swap.
  - apply lookup_empty.
  - apply (receive_goes_on Room1.frame server_addr 7) with (got := []) (todo := [2; 0; 1]).
    + intros i Hi. rewrite Room1.frame_count in Hi. apply range_bounds in Hi.
      destruct (Room1.frag_packed i Hi) as (hdr & Hh & Hf).
      exists hdr. rewrite Room1.frame_count. split; [done|]. exact Hf.
    + rewrite Room1.frame_count. cbn [app]. change (range 3) with [0; 1; 2].
      etransitivity; [apply perm_swap|]. apply perm_skip, perm_swap.
    + rewrite room1_arrivals_of, Room1.frame_count. reflexivity.
    + unfold room1_arrivals.
      constructor; [left; apply frag_from_server; lia|].
      constructor; [right; reflexivity|].
      constructor; [left; apply frag_from_server; lia|].
      constructor; [left; apply frag_from_server; lia|].
      constructor.
    + intros _. apply lookup_empty.
Defined.

End Client.
